(** * Registry upsert: version model, upsert decisions, merge and publish workflow

    A shallow embedding of
      - scripts/lib/version_compare.py
      - scripts/lib/registry_merge.py
      - scripts/lib/s3_operations.py
      - scripts/registry-upsert.py
    together with the properties of the registry that are stated about them.

    Python exceptions are modelled by the [result] monad; dictionaries that
    the code uses as maps are [gmap]s, sets are [gset]s.  Registry entries
    are JSON objects; the model keeps the three fields the code interprets
    (each possibly absent) and one opaque payload. *)

From Stdlib Require Import Ascii String List Bool Arith Lia DecimalString.
From stdpp Require Import base option list strings gmap.

Local Open Scope string_scope.
Local Open Scope list_scope.

(** ** Python exceptions *)

Inductive exn : Type :=
| ValueError (about : string)    (* ValueError / InvalidVersion / InvalidSpecifier *)
| KeyError (key : string)        (* d[key] on a dict without that key *)
| JSONDecodeError (path : string)
| RuntimeError (msg : string)
| SystemExit (code : nat).       (* sys.exit(code): a BaseException *)

Inductive result (A : Type) : Type :=
| Ok (a : A)
| Raise (e : exn).
Arguments Ok {A} a.
Arguments Raise {A} e.

#[global] Instance result_ret : MRet result := fun _ a => Ok a.
#[global] Instance result_bind : MBind result :=
  fun _ _ f m => match m with Ok a => f a | Raise e => Raise e end.

Definition of_option {A} (o : option A) (e : exn) : result A :=
  match o with Some a => Ok a | None => Raise e end.

(** The computation returns (no exception). *)
Definition is_ok {A} (r : result A) : Prop := exists a, r = Ok a.

(** A [for] loop whose body may raise: the first raising iteration aborts. *)
Fixpoint map_result {A B} (f : A -> result B) (l : list A) : result (list B) :=
  match l with
  | [] => Ok []
  | x :: l' => y ← f x; ys ← map_result f l'; Ok (y :: ys)
  end.

Fixpoint fold_result {A B} (f : A -> B -> result A) (l : list B) (a : A) : result A :=
  match l with
  | [] => Ok a
  | x :: l' => a' ← f a x; fold_result f l' a'
  end.

#[global] Instance exn_eq_dec : EqDecision exn.
Proof. solve_decision. Defined.
#[global] Instance result_eq_dec {A} `{EqDecision A} : EqDecision (result A).
Proof. solve_decision. Defined.

(** [str(n)] for a natural number. *)
Definition str_nat (n : nat) : string := NilZero.string_of_uint (Nat.to_uint n).

(** ** Python string operations *)

(** [s.split(sep)] for a one-character separator. *)
Fixpoint split_on (sep : ascii) (s : string) : list string :=
  match s with
  | EmptyString => [EmptyString]
  | String c s' =>
      if Ascii.eqb c sep then EmptyString :: split_on sep s'
      else match split_on sep s' with
           | [] => [String c EmptyString]
           | w :: ws => String c w :: ws
           end
  end.

(** [s.removeprefix(p)] when [s.startswith(p)]. *)
Fixpoint strip_prefix (p s : string) : option string :=
  match p, s with
  | EmptyString, _ => Some s
  | String a p', String b s' => if Ascii.eqb a b then strip_prefix p' s' else None
  | String _ _, EmptyString => None
  end.

(** [needle in s] *)
Fixpoint contains (needle s : string) : bool :=
  match strip_prefix needle s with
  | Some _ => true
  | None => match s with
            | EmptyString => false
            | String _ s' => contains needle s'
            end
  end.

(** [s.lstrip("/")] *)
Fixpoint lstrip_slash (s : string) : string :=
  match s with
  | String "/" s' => lstrip_slash s'
  | _ => s
  end.

Definition is_space (c : ascii) : bool :=
  let n := nat_of_ascii c in
  (n =? 32)%nat || ((9 <=? n)%nat && (n <=? 13)%nat).

(** [not s.strip()] *)
Fixpoint blank (s : string) : bool :=
  match s with
  | EmptyString => true
  | String c s' => is_space c && blank s'
  end.

(** [s.replace(old, new)] for a non-empty [old]; [skip] counts the
    characters of an occurrence of [old] that are still to be dropped. *)
Fixpoint replace_from (old new : string) (skip : nat) (s : string) : string :=
  match s with
  | EmptyString => EmptyString
  | String c s' =>
      match skip with
      | S k => replace_from old new k s'
      | O =>
          match strip_prefix old s with
          | Some _ => new +:+ replace_from old new (String.length old - 1) s'
          | None => String c (replace_from old new 0 s')
          end
      end
  end.

Definition replace (old new s : string) : string := replace_from old new 0 s.

(** The last component of a path. *)
Definition basename (path : string) : string :=
  List.last (split_on "/" path) EmptyString.

(** ** scripts/lib/version_compare.py *)

Module VersionCompare.

Inductive ConstraintRelationship : Type :=
| DISJOINT | SAME | SUPERSET | SUBSET | PARTIAL.

Inductive VersionComparison : Type :=
| NEWER | VSAME | OLDER.

#[global] Instance ConstraintRelationship_eq_dec : EqDecision ConstraintRelationship.
Proof. solve_decision. Defined.
#[global] Instance VersionComparison_eq_dec : EqDecision VersionComparison.
Proof. solve_decision. Defined.

(** The third-party [packaging] library, as far as the code uses it:
    [Version(s)] and [SpecifierSet(s)] (None when the constructor raises
    InvalidVersion / InvalidSpecifier), the comparisons [<] and [==] on
    versions ([a > b] is [b < a] on the version keys), and [v in spec]. *)
Class Packaging : Type := {
  Version : Type;
  Version_new : string -> option Version;
  Version_lt : Version -> Version -> bool;
  Version_eq : Version -> Version -> bool;
  SpecifierSet : Type;
  SpecifierSet_new : string -> option SpecifierSet;
  SpecifierSet_contains : SpecifierSet -> Version -> bool
}.

Section WithPackaging.
Context {P : Packaging}.

Definition parse_version (version_str : string) : result Version :=
  of_option (Version_new version_str) (ValueError version_str).

Definition parse_constraint (constraint_str : string) : result SpecifierSet :=
  of_option (SpecifierSet_new constraint_str) (ValueError constraint_str).

Definition compare_versions (v1 v2 : string) : result VersionComparison :=
  ver1 ← parse_version v1;
  ver2 ← parse_version v2;
  if Version_lt ver2 ver1 then Ok NEWER
  else if Version_lt ver1 ver2 then Ok OLDER
  else Ok VSAME.

(** [range(n)] *)
Definition range (n : nat) : list nat := seq 0 n.

(** [f"{major}.{minor}.{patch}"] *)
Definition fmt_version (major minor patch : nat) : string :=
  str_nat major +:+ "." +:+ str_nat minor +:+ "." +:+ str_nat patch.

Definition specific : list string :=
  ["0.8.0"; "0.8.1"; "0.9.0"; "0.9.5"; "0.10.0"; "1.0.0"; "1.0.1"; "1.1.0"; "1.2.0"].

(** [sorted(versions)]: Python's sort is stable and only uses [<]. *)
Fixpoint insert_sorted (x : Version) (l : list Version) : list Version :=
  match l with
  | [] => [x]
  | y :: l' => if Version_lt y x then y :: insert_sorted x l' else x :: y :: l'
  end.

Definition sorted (l : list Version) : list Version :=
  foldr insert_sorted [] l.

(** [ver not in versions] negated: list membership by [==]. *)
Definition version_in (ver : Version) (versions : list Version) : bool :=
  existsb (Version_eq ver) versions.

Definition add_specific (versions : list Version) (v : string) : result (list Version) :=
  ver ← of_option (Version_new v) (ValueError v);
  if version_in ver versions then Ok versions else Ok (versions ++ [ver]).

Fixpoint add_all_specific (versions : list Version) (vs : list string)
  : result (list Version) :=
  match vs with
  | [] => Ok versions
  | v :: vs' => versions' ← add_specific versions v; add_all_specific versions' vs'
  end.

Definition generate_test_versions : result (list Version) :=
  versions ← map_result
     (fun s => of_option (Version_new s) (ValueError s))
     (major ← range 3; minor ← range 20; patch ← range 5;
      [fmt_version major minor patch]);
  versions' ← add_all_specific versions specific;
  Ok (sorted versions').

(** The module-level cache [_TEST_VERSIONS] only memoises the value. *)
Definition get_test_versions : result (list Version) := generate_test_versions.

Definition constraints_overlap (c1 c2 : string) : result bool :=
  spec1 ← parse_constraint c1;
  spec2 ← parse_constraint c2;
  versions ← get_test_versions;
  Ok (existsb (fun version => SpecifierSet_contains spec1 version
                              && SpecifierSet_contains spec2 version) versions).

Definition is_superset (c1 c2 : string) : result bool :=
  spec1 ← parse_constraint c1;
  spec2 ← parse_constraint c2;
  versions ← get_test_versions;
  Ok (forallb (fun version => negb (SpecifierSet_contains spec2 version
                                    && negb (SpecifierSet_contains spec1 version)))
              versions).

Definition is_subset (c1 c2 : string) : result bool := is_superset c2 c1.

Definition constraints_equal (c1 c2 : string) : result bool :=
  spec1 ← parse_constraint c1;
  spec2 ← parse_constraint c2;
  versions ← get_test_versions;
  Ok (forallb (fun version => eqb (SpecifierSet_contains spec1 version)
                                  (SpecifierSet_contains spec2 version)) versions).

Definition compare_constraints (c1 c2 : string) : result ConstraintRelationship :=
  equal ← constraints_equal c1 c2;
  if equal : bool then Ok SAME
  else
    overlap ← constraints_overlap c1 c2;
    if negb overlap then Ok DISJOINT
    else
      c1_superset ← is_superset c1 c2;
      c2_superset ← is_superset c2 c1;
      if c1_superset && negb c2_superset then Ok SUPERSET
      else if c2_superset && negb c1_superset then Ok SUBSET
      else Ok PARTIAL.

(** The text that [packaging] puts after the colon of the message is not
    modelled. *)
Definition validate_constraint (constraint_str : string) : bool * option string :=
  if decide (constraint_str = "") then (false, Some "Constraint string is empty")
  else match parse_constraint constraint_str with
       | Ok _ => (true, None)
       | Raise _ =>
           (false, Some ("Invalid constraint string '" +:+ constraint_str +:+ "'"))
       end.

Definition validate_version (version_str : string) : bool * option string :=
  if decide (version_str = "") then (false, Some "Version string is empty")
  else match parse_version version_str with
       | Ok _ => (true, None)
       | Raise _ => (false, Some ("Invalid version string '" +:+ version_str +:+ "'"))
       end.

End WithPackaging.

Arguments get_test_versions : simpl never.

End VersionCompare.

(** ** scripts/lib/registry_merge.py *)

Module RegistryMerge.
Import VersionCompare.

Inductive UpsertAction : Type :=
| INSERT | REPLACE | FAIL.

#[global] Instance UpsertAction_eq_dec : EqDecision UpsertAction.
Proof. solve_decision. Defined.

(** A registry entry (a JSON object).  [None] is an absent key; the values
    of the three interpreted keys are strings. *)
Record entry : Type := {
  e_name : option string;
  e_version : option string;
  e_kamiwaza_version : option string;
  e_payload : string
}.

#[global] Instance entry_eq_dec : EqDecision entry.
Proof. solve_decision. Defined.

Record UpsertResult : Type := {
  name : string;
  action : UpsertAction;
  reason : string;
  new_entry : entry;
  replaced_entries : list entry;
  error : option string
}.

Record MergeResult : Type := {
  success : bool;
  merged_entries : list entry;
  actions : list UpsertResult;
  errors : list string
}.

(** [d[key]] *)
Definition subscript (field : option string) (key : string) : result string :=
  of_option field (KeyError key).

(** [not x] for [x = d.get(key)]: absent and empty are falsy. *)
Definition falsy (field : option string) : bool :=
  match field with
  | None | Some "" => true
  | Some _ => false
  end.

(** [a or b] *)
Definition or_else (a : option string) (b : string) : string :=
  if falsy a then b else default b a.

Section WithPackaging.
Context {P : Packaging}.

Definition validate_entry (entry : entry) (garden_version : string) : list string :=
  let errors :=
    (field_name ← [("name", e_name entry); ("version", e_version entry)];
     if field_name.2 is None
     then ["Missing required field: " +:+ field_name.1] else []) in
  let errors :=
    match e_version entry with
    | Some version =>
        match validate_version version with
        | (false, err) => errors ++ ["Invalid version: " +:+ default "None" err]
        | (true, _) => errors
        end
    | None => errors
    end in
  if decide (garden_version = "v2") then
    if falsy (e_kamiwaza_version entry)
    then errors ++ ["v2 registry requires kamiwaza_version field"]
    else match validate_constraint (default "" (e_kamiwaza_version entry)) with
         | (false, err) => errors ++ ["Invalid kamiwaza_version: " +:+ default "None" err]
         | (true, _) => errors
         end
  else errors.

Definition determine_upsert_action_v1 (new_entry : entry) (existing_entries : list entry)
  : result UpsertResult :=
  name ← subscript (e_name new_entry) "name";
  new_version ← subscript (e_version new_entry) "version";
  match existing_entries with
  | [] =>
      Ok {| name := name; action := INSERT; reason := "New extension";
            new_entry := new_entry; replaced_entries := []; error := None |}
  | existing :: _ =>
      existing_version ← subscript (e_version existing) "version";
      comparison ← compare_versions new_version existing_version;
      match comparison with
      | NEWER =>
          Ok {| name := name; action := REPLACE;
                reason := "Version upgrade: " +:+ existing_version +:+ " -> " +:+ new_version;
                new_entry := new_entry; replaced_entries := [existing]; error := None |}
      | VSAME =>
          Ok {| name := name; action := FAIL;
                reason := "Version " +:+ new_version +:+ " already exists (immutable)";
                new_entry := new_entry; replaced_entries := [];
                error := Some ("Cannot mutate existing version " +:+ new_version) |}
      | OLDER =>
          Ok {| name := name; action := FAIL;
                reason := "Cannot downgrade: " +:+ existing_version +:+ " -> " +:+ new_version;
                new_entry := new_entry; replaced_entries := [];
                error := Some ("Cannot downgrade from " +:+ existing_version
                               +:+ " to " +:+ new_version) |}
      end
  end.

(** The [for existing in existing_entries] loop of
    [determine_upsert_action_v2] with the statements that follow it;
    [entries_to_replace] is the list the loop appends to. *)
Fixpoint v2_loop (name new_version new_constraint : string) (new_entry : entry)
    (existing_entries entries_to_replace : list entry) : result UpsertResult :=
  match existing_entries with
  | [] =>
      match entries_to_replace with
      | _ :: _ =>
          Ok {| name := name; action := REPLACE;
                reason := "Replacing " +:+ str_nat (length entries_to_replace)
                          +:+ " entry(ies)";
                new_entry := new_entry; replaced_entries := entries_to_replace;
                error := None |}
      | [] =>
          Ok {| name := name; action := INSERT;
                reason := "Disjoint kamiwaza_version: " +:+ new_constraint;
                new_entry := new_entry; replaced_entries := []; error := None |}
      end
  | existing :: rest =>
      let existing_constraint := e_kamiwaza_version existing in
      existing_version ← subscript (e_version existing) "version";
      if falsy existing_constraint then
        Ok {| name := name; action := FAIL;
              reason := "Existing entry missing kamiwaza_version";
              new_entry := new_entry; replaced_entries := [];
              error := Some ("Existing entry for " +:+ name
                             +:+ " is malformed (no kamiwaza_version)") |}
      else
        let existing_constraint := default "" existing_constraint in
        relationship ← compare_constraints new_constraint existing_constraint;
        match relationship with
        | DISJOINT =>
            v2_loop name new_version new_constraint new_entry rest entries_to_replace
        | SAME =>
            version_cmp ← compare_versions new_version existing_version;
            match version_cmp with
            | NEWER =>
                v2_loop name new_version new_constraint new_entry rest
                        (entries_to_replace ++ [existing])
            | VSAME =>
                Ok {| name := name; action := FAIL;
                      reason := "Version " +:+ new_version +:+ " with constraint "
                                +:+ new_constraint +:+ " already exists";
                      new_entry := new_entry; replaced_entries := [];
                      error := Some ("Cannot mutate existing version " +:+ new_version) |}
            | OLDER =>
                Ok {| name := name; action := FAIL;
                      reason := "Cannot downgrade: " +:+ existing_version +:+ " -> "
                                +:+ new_version;
                      new_entry := new_entry; replaced_entries := [];
                      error := Some ("Cannot downgrade from " +:+ existing_version
                                     +:+ " to " +:+ new_version) |}
            end
        | SUPERSET =>
            v2_loop name new_version new_constraint new_entry rest
                    (entries_to_replace ++ [existing])
        | SUBSET =>
            Ok {| name := name; action := FAIL;
                  reason := "Would narrow support: " +:+ existing_constraint +:+ " -> "
                            +:+ new_constraint;
                  new_entry := new_entry; replaced_entries := [];
                  error := Some ("Cannot narrow kamiwaza_version from "
                                 +:+ existing_constraint +:+ " to " +:+ new_constraint) |}
        | PARTIAL =>
            Ok {| name := name; action := FAIL;
                  reason := "Partial overlap: " +:+ existing_constraint +:+ " and "
                            +:+ new_constraint;
                  new_entry := new_entry; replaced_entries := [];
                  error := Some ("Partial overlap between " +:+ existing_constraint
                                 +:+ " and " +:+ new_constraint
                                 +:+ " requires manual resolution") |}
        end
  end.

Definition determine_upsert_action_v2 (new_entry : entry) (existing_entries : list entry)
  : result UpsertResult :=
  name ← subscript (e_name new_entry) "name";
  new_version ← subscript (e_version new_entry) "version";
  let new_constraint := e_kamiwaza_version new_entry in
  if falsy new_constraint then
    Ok {| name := name; action := FAIL; reason := "Missing kamiwaza_version";
          new_entry := new_entry; replaced_entries := [];
          error := Some "v2 registry requires kamiwaza_version field" |}
  else
    let new_constraint := default "" new_constraint in
    match existing_entries with
    | [] =>
        Ok {| name := name; action := INSERT; reason := "New extension";
              new_entry := new_entry; replaced_entries := []; error := None |}
    | _ :: _ =>
        v2_loop name new_version new_constraint new_entry existing_entries []
    end.

Definition determine_upsert_action_forced (new_entry : entry)
    (existing_entries : list entry) : result UpsertResult :=
  name ← subscript (e_name new_entry) "name";
  match existing_entries with
  | [] =>
      Ok {| name := name; action := INSERT; reason := "New extension (forced)";
            new_entry := new_entry; replaced_entries := []; error := None |}
  | _ :: _ =>
      Ok {| name := name; action := REPLACE;
            reason := "Forced replace of " +:+ str_nat (length existing_entries)
                      +:+ " entry(ies)";
            new_entry := new_entry; replaced_entries := existing_entries;
            error := None |}
  end.

Definition _determine_upsert_action (local_entry : entry) (existing : list entry)
    (garden_version : string) (force_entries : gset string) : result UpsertResult :=
  let name := default "" (e_name local_entry) in
  if decide (name ∈ force_entries) then
    determine_upsert_action_forced local_entry existing
  else if decide (garden_version = "v1" \/ garden_version = "default") then
    determine_upsert_action_v1 local_entry existing
  else determine_upsert_action_v2 local_entry existing.

(** The hashable key [(e.get("name"), e.get("version"), e.get("kamiwaza_version"))]. *)
Definition entry_key (e : entry) : option string * option string * option string :=
  (e_name e, e_version e, e_kamiwaza_version e).

(** [remote_by_name]: the first loop of [merge_entries]. *)
Definition group_by_name (remote_entries : list entry) : gmap string (list entry) :=
  fold_left
    (fun (remote_by_name : gmap string (list entry)) entry =>
       let name := default "" (e_name entry) in
       <[name := default [] (remote_by_name !! name) ++ [entry]]> remote_by_name)
    remote_entries ∅.

(** The loop state of the second loop. *)
Record merge_state : Type := {
  st_actions : list UpsertResult;
  st_errors : list string;
  st_entries_to_remove : gset (option string * option string * option string)
}.

Definition merge_step (remote_by_name : gmap string (list entry))
    (garden_version : string) (force_entries : gset string)
    (st : merge_state) (local_entry : entry) : result merge_state :=
  let name := default "" (e_name local_entry) in
  let existing := default [] (remote_by_name !! name) in
  result ← _determine_upsert_action local_entry existing garden_version force_entries;
  let actions := st_actions st ++ [result] in
  match action result with
  | FAIL =>
      Ok {| st_actions := actions;
            st_errors := st_errors st ++ [or_else (error result) (reason result)];
            st_entries_to_remove := st_entries_to_remove st |}
  | REPLACE =>
      Ok {| st_actions := actions;
            st_errors := st_errors st;
            st_entries_to_remove :=
              fold_left (fun s replaced => s ∪ {[ entry_key replaced ]})
                        (replaced_entries result) (st_entries_to_remove st) |}
  | INSERT =>
      Ok {| st_actions := actions; st_errors := st_errors st;
            st_entries_to_remove := st_entries_to_remove st |}
  end.

Definition is_insert_or_replace (a : UpsertResult) : bool :=
  match action a with INSERT | REPLACE => true | FAIL => false end.

Definition merge_entries (local_entries remote_entries : list entry)
    (garden_version : string) (force_entries : option (gset string))
  : result MergeResult :=
  let force_entries := default ∅ force_entries in
  let remote_by_name := group_by_name remote_entries in
  st ← fold_result (merge_step remote_by_name garden_version force_entries)
        local_entries
        {| st_actions := []; st_errors := []; st_entries_to_remove := ∅ |};
  match st_errors st with
  | _ :: _ =>
      Ok {| success := false; merged_entries := [];
            actions := st_actions st; errors := st_errors st |}
  | [] =>
      let merged :=
        filter (fun entry => entry_key entry ∉ st_entries_to_remove st) remote_entries in
      let merged :=
        merged ++ map new_entry (filter (fun a => is_insert_or_replace a = true)
                                        (st_actions st)) in
      Ok {| success := true; merged_entries := merged;
            actions := st_actions st; errors := [] |}
  end.

End WithPackaging.

Arguments merge_entries : simpl never.

End RegistryMerge.

(** ** An instance of [Packaging]

    Plain dotted numeric releases ("1.2.3") ordered segment by segment
    (missing segments count as 0), and specifier sets that are comma
    separated clauses of an operator and a release.  It covers the
    fragment of the library's input language that registries use and lets
    the definitions above run on concrete entries. *)

Module ReleasePackaging.
Import VersionCompare.

Definition digit_of (c : ascii) : option nat :=
  let n := nat_of_ascii c in
  if (48 <=? n)%nat && (n <=? 57)%nat then Some (n - 48) else None.

Fixpoint number_of (acc : nat) (s : string) : option nat :=
  match s with
  | EmptyString => Some acc
  | String c s' => d ← digit_of c; number_of (10 * acc + d) s'
  end.

Definition segment_of (s : string) : option nat :=
  match s with
  | EmptyString => None
  | _ => number_of 0 s
  end.

Definition release_of (s : string) : option (list nat) :=
  mapM segment_of (split_on "." s).

Fixpoint release_cmp (a b : list nat) : comparison :=
  match a, b with
  | [], _ => if forallb (Nat.eqb 0) b then Eq else Lt
  | _, [] => if forallb (Nat.eqb 0) a then Eq else Gt
  | x :: a', y :: b' => match (x ?= y)%nat with Eq => release_cmp a' b' | c => c end
  end.

Definition release_lt (a b : list nat) : bool :=
  match release_cmp a b with Lt => true | _ => false end.

Definition release_eq (a b : list nat) : bool :=
  match release_cmp a b with Eq => true | _ => false end.

Inductive operator : Type :=
| OpCompatible | OpEq | OpNe | OpLe | OpGe | OpLt | OpGt.

Definition clause_of (s : string) : option (operator * list nat) :=
  let try (p : string) (op : operator) (k : option (operator * list nat)) :=
    match strip_prefix p s with
    | Some v => r ← release_of v; Some (op, r)
    | None => k
    end in
  try "~=" OpCompatible (try "==" OpEq (try "!=" OpNe (try "<=" OpLe
    (try ">=" OpGe (try "<" OpLt (try ">" OpGt None)))))).

Definition specifiers_of (s : string) : option (list (operator * list nat)) :=
  match s with
  | EmptyString => Some []
  | _ => mapM clause_of (split_on "," s)
  end.

Definition clause_holds (v : list nat) (cl : operator * list nat) : bool :=
  let '(op, r) := cl in
  match op with
  | OpEq => release_eq v r
  | OpNe => negb (release_eq v r)
  | OpLe => negb (release_lt r v)
  | OpGe => negb (release_lt v r)
  | OpLt => release_lt v r
  | OpGt => release_lt r v
  | OpCompatible =>
      let n := length r - 1 in
      negb (release_lt v r)
      && release_eq (take n (v ++ repeat 0 n)) (take n r)
      && (2 <=? length r)%nat
  end.

#[global] Instance release_packaging : Packaging := {|
  Version := list nat;
  Version_new := release_of;
  Version_lt := release_lt;
  Version_eq := release_eq;
  SpecifierSet := list (operator * list nat);
  SpecifierSet_new := specifiers_of;
  SpecifierSet_contains := fun spec v => forallb (clause_holds v) spec
|}.

End ReleasePackaging.


(** ** The upsert rules and the catalog invariant, as the specification words them *)

Module UpsertSpec.
Import VersionCompare RegistryMerge.

(** What the v2 rule set says about one existing entry. *)
Inductive verdict : Type :=
| Coexist      (* DISJOINT: no conflict, go on to the next existing entry *)
| MarkReplace  (* SAME and NEWER, or SUPERSET: mark for REPLACE *)
| Conflict.    (* malformed existing entry, SAME/SAME, SAME/OLDER, SUBSET, PARTIAL *)

#[global] Instance verdict_eq_dec : EqDecision verdict.
Proof. solve_decision. Defined.

(** Swapping the arguments of [compare_constraints] mirrors the answer. *)
Definition mirror (r : ConstraintRelationship) : ConstraintRelationship :=
  match r with
  | SUPERSET => SUBSET
  | SUBSET => SUPERSET
  | r => r
  end.

Section WithPackaging.
Context {P : Packaging}.

Definition spec_v2_verdict (new_version new_constraint : string) (existing : entry)
  : result verdict :=
  existing_version ← subscript (e_version existing) "version";
  match e_kamiwaza_version existing with
  | None | Some "" => Ok Conflict
  | Some existing_constraint =>
      relationship ← compare_constraints new_constraint existing_constraint;
      match relationship with
      | DISJOINT => Ok Coexist
      | SAME =>
          version_cmp ← compare_versions new_version existing_version;
          match version_cmp with
          | NEWER => Ok MarkReplace
          | VSAME => Ok Conflict
          | OLDER => Ok Conflict
          end
      | SUPERSET => Ok MarkReplace
      | SUBSET => Ok Conflict
      | PARTIAL => Ok Conflict
      end
  end.

Definition passes (new_version new_constraint : string) (existing : entry) : Prop :=
  spec_v2_verdict new_version new_constraint existing = Ok Coexist
  \/ spec_v2_verdict new_version new_constraint existing = Ok MarkReplace.

Definition marked (new_version new_constraint : string) (existing : entry) : Prop :=
  spec_v2_verdict new_version new_constraint existing = Ok MarkReplace.

#[global] Instance marked_dec new_version new_constraint existing :
  Decision (marked new_version new_constraint existing).
Proof. unfold marked. apply _. Defined.

(** The name under which the merge groups an entry: [entry.get("name", "")]. *)
Definition entry_name (e : entry) : string := default "" (e_name e).

Definition is_v1 (garden_version : string) : bool :=
  bool_decide (garden_version = "v1" \/ garden_version = "default").

(** Two entries may stand in one catalog: different names, or (format v2
    only) constraints that [compare_constraints] finds DISJOINT. *)
Definition compatible (garden_version : string) (a b : entry) : bool :=
  if bool_decide (entry_name a = entry_name b) then
    if is_v1 garden_version then false
    else match e_kamiwaza_version a, e_kamiwaza_version b with
         | Some ca, Some cb => bool_decide (compare_constraints ca cb = Ok DISJOINT)
         | _, _ => false
         end
  else true.



(** The keys of the entries that the REPLACE actions of a batch replace. *)
Definition replaced_keys (acts : list UpsertResult)
  : gset (option string * option string * option string) :=
  list_to_set (map entry_key
    (flat_map (fun a => match action a with
                        | REPLACE => replaced_entries a
                        | _ => []
                        end) acts)).

(** The remote entries that survive a batch: those whose key triple is not
    the key of a replaced entry. *)
Definition kept_entries (acts : list UpsertResult) (remote_entries : list entry)
  : list entry :=
  filter (fun e => (e_name e, e_version e, e_kamiwaza_version e) ∉ replaced_keys acts)
         remote_entries.

(** The error that the merge collects for a failed action. *)
Definition collected_error (a : UpsertResult) : string := or_else (error a) (reason a).

Definition collected_errors (acts : list UpsertResult) : list string :=
  map collected_error (filter (fun a => action a = FAIL) acts).

(** The existing entries that the merge hands to the decision for one
    candidate, and that decision. *)
Definition existing_for (remote_entries : list entry) (local_entry : entry) : list entry :=
  default [] (group_by_name remote_entries !! entry_name local_entry).

Definition decision (remote_entries : list entry) (garden_version : string)
    (force_entries : option (gset string)) (local_entry : entry) : result UpsertResult :=
  _determine_upsert_action local_entry (existing_for remote_entries local_entry)
    garden_version (default ∅ force_entries).

End WithPackaging.
End UpsertSpec.

(** ** Sample entries, after scripts/tests/test_registry_merge.py *)

Module Samples.
Import RegistryMerge.

Definition v1_entry (name version : string) : entry :=
  {| e_name := Some name; e_version := Some version;
     e_kamiwaza_version := None; e_payload := "" |}.

Definition v2_entry (name version kamiwaza_version : string) : entry :=
  {| e_name := Some name; e_version := Some version;
     e_kamiwaza_version := Some kamiwaza_version; e_payload := "" |}.

Definition described (description : string) (e : entry) : entry :=
  {| e_name := e_name e; e_version := e_version e;
     e_kamiwaza_version := e_kamiwaza_version e; e_payload := description |}.

(** The decisions of a batch against a remote catalog, evaluated. *)
Definition decisions_of (local remote : list entry) (gv : string)
    (force : option (gset string)) : list UpsertResult :=
  match map_result (UpsertSpec.decision (P := ReleasePackaging.release_packaging)
                      remote gv force) local with
  | Ok rs => rs
  | Raise _ => []
  end.

(** test_merge_v1_fail_blocks_all *)
Definition blocked_local : list entry := [v1_entry "app1" "1.1.0"; v1_entry "app2" "1.0.0"].
Definition blocked_remote : list entry := [v1_entry "app1" "1.0.0"; v1_entry "app2" "1.0.0"].
Definition blocked_decisions : list UpsertResult :=
  Eval vm_compute in decisions_of blocked_local blocked_remote "v1" None.

(** Two remote entries with one key and different payloads. *)
Definition twin_local : list entry := [v1_entry "app" "1.1.0"].
Definition twin_remote : list entry :=
  [described "first" (v1_entry "app" "1.0.0"); v1_entry "other" "3.0.0";
   described "second" (v1_entry "app" "1.0.0")].
Definition twin_decisions : list UpsertResult :=
  Eval vm_compute in decisions_of twin_local twin_remote "v1" None.

(** test_merge_v2_insert_disjoint *)
Definition disjoint_local : list entry := [v2_entry "app" "1.0.0" ">=0.9.0,<1.0.0"].
Definition disjoint_remote : list entry := [v2_entry "app" "1.0.0" ">=0.8.0,<0.9.0"].


End Samples.

(** ** Files, directories and the remote store *)

Module Files.
Import RegistryMerge.

(** The content of a local file or of a remote object, as the code reads
    it: [json.load] gives a list, a dict with an "entries" key, the lock
    record, or some other JSON value (of the given truthiness); [Blob] is
    text that is not JSON. *)
Inductive file : Type :=
| JsonArray (entries : list entry)
| JsonEntries (entries : list entry)
| JsonLock (owner hostname acquired_at : string) (pid : nat)
| JsonOther (truthy : bool)
| Blob (raw : string).

#[global] Instance file_eq_dec : EqDecision file.
Proof. solve_decision. Defined.

(** A directory tree: relative path to file content. *)
Definition dir : Type := string -> option file.

Definition empty_dir : dir := fun _ => None.

(** What a local path points to. *)
Inductive fs_node : Type :=
| Absent
| RegularFile
| Directory (d : dir).

(** The objects of the remote store, by S3 path ("s3://bucket/key"). *)
Definition store : Type := string -> option file.

End Files.

(** ** scripts/lib/registry_merge.py: the functions that touch files *)

Module RegistryFiles.
Import VersionCompare RegistryMerge Files.

Definition load_registry_json (d : dir) (filename : string) : result (list entry) :=
  match d filename with
  | None => Ok []
  | Some (JsonArray data) => Ok data
  | Some (JsonEntries entries) => Ok entries
  | Some (JsonLock _ _ _ _) | Some (JsonOther _) => Ok []
  | Some (Blob _) => Raise (JSONDecodeError filename)
  end.

Definition save_registry_json (d : dir) (filename : string) (entries : list entry) : dir :=
  fun rel => if String.eqb rel filename then Some (JsonArray entries) else d rel.

(** [enumerate(l)] *)
Definition enumerate {A} (l : list A) : list (nat * A) := combine (seq 0 (length l)) l.

(** [garden_dir]: "default" for v1, the version itself otherwise. *)
Definition garden_dir_of (garden_version : string) : string :=
  if decide (garden_version = "v1") then "default" else garden_version.

Section WithPackaging.
Context {P : Packaging}.

(** [local_path] is the node at the garden directory of the local
    registry.  The messages leave out the text of the path. *)
Definition validate_local_registry (local_path : fs_node) (garden_version : string)
  : bool * list string :=
  match local_path with
  | Absent => (false, ["Local registry path does not exist"])
  | RegularFile => (false, ["Local registry path is not a directory"])
  | Directory d =>
      match d "apps.json", d "tools.json" with
      | None, None => (false, ["No apps.json or tools.json found"])
      | _, _ =>
          let errors :=
            json_path ← ["apps.json"; "tools.json"];
            match d json_path with
            | None => []
            | Some _ =>
                match load_registry_json d json_path with
                | Raise _ => ["Invalid JSON in " +:+ json_path]
                | Ok entries =>
                    ie ← enumerate entries;
                    err ← validate_entry ie.2 garden_version;
                    [json_path +:+ "[" +:+ str_nat ie.1 +:+ "]: " +:+ err]
                end
            end in
          (bool_decide (length errors = 0), errors)
      end
  end.

(** [local_path] and [remote_path] are the directories that hold the
    catalogs; the result also gives the content written to
    [output_path], if any. *)
Definition merge_registries (local_path remote_path : dir) (garden_version : string)
    (force_entries : option (gset string))
  : result (bool * MergeResult * MergeResult * option dir) :=
  local_apps ← load_registry_json local_path "apps.json";
  remote_apps ← load_registry_json remote_path "apps.json";
  apps_result ← merge_entries local_apps remote_apps garden_version force_entries;
  local_tools ← load_registry_json local_path "tools.json";
  remote_tools ← load_registry_json remote_path "tools.json";
  tools_result ← merge_entries local_tools remote_tools garden_version force_entries;
  let written :=
    if success apps_result && success tools_result then
      let images_dir :=
        if decide (garden_version = "v2") then "images" else "app-garden-images" in
      Some (fun rel =>
              if String.eqb rel "apps.json"
              then Some (JsonArray (merged_entries apps_result))
              else if String.eqb rel "tools.json"
              then Some (JsonArray (merged_entries tools_result))
              else match strip_prefix (images_dir +:+ "/") rel with
                   | Some _ => match remote_path rel with
                               | Some f => Some f
                               | None => local_path rel
                               end
                   | None => None
                   end)
    else None in
  Ok (success apps_result && success tools_result, apps_result, tools_result, written).

End WithPackaging.

Arguments validate_local_registry : simpl never.
Arguments merge_registries : simpl never.

(** The lines that [print_merge_summary] prints.  The cross mark of the
    failure lines is written x. *)
Definition summary_of (name : string) (result : MergeResult) : list string :=
  match actions result with
  | [] => [name +:+ ": (none)"]
  | _ :: _ =>
      let inserts := filter (fun a => action a = INSERT) (actions result) in
      let replaces := filter (fun a => action a = REPLACE) (actions result) in
      let fails := filter (fun a => action a = FAIL) (actions result) in
      [name +:+ ":";
       "  INSERT:  " +:+ str_nat (length inserts);
       "  REPLACE: " +:+ str_nat (length replaces);
       "  FAIL:    " +:+ str_nat (length fails)]
      ++ match inserts with
         | [] => []
         | _ :: _ =>
             "  Inserts:" ::
             map (fun a =>
                    let version := default "?" (e_version (new_entry a)) in
                    let kv := e_kamiwaza_version (new_entry a) in
                    let kv_str := if falsy kv then ""
                                  else " (kamiwaza: " +:+ default "" kv +:+ ")" in
                    "    + " +:+ RegistryMerge.name a +:+ " v" +:+ version +:+ kv_str) inserts
         end
      ++ match replaces with
         | [] => []
         | _ :: _ =>
             "  Replaces:" ::
             map (fun a =>
                    let new_ver := default "?" (e_version (new_entry a)) in
                    let old_ver :=
                      match replaced_entries a with
                      | old :: _ => default "?" (e_version old)
                      | [] => "?"
                      end in
                    "    ~ " +:+ RegistryMerge.name a +:+ ": " +:+ old_ver +:+ " -> " +:+ new_ver)
                 replaces
         end
      ++ match fails with
         | [] => []
         | _ :: _ =>
             "  Failures:" ::
             map (fun f => "    x " +:+ RegistryMerge.name f +:+ ": " +:+ default "None" (error f)) fails
         end
      ++ [""]
  end.

Definition print_merge_summary (apps_result tools_result : MergeResult) : list string :=
  ["=== Merge Summary ==="]
  ++ summary_of "Apps" apps_result
  ++ summary_of "Tools" tools_result
  ++ match errors apps_result ++ errors tools_result with
     | [] => []
     | all_errors => "Errors:" :: map (fun err => "  - " +:+ err) all_errors
     end.

End RegistryFiles.

(** ** scripts/lib/s3_operations.py

    The AWS CLI is an external program.  Its commands are taken at the
    contract the workflow relies on: [ls] reports whether the object
    exists, [cp] reads it, [put-object] writes it, [rm] deletes it, and
    [sync] mirrors a directory tree to or from a prefix (with [--delete]
    also removing what the source lacks).  A command may fail; a failing
    sync may have transferred some of the files.  Other writers may change
    the store between two commands. *)

Module S3Operations.
Import RegistryMerge Files.

(** The local directories of one run. *)
Inductive local_dir : Type :=
| Working     (* <backup_dir>/remote/<garden_dir>: kept between runs *)
| Backup      (* <backup_dir>/backups/<garden_dir>/<timestamp> *)
| Scratch     (* <work_dir>/remote/<garden_dir> *)
| EmptyRemote (* <work_dir>/empty *)
| Merged      (* <work_dir>/merged/<garden_dir> *)
| Verify.     (* the temporary directory of verify_upload *)

#[global] Instance local_dir_eq_dec : EqDecision local_dir.
Proof. solve_decision. Defined.

Definition local_dir_eqb (a b : local_dir) : bool :=
  match a, b with
  | Working, Working | Backup, Backup | Scratch, Scratch
  | EmptyRemote, EmptyRemote | Merged, Merged | Verify, Verify => true
  | _, _ => false
  end.

Inductive aws_call : Type :=
| S3_ls (path : string)
| S3_cp_stdout (path : string)
| S3api_put_object (bucket key : string) (body : file)
| S3_rm (path : string)
| S3_sync_down (remote_path : string) (target : local_dir)
| S3_sync_up (source : local_dir) (remote_path : string) (delete : bool).

#[global] Instance aws_call_eq_dec : EqDecision aws_call.
Proof. solve_decision. Defined.

Inductive outcome : Type :=
| Succeeds
| Fails (stderr : string) (transferred : string -> bool).

Inductive output : Type :=
| Text (s : string)
| Content (f : file).

Record CompletedProcess : Type := {
  returncode : nat;
  stdout : output;
  stderr : string
}.

(** The remote store, the local directories, the commands issued and the
    lines printed so far, and the local variables of [main] that its
    [except] and [finally] blocks read.  A banner that the scripts print
    with a line break in front is recorded as the banner alone, without
    the empty line before it. *)
Record state : Type := {
  remote : store;
  fs : local_dir -> dir;
  calls : list aws_call;
  printed : list string;
  lock_acquired : bool;
  backup_path : option local_dir;
  had_error : bool
}.

Definition set_remote (r : store) (st : state) : state :=
  {| remote := r; fs := fs st; calls := calls st; printed := printed st;
     lock_acquired := lock_acquired st; backup_path := backup_path st;
     had_error := had_error st |}.

Definition set_dir (d : local_dir) (content : dir) (st : state) : state :=
  {| remote := remote st;
     fs := fun d' => if local_dir_eqb d' d then content else fs st d';
     calls := calls st; printed := printed st;
     lock_acquired := lock_acquired st; backup_path := backup_path st;
     had_error := had_error st |}.

Definition log_call (c : aws_call) (st : state) : state :=
  {| remote := remote st; fs := fs st; calls := calls st ++ [c]; printed := printed st;
     lock_acquired := lock_acquired st; backup_path := backup_path st;
     had_error := had_error st |}.

Definition set_lock_acquired (b : bool) (st : state) : state :=
  {| remote := remote st; fs := fs st; calls := calls st; printed := printed st;
     lock_acquired := b; backup_path := backup_path st; had_error := had_error st |}.

Definition set_backup_path (b : option local_dir) (st : state) : state :=
  {| remote := remote st; fs := fs st; calls := calls st; printed := printed st;
     lock_acquired := lock_acquired st; backup_path := b; had_error := had_error st |}.

Definition set_had_error (b : bool) (st : state) : state :=
  {| remote := remote st; fs := fs st; calls := calls st; printed := printed st;
     lock_acquired := lock_acquired st; backup_path := backup_path st; had_error := b |}.

Definition add_line (line : string) (st : state) : state :=
  {| remote := remote st; fs := fs st; calls := calls st;
     printed := printed st ++ [line];
     lock_acquired := lock_acquired st; backup_path := backup_path st;
     had_error := had_error st |}.

Definition add_lines (lines : list string) (st : state) : state :=
  {| remote := remote st; fs := fs st; calls := calls st;
     printed := printed st ++ lines;
     lock_acquired := lock_acquired st; backup_path := backup_path st;
     had_error := had_error st |}.

(** Computations that read and change the state and may raise. *)
Definition M (A : Type) : Type := state -> state * result A.

#[global] Instance M_ret : MRet M := fun _ a st => (st, Ok a).
#[global] Instance M_bind : MBind M :=
  fun _ _ f m st =>
    match m st with
    | (st', Ok a) => f a st'
    | (st', Raise e) => (st', Raise e)
    end.

Definition raise {A} (e : exn) : M A := fun st => (st, Raise e).
Definition lift {A} (r : result A) : M A := fun st => (st, r).
Definition get {A} (f : state -> A) : M A := fun st => (st, Ok (f st)).
Definition modify (f : state -> state) : M unit := fun st => (f st, Ok tt).
Definition print (line : string) : M unit := modify (add_line line).
Definition print_lines (lines : list string) : M unit := modify (add_lines lines).

(** [sys.exit(code)] *)
Definition sys_exit {A} (code : nat) : M A := raise (SystemExit code).

(** [except Exception] catches everything but [SystemExit]. *)
Definition is_Exception (e : exn) : bool :=
  match e with SystemExit _ => false | _ => true end.
Definition is_RuntimeError (e : exn) : bool :=
  match e with RuntimeError _ => true | _ => false end.
Definition is_ValueError (e : exn) : bool :=
  match e with ValueError _ | JSONDecodeError _ => true | _ => false end.

(** [try: body except <class> as e: handler] *)
Definition try_except {A} (body : M A) (catches : exn -> bool) (handler : exn -> M A)
  : M A :=
  fun st =>
    match body st with
    | (st', Raise e) => if catches e then handler e st' else (st', Raise e)
    | r => r
    end.

(** [try: body finally: cleanup] *)
Definition try_finally {A} (body : M A) (cleanup : M unit) : M A :=
  fun st =>
    match body st with
    | (st', r) =>
        match cleanup st' with
        | (st'', Ok _) => (st'', r)
        | (st'', Raise e) => (st'', Raise e)
        end
    end.

(** A specification of a computation: from a state that satisfies [pre],
    a normal end satisfies [post] and a raised exception [epost]. *)
Definition hoare {A} (pre : state -> Prop) (m : M A)
    (post : state -> A -> Prop) (epost : state -> exn -> Prop) : Prop :=
  forall st, pre st ->
    match m st with
    | (st', Ok a) => post st' a
    | (st', Raise e) => epost st' e
    end.

(** [st'] comes after [st] in a stretch of the run that leaves the local
    variables of [main] alone and only issues commands that satisfy [ok]. *)
Definition extends (ok : aws_call -> Prop) (st st' : state) : Prop :=
  lock_acquired st' = lock_acquired st
  /\ backup_path st' = backup_path st
  /\ had_error st' = had_error st
  /\ exists cs, calls st' = calls st ++ cs /\ Forall ok cs.

Definition framed {A} (ok : aws_call -> Prop) (m : M A) : Prop :=
  forall st, extends ok st (m st).1.

(** An assertion that such a stretch preserves. *)
Definition stable (ok : aws_call -> Prop) (Q : state -> Prop) : Prop :=
  forall st st', extends ok st st' -> Q st -> Q st'.





(** *** The contract of the AWS CLI *)

Definition sync_to_local (r : store) (remote_path : string) (transferred : string -> bool)
    (target : dir) : dir :=
  fun rel =>
    if transferred rel then
      match r (remote_path +:+ rel) with
      | Some f => Some f
      | None => target rel
      end
    else target rel.

Definition sync_to_remote (source : dir) (remote_path : string) (delete : bool)
    (transferred : string -> bool) (r : store) : store :=
  fun path =>
    match strip_prefix remote_path path with
    | Some rel =>
        if transferred rel then
          match source rel with
          | Some f => Some f
          | None => if delete then None else r path
          end
        else r path
    | None => r path
    end.

Definition write_object (path : string) (body : file) (r : store) : store :=
  fun path' => if String.eqb path' path then Some body else r path'.

Definition delete_object (path : string) (r : store) : store :=
  fun path' => if String.eqb path' path then None else r path'.

Definition failed (stderr : string) : CompletedProcess :=
  {| returncode := 1; stdout := Text ""; stderr := stderr |}.
Definition done (out : output) : CompletedProcess :=
  {| returncode := 0; stdout := out; stderr := "" |}.

Definition execute (c : aws_call) (o : outcome) (st : state) : state * CompletedProcess :=
  match c, o with
  | S3_ls path, Succeeds =>
      match remote st path with
      | Some _ => (st, done (Text (basename path)))
      | None => (st, failed "")
      end
  | S3_cp_stdout path, Succeeds =>
      match remote st path with
      | Some f => (st, done (Content f))
      | None => (st, failed "NoSuchKey")
      end
  | S3api_put_object bucket key body, Succeeds =>
      (set_remote (write_object ("s3://" +:+ bucket +:+ "/" +:+ key) body (remote st)) st,
       done (Text ""))
  | S3_rm path, Succeeds =>
      (set_remote (delete_object path (remote st)) st, done (Text ""))
  | S3_sync_down remote_path target, Succeeds =>
      (set_dir target (sync_to_local (remote st) remote_path (fun _ => true) (fs st target)) st,
       done (Text ""))
  | S3_sync_down remote_path target, Fails stderr transferred =>
      (set_dir target (sync_to_local (remote st) remote_path transferred (fs st target)) st,
       failed stderr)
  | S3_sync_up source remote_path delete, Succeeds =>
      (set_remote (sync_to_remote (fs st source) remote_path delete (fun _ => true)
                                  (remote st)) st,
       done (Text ""))
  | S3_sync_up source remote_path delete, Fails stderr transferred =>
      (set_remote (sync_to_remote (fs st source) remote_path delete transferred
                                  (remote st)) st,
       failed stderr)
  | _, Fails stderr _ => (st, failed stderr)
  end.

(** The surroundings of a run: the process environment ([os.getenv]), the
    identity of the process, the listing of a local directory
    ([any(path.iterdir())]), the fate of each command given the commands
    issued before it, and what other writers do to the store before each
    command. *)
Class Environment : Type := {
  getenv : string -> option string;
  hostname : string;
  now : string;
  pid : nat;
  has_entries : dir -> bool;
  oracle : list aws_call -> aws_call -> outcome;
  others : list aws_call -> store -> store
}.

Section Run.
Context {E : Environment}.

(** [x or y] on [os.getenv] results. *)
Definition env_or (a b : option string) : option string :=
  if falsy a then b else a.

(** The endpoint and region arguments do not change what a command does
    to the store and are left out of [aws_call]. *)
Definition run_aws_command (c : aws_call) (check : bool) : M CompletedProcess :=
  fun st =>
    let st := set_remote (others (calls st) (remote st)) st in
    let o := oracle (calls st) c in
    let '(st, result) := execute c o (log_call c st) in
    if check && negb (returncode result =? 0)%nat
    then (st, Raise (RuntimeError "AWS CLI command failed"))
    else (st, Ok result).

Definition s3_path (bucket path : string) : string :=
  "s3://" +:+ bucket +:+ "/" +:+ lstrip_slash path.

Definition lock_s3_path (bucket : string) (garden_dir : option string) : string :=
  let lock_name := default "registry.lock" (getenv "KAMIWAZA_REGISTRY_LOCK_NAME") in
  if falsy garden_dir then s3_path bucket lock_name
  else s3_path bucket ("garden/" +:+ default "" garden_dir +:+ "/" +:+ lock_name).

Definition text_of (out : output) : string :=
  match out with Text s => s | Content _ => "" end.

Definition check_lock_exists (bucket : string) (garden_dir : option string) : M bool :=
  let lock_path := lock_s3_path bucket garden_dir in
  result ← run_aws_command (S3_ls lock_path) false;
  mret ((returncode result =? 0)%nat && contains ".lock" (text_of (stdout result))).

(** [json.loads(result.stdout)], with [{"raw": ...}] for text that is not
    JSON. *)
Definition get_lock_info (bucket : string) (garden_dir : option string)
  : M (option file) :=
  exists_ ← check_lock_exists bucket garden_dir;
  if negb exists_ then mret None
  else
    let lock_path := lock_s3_path bucket garden_dir in
    result ← run_aws_command (S3_cp_stdout lock_path) false;
    if negb (returncode result =? 0)%nat then mret None
    else match stdout result with
         | Content f => mret (Some f)
         | Text s => mret (Some (Blob s))
         end.

(** The truth value of what [get_lock_info] returns. *)
Definition truthy (info : option file) : bool :=
  match info with
  | None => false
  | Some (JsonArray []) => false
  | Some (JsonOther b) => b
  | Some _ => true
  end.

Definition acquire_lock (bucket : string) (garden_dir : option string)
    (owner : option string) : M bool :=
  existing_lock ← get_lock_info bucket garden_dir;
  if truthy existing_lock then
    raise (RuntimeError ("Lock already exists in bucket '" +:+ bucket +:+ "'."))
  else
    let owner :=
      match owner with
      | Some o => o
      | None => default "manual" (env_or (getenv "CI_JOB_ID") (getenv "GITHUB_RUN_ID"))
      end in
    let lock_content := JsonLock owner hostname now pid in
    let lock_path := lock_s3_path bucket garden_dir in
    let lock_key := replace ("s3://" +:+ bucket +:+ "/") "" lock_path in
    result ← run_aws_command (S3api_put_object bucket lock_key lock_content) false;
    if negb (returncode result =? 0)%nat then
      raise (RuntimeError ("Failed to create lock: " +:+ stderr result))
    else
      print ("Lock acquired: " +:+ lock_path);;
      mret true.

Definition release_lock (bucket : string) (garden_dir : option string) : M bool :=
  exists_ ← check_lock_exists bucket garden_dir;
  if negb exists_ then
    print "No lock to release";; mret false
  else
    let lock_path := lock_s3_path bucket garden_dir in
    result ← run_aws_command (S3_rm lock_path) false;
    if (returncode result =? 0)%nat then
      print ("Lock released: " +:+ lock_path);; mret true
    else
      print ("Warning: Failed to release lock: " +:+ stderr result);; mret false.

(** [local_path] names the directory that receives the download; with
    [create_backup] the timestamped backup directory is created (empty:
    the time stamp is new) and receives a copy. *)
Definition download_registry (bucket garden_dir : string) (local_path : local_dir)
    (create_backup : bool) : M (local_dir * option local_dir) :=
  let remote_path := s3_path bucket ("garden/" +:+ garden_dir +:+ "/") in
  let working_path := local_path in
  print ("Downloading registry from " +:+ remote_path +:+ "...");;
  result ← run_aws_command (S3_sync_down remote_path working_path) false;
  (if negb (returncode result =? 0)%nat then
     if contains "NoSuchKey" (stderr result) || blank (stderr result)
     then print "Remote registry is empty (first publish)"
     else raise (RuntimeError ("Failed to download registry: " +:+ stderr result))
   else mret tt);;
  if create_backup then
    downloaded ← get (fun st => fs st working_path);
    modify (set_dir Backup empty_dir);;
    (if has_entries downloaded then
       modify (set_dir Backup downloaded);;
       print "Backup created"
     else mret tt);;
    mret (working_path, Some Backup)
  else mret (working_path, None).

Definition upload_registry (bucket garden_dir : string) (local_path : local_dir)
    (delete : bool) : M bool :=
  let remote_path := s3_path bucket ("garden/" +:+ garden_dir +:+ "/") in
  print ("Uploading registry to " +:+ remote_path +:+ "...");;
  run_aws_command (S3_sync_up local_path remote_path delete) true;;
  print ("Registry uploaded to " +:+ remote_path);;
  mret true.

(** A backup path that is set names a directory that exists. *)
Definition restore_backup (bucket garden_dir : string) (backup_path : local_dir) : M bool :=
  print "Restoring backup...";;
  upload_registry bucket garden_dir backup_path true.

(** [filecmp.cmp(a, b, shallow=False)] is equality of contents. *)
Fixpoint compare_files (local_path verify_path : dir) (filenames : list string)
  : M bool :=
  match filenames with
  | [] => print "Verification passed";; mret true
  | filename :: rest =>
      match local_path filename, verify_path filename with
      | Some local_file, Some remote_file =>
          if bool_decide (local_file = remote_file)
          then compare_files local_path verify_path rest
          else print ("Verification failed: " +:+ filename +:+ " mismatch");; mret false
      | None, None => compare_files local_path verify_path rest
      | _, _ => print ("Verification failed: " +:+ filename +:+ " missing");; mret false
      end
  end.

Definition verify_upload (bucket garden_dir : string) (local_path : local_dir) : M bool :=
  modify (set_dir Verify empty_dir);;
  let remote_path := s3_path bucket ("garden/" +:+ garden_dir +:+ "/") in
  print "Verifying upload...";;
  run_aws_command (S3_sync_down remote_path Verify) true;;
  local_files ← get (fun st => fs st local_path);
  remote_files ← get (fun st => fs st Verify);
  compare_files local_files remote_files ["apps.json"; "tools.json"].

Inductive Stage : Type := dev | stage | prod.

(** [stage.upper()] *)
Definition stage_upper (s : Stage) : string :=
  match s with dev => "DEV" | stage => "STAGE" | prod => "PROD" end.

Definition configure_aws_profile (s : Stage) : result string :=
  let stage_profile := getenv ("AWS_PROFILE_" +:+ stage_upper s) in
  if falsy stage_profile
  then Raise (ValueError ("AWS_PROFILE_" +:+ stage_upper s +:+ " is not set."))
  else Ok (default "" stage_profile).

Definition get_bucket_for_stage (s : Stage) : result string :=
  _ ← configure_aws_profile s;
  let bucket := env_or (getenv ("KAMIWAZA_REGISTRY_BUCKET_" +:+ stage_upper s))
                       (getenv "KAMIWAZA_REGISTRY_BUCKET") in
  if falsy bucket
  then Raise (ValueError "No bucket configured for stage")
  else Ok (default "" bucket).

End Run.
End S3Operations.

(** ** scripts/registry-upsert.py *)

Module RegistryUpsert.
Import VersionCompare RegistryMerge Files RegistryFiles S3Operations.

Inductive RepoVersion : Type := v1 | v2.

Definition repo_version_str (v : RepoVersion) : string :=
  match v with v1 => "v1" | v2 => "v2" end.

Definition get_garden_dir (repo_version : string) : string :=
  if decide (repo_version = "v1") then "default" else repo_version.

(** The parsed command line; [local_registry] is the node found at
    <local-registry>/garden/<garden_dir>. *)
Record Args : Type := {
  arg_stage : Stage;
  arg_repo_version : RepoVersion;
  arg_local_registry : fs_node;
  arg_dry_run : bool;
  arg_force_name : option string
}.

Section Run.
Context {P : Packaging} {E : Environment}.

(** The files of the local garden directory, as [load_registry_json]
    finds them. *)
Definition local_files (local_registry : fs_node) : dir :=
  match local_registry with
  | Directory d => d
  | _ => empty_dir
  end.

(** [merge_registries] on the directories of the run; the merged catalog
    goes to <work_dir>/merged/<garden_dir>. *)
Definition run_merge (local_registry : fs_node) (remote_path : local_dir)
    (repo_version : string) (force_entries : option (gset string))
  : M (bool * MergeResult * MergeResult) :=
  remote_files ← get (fun st => fs st remote_path);
  '(success, apps_result, tools_result, written) ←
     lift (merge_registries (local_files local_registry) remote_files
                            repo_version force_entries);
  match written with
  | Some output => modify (set_dir Merged output)
  | None => mret tt
  end;;
  mret (success, apps_result, tools_result).

(** The [if dry_run:] block, which ends in [sys.exit]. *)
Definition dry_run_block (bucket garden_dir repo_version : string)
    (local_registry : fs_node) (force_entries : option (gset string)) : M unit :=
  print "--- [DRY RUN] Downloading Remote Registry ---";;
  remote_path ←
    try_except
      (r ← download_registry bucket garden_dir Scratch false;
       mret r.1)
      is_Exception
      (fun e =>
         print "Could not download remote registry";;
         print "(Remote may be empty - this would be a first publish)";;
         modify (set_dir EmptyRemote empty_dir);;
         mret EmptyRemote);
  print "--- [DRY RUN] Merge Simulation ---";;
  '(success, apps_result, tools_result) ←
     run_merge local_registry remote_path repo_version force_entries;
  print_lines (print_merge_summary apps_result tools_result);;
  (if negb success then
     print "[DRY RUN] Merge would FAIL due to version conflicts";;
     print "Use FORCE=1 with TYPE and NAME to bypass version checks for a specific extension";;
     sys_exit 1
   else print "[DRY RUN] Merge would SUCCEED");;
  print "[DRY RUN] Would proceed with:";;
  print "  - Acquire lock";;
  print "  - Create timestamped backup";;
  print "  - Push merged registry";;
  print "  - Verify upload";;
  print "  - Release lock";;
  sys_exit 0.

(** The body of the [try] statement of [main]. *)
Definition try_block (bucket garden_dir repo_version : string)
    (local_registry : fs_node) (dry_run : bool) (force_entries : option (gset string))
  : M unit :=
  print "--- Step 1: Validate Local Registry ---";;
  let '(is_valid, errors) := validate_local_registry local_registry repo_version in
  (if negb is_valid then
     print "Local registry validation failed:";;
     print_lines (map (fun err => "  - " +:+ err) errors);;
     sys_exit 1
   else mret tt);;
  print "Local registry is valid";;
  (if dry_run
   then dry_run_block bucket garden_dir repo_version local_registry force_entries
   else mret tt);;
  print "--- Step 2: Acquire Lock ---";;
  try_except
    (acquire_lock bucket (Some garden_dir) None;;
     modify (set_lock_acquired true))
    is_RuntimeError
    (fun e =>
       print "Failed to acquire lock";;
       print "--- Lock Diagnostics ---";;
       sys_exit 1);;
  print "--- Step 3: Backup Remote State ---";;
  '(remote_path, backup) ← download_registry bucket garden_dir Working true;
  modify (set_backup_path backup);;
  (if backup is Some _ then print "Backup created" else mret tt);;
  print "--- Step 4: Merge Registries ---";;
  '(success, apps_result, tools_result) ←
     run_merge local_registry remote_path repo_version force_entries;
  print_lines (print_merge_summary apps_result tools_result);;
  (if negb success then
     print "Merge failed! Rolling back...";;
     raise (RuntimeError "Merge failed due to version conflicts")
   else mret tt);;
  print "--- Step 5: Push Merged Registry ---";;
  upload_registry bucket garden_dir Merged true;;
  print "--- Step 6: Verify Upload ---";;
  verified ← verify_upload bucket garden_dir Merged;
  (if negb verified then
     print "Verification failed! Rolling back...";;
     raise (RuntimeError "Upload verification failed")
   else mret tt);;
  print "--- Step 7: Release Lock ---";;
  release_lock bucket (Some garden_dir);;
  modify (set_lock_acquired false);;
  print "=== Upsert Complete ===".

(** [except Exception as e:] *)
Definition except_block (bucket garden_dir : string) (e : exn) : M unit :=
  modify (set_had_error true);;
  print "!!! Error";;
  backup ← get backup_path;
  match backup with
  | Some backup_path =>
      print "--- Restoring Backup ---";;
      try_except
        (restore_backup bucket garden_dir backup_path;;
         print "Backup restored successfully")
        is_Exception
        (fun restore_err => print "Warning: Failed to restore backup")
  | None => mret tt
  end.

(** [finally:]; removing the working directory empties its directories. *)
Definition finally_block (bucket garden_dir : string) : M unit :=
  locked ← get lock_acquired;
  (if locked : bool then
     print "--- Step 7: Release Lock (cleanup) ---";;
     release_lock bucket (Some garden_dir);;
     mret tt
   else mret tt);;
  modify (set_dir Scratch empty_dir);;
  modify (set_dir EmptyRemote empty_dir);;
  modify (set_dir Merged empty_dir);;
  errored ← get had_error;
  if errored : bool then sys_exit 1 else mret tt.

Definition main (args : Args) : M unit :=
  let repo_version := repo_version_str (arg_repo_version args) in
  let garden_dir := get_garden_dir repo_version in
  let force_name := arg_force_name args in
  let force_entries :=
    if falsy force_name then None else Some {[ default "" force_name ]} in
  print "=== Registry Upsert ===";;
  bucket ←
    try_except (lift (get_bucket_for_stage (arg_stage args)))
      is_ValueError
      (fun e => print "Error: no bucket";; sys_exit 1);
  print ("Bucket: " +:+ bucket);;
  (* work_dir = mkdtemp(): new, empty directories *)
  modify (set_dir Scratch empty_dir);;
  modify (set_dir EmptyRemote empty_dir);;
  modify (set_dir Merged empty_dir);;
  modify (set_backup_path None);;
  modify (set_lock_acquired false);;
  modify (set_had_error false);;
  try_finally
    (try_except
       (try_block bucket garden_dir repo_version (arg_local_registry args)
                  (arg_dry_run args) force_entries)
       is_Exception
       (except_block bucket garden_dir))
    (finally_block bucket garden_dir).

(** The exit status of the process. *)
Definition exit_code (r : result unit) : nat :=
  match r with
  | Ok _ => 0
  | Raise (SystemExit code) => code
  | Raise _ => 1
  end.

End Run.
End RegistryUpsert.


(** ** What the workflow statements refer to *)

Module WorkflowSpec.
Import VersionCompare RegistryMerge Files RegistryFiles S3Operations RegistryUpsert.

Section Run.
Context {P : Packaging} {E : Environment}.

(** The remote prefix that the workflow downloads from and uploads to. *)
Definition catalog_prefix (bucket garden_dir : string) : string :=
  s3_path bucket ("garden/" +:+ garden_dir +:+ "/").

Definition lock_name : string :=
  default "registry.lock" (getenv "KAMIWAZA_REGISTRY_LOCK_NAME").

Definition garden_dir_for (args : Args) : string :=
  get_garden_dir (repo_version_str (arg_repo_version args)).

Definition force_entries_for (args : Args) : option (gset string) :=
  if falsy (arg_force_name args) then None
  else Some {[ default "" (arg_force_name args) ]}.

(** The commands of the upload step and of the restoration. *)
Definition upload_call (bucket garden_dir : string) : aws_call :=
  S3_sync_up Merged (catalog_prefix bucket garden_dir) true.

Definition not_upload (bucket garden_dir : string) (c : aws_call) : Prop :=
  c <> upload_call bucket garden_dir.

(** The commands that come before the upload: not the upload itself, and
    not a removal of the lock. *)
Definition preparatory (bucket garden_dir : string) (c : aws_call) : Prop :=
  c <> upload_call bucket garden_dir
  /\ c <> S3_rm (lock_s3_path bucket (Some garden_dir)).

(** Where a live run stands: the values of the local variables of [main],
    no failure handled yet and, as long as no backup exists, no upload
    issued. *)
Definition standing (bucket garden_dir : string) (locked : bool)
    (backup : option local_dir) (st : state) : Prop :=
  lock_acquired st = locked /\ backup_path st = backup /\ had_error st = false
  /\ (backup = None -> upload_call bucket garden_dir ∉ calls st).

(** What holds when the [try] block of a live run is left by an exception. *)
Definition left_by (bucket garden_dir : string) (st : state) (e : exn) : Prop :=
  had_error st = false
  /\ (forall b, backup_path st = Some b ->
        b = Backup /\ (is_Exception e = true -> lock_acquired st = true))
  /\ (upload_call bucket garden_dir ∈ calls st -> backup_path st = Some Backup).

(** A download error that [download_registry] takes for an empty remote. *)
Definition benign (stderr : string) : bool :=
  contains "NoSuchKey" stderr || blank stderr.

(** The directory that a dry run merges against: what its download
    brought into the empty scratch directory, or the empty directory when
    the download raised. *)
Definition dry_run_view (st0 : state) (bucket garden_dir : string) : dir :=
  let r := others [] (remote st0) in
  let rp := catalog_prefix bucket garden_dir in
  match oracle [] (S3_sync_down rp Scratch) with
  | Succeeds => sync_to_local r rp (fun _ => true) empty_dir
  | Fails stderr transferred =>
      if benign stderr then sync_to_local r rp transferred empty_dir else empty_dir
  end.

(** The state in which a process starts: nothing issued or printed yet. *)
Definition fresh (st : state) : Prop :=
  calls st = [] /\ printed st = [] /\ lock_acquired st = false
  /\ backup_path st = None /\ had_error st = false.

(** The lines were printed, one after the other. *)
Definition printed_block (lines : list string) (st : state) : Prop :=
  exists pre post, printed st = pre ++ lines ++ post.

(** No other writer touches the store. *)
Definition quiet : Prop := forall h s, others h s = s.

(** No other writer touches the store once command [c] has been issued. *)
Definition quiet_after (c : aws_call) : Prop := forall h s, c ∈ h -> others h s = s.


(** The merged output directory cannot hold a file of the lock's name: the
    name is neither a catalog file nor under the images directory. *)
Definition lock_outside_catalog (repo_version : string) : bool :=
  negb (String.eqb lock_name "apps.json")
  && negb (String.eqb lock_name "tools.json")
  && negb (bool_decide (is_Some
        (strip_prefix
           ((if decide (repo_version = "v2") then "images" else "app-garden-images")
            +:+ "/") lock_name))).

End Run.






End WorkflowSpec.


(** ** A sample run: one extension published to the dev registry *)

Module WorkflowSamples.
Import RegistryMerge Files S3Operations RegistryUpsert Samples.

Definition sample_getenv (key : string) : option string :=
  if String.eqb key "AWS_PROFILE_DEV" then Some "registry-dev"
  else if String.eqb key "KAMIWAZA_REGISTRY_BUCKET" then Some "registry"
  else None.

(** The directories of the sample runs hold apps.json or nothing. *)
Definition sample_has_entries (d : dir) : bool := bool_decide (is_Some (d "apps.json")).

(** Every command succeeds and nobody else writes. *)
#[global] Instance calm : Environment := {|
  getenv := sample_getenv; hostname := "builder"; now := "2024-01-01T00:00:00+00:00";
  pid := 4242;
  has_entries := sample_has_entries;
  oracle := fun _ _ => Succeeds;
  others := fun _ s => s
|}.



Definition one_file (filename : string) (f : file) : dir :=
  fun rel => if String.eqb rel filename then Some f else None.

(** The remote registry holds app 1.0.0. *)
Definition sample_remote : store :=
  fun path =>
    if String.eqb path "s3://registry/garden/v2/apps.json"
    then Some (JsonArray [v2_entry "app" "1.0.0" ">=0.8.0"])
    else None.

Definition sample_state : state :=
  {| remote := sample_remote; fs := fun _ => empty_dir; calls := []; printed := [];
     lock_acquired := false; backup_path := None; had_error := false |}.

(** The local registry offers app 1.1.0 (an upgrade) or app 1.0.0 again
    (a conflict). *)
Definition upgrade_registry : fs_node :=
  Directory (one_file "apps.json" (JsonArray [v2_entry "app" "1.1.0" ">=0.8.0"])).
Definition conflict_registry : fs_node :=
  Directory (one_file "apps.json" (JsonArray [v2_entry "app" "1.0.0" ">=0.8.0"])).

Definition sample_args (local_registry : fs_node) (dry_run : bool) : Args :=
  {| arg_stage := dev; arg_repo_version := v2; arg_local_registry := local_registry;
     arg_dry_run := dry_run; arg_force_name := None |}.

End WorkflowSamples.

(** ** scripts/lib/s3_operations.py: the common command-line arguments *)

Module S3Arguments.
Import RegistryMerge S3Operations.

Section Run.
Context {E : Environment}.

Definition get_s3_endpoint : option string :=
  let endpoint := getenv "KAMIWAZA_REGISTRY_ENDPOINT" in
  if falsy endpoint then
    let account_id := getenv "KAMIWAZA_REGISTRY_ACCOUNT_ID" in
    if falsy account_id then endpoint
    else Some ("https://" +:+ default "" account_id +:+ ".r2.cloudflarestorage.com")
  else endpoint.

Definition get_aws_cli_args : list string :=
  let args := [] in
  let endpoint := get_s3_endpoint in
  let args :=
    if falsy endpoint then args else args ++ ["--endpoint-url"; default "" endpoint] in
  let region := getenv "KAMIWAZA_REGISTRY_REGION" in
  if falsy region then args else args ++ ["--region"; default "" region].

End Run.
End S3Arguments.

(** ** What the comparison and the validation establish *)

Module CatalogSpec.
Import VersionCompare RegistryMerge.

Section WithPackaging.
Context {P : Packaging}.

(** What a relationship says about the two specifier sets on the sampled
    versions. *)
Definition relates (tvs : list Version) (s1 s2 : SpecifierSet)
    (r : ConstraintRelationship) : Prop :=
  let both v := SpecifierSet_contains s1 v = true /\ SpecifierSet_contains s2 v = true in
  let only1 v := SpecifierSet_contains s1 v = true /\ SpecifierSet_contains s2 v = false in
  let only2 v := SpecifierSet_contains s2 v = true /\ SpecifierSet_contains s1 v = false in
  match r with
  | SAME =>
      forall v, In v tvs -> SpecifierSet_contains s1 v = SpecifierSet_contains s2 v
  | DISJOINT =>
      (forall v, In v tvs -> ~ both v) /\ exists v, In v tvs /\ (only1 v \/ only2 v)
  | SUPERSET =>
      (forall v, In v tvs -> ~ only2 v)
      /\ (exists v, In v tvs /\ both v) /\ (exists v, In v tvs /\ only1 v)
  | SUBSET =>
      (forall v, In v tvs -> ~ only1 v)
      /\ (exists v, In v tvs /\ both v) /\ (exists v, In v tvs /\ only2 v)
  | PARTIAL =>
      (exists v, In v tvs /\ both v) /\ (exists v, In v tvs /\ only1 v)
      /\ (exists v, In v tvs /\ only2 v)
  end.

(** An entry that the upsert decisions can work on. *)
Definition well_formed (garden_version : string) (e : entry) : Prop :=
  is_Some (e_name e)
  /\ (exists v, e_version e = Some v /\ v <> "" /\ is_ok (parse_version v))
  /\ (garden_version = "v2" ->
      exists c, e_kamiwaza_version e = Some c /\ c <> "" /\ is_ok (parse_constraint c)).

End WithPackaging.
End CatalogSpec.

(** ** What a run that went through leaves behind *)

Module PublishSpec.
Import VersionCompare RegistryMerge Files RegistryFiles S3Operations RegistryUpsert WorkflowSpec.

Section Run.
Context {E : Environment}.
Variables (bucket garden_dir : string).

(** [describes working output]: what the output directory of the run has
    to hold, given the downloaded registry. *)
Variable describes : dir -> dir -> Prop.

(** The output directory holds what it has to. *)
Definition output_written (st : state) : Prop :=
  describes (fs st Working) (fs st Merged).

(** The upload has been issued and the store holds the output, everywhere
    under the prefix, or everywhere but at the lock. *)
Definition output_uploaded (st : state) : Prop :=
  upload_call bucket garden_dir ∈ calls st
  /\ exists output,
       describes (fs st Working) output
       /\ forall rel, remote st (catalog_prefix bucket garden_dir +:+ rel) = output rel.

Definition output_published (st : state) : Prop :=
  upload_call bucket garden_dir ∈ calls st
  /\ exists output,
       describes (fs st Working) output
       /\ forall rel,
            catalog_prefix bucket garden_dir +:+ rel <> lock_s3_path bucket (Some garden_dir) ->
            remote st (catalog_prefix bucket garden_dir +:+ rel) = output rel.

End Run.

(** The merge of the local registry with the downloaded one succeeds and
    writes [output]. *)
Definition merge_of {P : Packaging} (local_registry : fs_node) (repo_version : string)
    (force_entries : option (gset string)) (working output : dir) : Prop :=
  exists apps tools,
    merge_registries (local_files local_registry) working repo_version force_entries
    = Ok (true, apps, tools, Some output).

End PublishSpec.

(** ** scripts/registry-remove.py

    The answer that [confirm_removal] reads from the terminal is an input
    of the run: [confirmed] tells whether the user typed yes.  The output
    directory <work_dir>/modified/<garden_dir> is a new directory of the
    run, as the merged directory of registry-upsert is, and is named by
    [Merged].  Of the printed lines the model keeps the headings and the
    outcomes; the lines of [show_removal_diff] leave out the JSON text of
    the entries. *)

Module RegistryRemove.
Import RegistryMerge Files RegistryFiles S3Operations.

Definition get_garden_dir (repo_version : string) : string :=
  if decide (repo_version = "v1") then "default" else repo_version.

Definition find_entries_to_remove (entries : list entry) (name : string)
  : list entry * list entry :=
  fold_left
    (fun acc entry =>
       let '(matching, remaining) := acc in
       if decide (e_name entry = Some name)
       then (matching ++ [entry], remaining)
       else (matching, remaining ++ [entry]))
    entries ([], []).

Definition show_removal_diff (matching remaining : list entry) (registry_type : string)
    (total_before : nat) : list string :=
  ["  " +:+ registry_type +:+ ".json:";
   "    Before: " +:+ str_nat total_before +:+ " entries";
   "    Removing: " +:+ str_nat (length matching) +:+ " entry(ies)";
   "    After: " +:+ str_nat (length remaining) +:+ " entries"]
  ++ map (fun entry =>
            let version := default "?" (e_version entry) in
            let kv := e_kamiwaza_version entry in
            let kv_str :=
              if falsy kv then "" else ", kamiwaza_version: " +:+ default "" kv in
            "    - " +:+ default "?" (e_name entry) +:+ " v" +:+ version +:+ kv_str)
         matching.

(** The lines printed when no entry has the name. *)
Definition available_names (apps_entries tools_entries : list entry) : list string :=
  let line entry :=
    "  - " +:+ default "?" (e_name entry) +:+ " v" +:+ default "?" (e_version entry) in
  ["Available names in apps.json:"] ++ map line apps_entries
  ++ ["Available names in tools.json:"] ++ map line tools_entries.

(** [shutil.copytree(src / sub, dst / sub, dirs_exist_ok=True)] *)
Definition copytree (src : dir) (sub : string) (dst : dir) : dir :=
  fun rel =>
    match strip_prefix (sub +:+ "/") rel with
    | Some _ => match src rel with
                | Some f => Some f
                | None => dst rel
                end
    | None => dst rel
    end.

(** The parsed command line. *)
Record Args : Type := {
  arg_stage : Stage;
  arg_repo_version : RegistryUpsert.RepoVersion;
  arg_name : string;
  arg_dry_run : bool
}.

Section Run.
Context {E : Environment}.

(** The [if dry_run:] block, which ends in [sys.exit]. *)
Definition dry_run_block (bucket garden_dir name : string) : M unit :=
  print "--- [DRY RUN] Downloading Remote Registry ---";;
  remote_path ←
    try_except
      (r ← download_registry bucket garden_dir Scratch false;
       print "Remote downloaded";;
       mret r.1)
      is_Exception
      (fun e =>
         print "Could not download remote registry";;
         print "(Remote may be empty)";;
         sys_exit 1);
  remote_files ← get (fun st => fs st remote_path);
  apps_entries ← lift (load_registry_json remote_files "apps.json");
  tools_entries ← lift (load_registry_json remote_files "tools.json");
  let '(apps_matching, apps_remaining) := find_entries_to_remove apps_entries name in
  let '(tools_matching, tools_remaining) := find_entries_to_remove tools_entries name in
  let total_matching := length apps_matching + length tools_matching in
  (if (total_matching =? 0)%nat then
     print "No entries found";;
     print_lines (available_names apps_entries tools_entries);;
     sys_exit 1
   else mret tt);;
  print "--- [DRY RUN] Removal Preview ---";;
  print "Found matching entries";;
  (match apps_matching with
   | _ :: _ =>
       print_lines (show_removal_diff apps_matching apps_remaining "apps"
                      (length apps_entries))
   | [] => mret tt
   end);;
  (match tools_matching with
   | _ :: _ =>
       print_lines (show_removal_diff tools_matching tools_remaining "tools"
                      (length tools_entries))
   | [] => mret tt
   end);;
  print "[DRY RUN] Would remove";;
  print "[DRY RUN] No changes made";;
  sys_exit 0.

(** The statements of the [try] block after the [if dry_run:] block. *)
Definition live_run (bucket garden_dir repo_version name : string) (confirmed : bool)
  : M unit :=
  print "--- Step 1: Acquire Lock ---";;
  try_except
    (acquire_lock bucket (Some garden_dir) None;;
     modify (set_lock_acquired true))
    is_RuntimeError
    (fun e =>
       print "Failed to acquire lock";;
       print "--- Lock Diagnostics ---";;
       sys_exit 1);;
  print "--- Step 2: Backup Remote State ---";;
  '(remote_path, backup) ← download_registry bucket garden_dir Working true;
  modify (set_backup_path backup);;
  print "Remote downloaded";;
  (if backup is Some _ then print "Backup created" else mret tt);;
  print "--- Step 3: Find Entries ---";;
  remote_files ← get (fun st => fs st remote_path);
  apps_entries ← lift (load_registry_json remote_files "apps.json");
  tools_entries ← lift (load_registry_json remote_files "tools.json");
  let '(apps_matching, apps_remaining) := find_entries_to_remove apps_entries name in
  let '(tools_matching, tools_remaining) := find_entries_to_remove tools_entries name in
  let total_matching := length apps_matching + length tools_matching in
  (if (total_matching =? 0)%nat then
     print "No entries found";;
     print_lines (available_names apps_entries tools_entries);;
     print "Releasing lock and exiting.";;
     sys_exit 1
   else mret tt);;
  print "--- Step 4: Removal Preview ---";;
  print "Found matching entries";;
  (match apps_matching with
   | _ :: _ =>
       print_lines (show_removal_diff apps_matching apps_remaining "apps"
                      (length apps_entries))
   | [] => mret tt
   end);;
  (match tools_matching with
   | _ :: _ =>
       print_lines (show_removal_diff tools_matching tools_remaining "tools"
                      (length tools_entries))
   | [] => mret tt
   end);;
  print "--- Step 5: Confirm Removal ---";;
  (if negb confirmed then
     print "Removal cancelled by user.";;
     sys_exit 0
   else mret tt);;
  print "--- Step 6: Build Modified Registry ---";;
  (match apps_matching with
   | _ :: _ =>
       modify (fun st =>
                 set_dir Merged (save_registry_json (fs st Merged) "apps.json" apps_remaining)
                         st);;
       print "  apps.json: entries removed"
   | [] =>
       modify (fun st =>
                 set_dir Merged (save_registry_json (fs st Merged) "apps.json" apps_entries)
                         st)
   end);;
  (match tools_matching with
   | _ :: _ =>
       modify (fun st =>
                 set_dir Merged (save_registry_json (fs st Merged) "tools.json" tools_remaining)
                         st);;
       print "  tools.json: entries removed"
   | [] =>
       modify (fun st =>
                 set_dir Merged (save_registry_json (fs st Merged) "tools.json" tools_entries)
                         st)
   end);;
  let images_dir :=
    if decide (repo_version = "v2") then "images" else "app-garden-images" in
  modify (fun st => set_dir Merged (copytree (fs st remote_path) images_dir (fs st Merged)) st);;
  print "--- Step 7: Push Modified Registry ---";;
  upload_registry bucket garden_dir Merged true;;
  print "--- Step 8: Verify Upload ---";;
  verified ← verify_upload bucket garden_dir Merged;
  (if negb verified then
     print "Verification failed! Rolling back...";;
     raise (RuntimeError "Upload verification failed")
   else mret tt);;
  print "--- Step 9: Release Lock ---";;
  release_lock bucket (Some garden_dir);;
  modify (set_lock_acquired false);;
  print "=== Removal Complete ===".

(** The body of the [try] statement of [main]. *)
Definition try_block (bucket garden_dir repo_version name : string)
    (dry_run confirmed : bool) : M unit :=
  (if dry_run then dry_run_block bucket garden_dir name else mret tt);;
  live_run bucket garden_dir repo_version name confirmed.

(** [except SystemExit: raise] and [except Exception as e:] *)
Definition except_block (bucket garden_dir : string) (e : exn) : M unit :=
  modify (set_had_error true);;
  print "!!! Error";;
  backup ← get backup_path;
  match backup with
  | Some backup_path =>
      print "--- Restoring Backup ---";;
      try_except
        (restore_backup bucket garden_dir backup_path;;
         print "Backup restored successfully")
        is_Exception
        (fun restore_err => print "Warning: Failed to restore backup")
  | None => mret tt
  end.

(** [finally:]; removing the working directory empties its directories. *)
Definition finally_block (bucket garden_dir : string) : M unit :=
  locked ← get lock_acquired;
  (if locked : bool then
     print "--- Release Lock (cleanup) ---";;
     release_lock bucket (Some garden_dir);;
     mret tt
   else mret tt);;
  modify (set_dir Scratch empty_dir);;
  modify (set_dir Merged empty_dir);;
  errored ← get had_error;
  if errored : bool then sys_exit 1 else mret tt.

Definition main (args : Args) (confirmed : bool) : M unit :=
  let repo_version := RegistryUpsert.repo_version_str (arg_repo_version args) in
  let garden_dir := get_garden_dir repo_version in
  let name := arg_name args in
  print "=== Registry Remove ===";;
  bucket ←
    try_except (lift (get_bucket_for_stage (arg_stage args)))
      is_ValueError
      (fun e => print "Error: no bucket";; sys_exit 1);
  print ("Bucket: " +:+ bucket);;
  (* work_dir = mkdtemp(): new, empty directories *)
  modify (set_dir Scratch empty_dir);;
  modify (set_dir Merged empty_dir);;
  modify (set_backup_path None);;
  modify (set_lock_acquired false);;
  modify (set_had_error false);;
  try_finally
    (try_except
       (try_block bucket garden_dir repo_version name (arg_dry_run args) confirmed)
       is_Exception
       (except_block bucket garden_dir))
    (finally_block bucket garden_dir).

End Run.
End RegistryRemove.

(** ** What a removal leaves behind *)

Module RemoveSpec.
Import RegistryMerge Files RegistryFiles S3Operations.

(** The entries of the name, and the others. *)
Definition named (name : string) (entries : list entry) : list entry :=
  filter (fun e => e_name e = Some name) entries.

Definition without (name : string) (entries : list entry) : list entry :=
  filter (fun e => e_name e <> Some name) entries.

(** The catalog that a removal builds from the downloaded one: the two
    lists without the entries of the name, the image files, nothing else. *)
Definition modified_catalog (repo_version name : string) (downloaded : dir)
    (apps tools : list entry) : dir :=
  fun rel =>
    if String.eqb rel "apps.json" then Some (JsonArray (without name apps))
    else if String.eqb rel "tools.json" then Some (JsonArray (without name tools))
    else match strip_prefix
                 ((if decide (repo_version = "v2") then "images" else "app-garden-images")
                  +:+ "/") rel with
         | Some _ => downloaded rel
         | None => None
         end.

(** [output] is the modified catalog of the downloaded registry, which
    has an entry of the name. *)
Definition removal_of (repo_version name : string) (working output : dir) : Prop :=
  exists apps tools,
    load_registry_json working "apps.json" = Ok apps
    /\ load_registry_json working "tools.json" = Ok tools
    /\ (exists e, e ∈ apps ++ tools /\ e_name e = Some name)
    /\ forall rel, output rel = modified_catalog repo_version name working apps tools rel.

(** A sync that uploads the output directory of the run. *)
Definition uploads_output (c : aws_call) : bool :=
  match c with S3_sync_up Merged _ _ => true | _ => false end.

Definition garden_dir_for (args : RegistryRemove.Args) : string :=
  RegistryRemove.get_garden_dir
    (RegistryUpsert.repo_version_str (RegistryRemove.arg_repo_version args)).

End RemoveSpec.

(** ** A sample removal: the app of the sample registry *)

Module RemoveSamples.
Import S3Operations.

Definition removal_args (name : string) (dry_run : bool) : RegistryRemove.Args :=
  {| RegistryRemove.arg_stage := dev;
     RegistryRemove.arg_repo_version := RegistryUpsert.v2;
     RegistryRemove.arg_name := name;
     RegistryRemove.arg_dry_run := dry_run |}.

End RemoveSamples.

(** * Properties *)

Import VersionCompare RegistryMerge UpsertSpec.
Import Files RegistryFiles S3Operations RegistryUpsert WorkflowSpec.

Lemma forallb_pointwise {A} (f g : A -> bool) (l : list A) :
  (forall x, f x = g x) -> forallb f l = forallb g l.
Proof. intros E. induction l as [|x l IH]; cbn; [reflexivity|]. rewrite E, IH. reflexivity. Qed.

Lemma existsb_pointwise {A} (f g : A -> bool) (l : list A) :
  (forall x, f x = g x) -> existsb f l = existsb g l.
Proof. intros E. induction l as [|x l IH]; cbn; [reflexivity|]. rewrite E, IH. reflexivity. Qed.

Section VersionProperties.
Context {P : Packaging}.

Lemma constraints_equal_sym (c1 c2 : string) :
  is_ok (parse_constraint c1) -> is_ok (parse_constraint c2) ->
  constraints_equal c1 c2 = constraints_equal c2 c1.
Proof.
  intros [s1 H1] [s2 H2]. unfold constraints_equal. rewrite H1, H2. cbn.
  destruct get_test_versions as [tvs|e]; cbn; [|reflexivity].
  f_equal. apply forallb_pointwise. intros v.
  destruct (SpecifierSet_contains s1 v), (SpecifierSet_contains s2 v); reflexivity.
Qed.

Lemma constraints_overlap_sym (c1 c2 : string) :
  is_ok (parse_constraint c1) -> is_ok (parse_constraint c2) ->
  constraints_overlap c1 c2 = constraints_overlap c2 c1.
Proof.
  intros [s1 H1] [s2 H2]. unfold constraints_overlap. rewrite H1, H2. cbn.
  destruct get_test_versions as [tvs|e]; cbn; [|reflexivity].
  f_equal. apply existsb_pointwise. intros v. apply andb_comm.
Qed.

Lemma is_superset_ok (c1 c2 : string) (tvs : list Version) :
  is_ok (parse_constraint c1) -> is_ok (parse_constraint c2) ->
  get_test_versions = Ok tvs -> is_ok (is_superset c1 c2).
Proof.
  intros [s1 H1] [s2 H2] Ht. unfold is_superset. rewrite H1, H2, Ht. cbn. eexists; eauto.
Qed.

Lemma compare_constraints_mirror (c1 c2 : string) (r : ConstraintRelationship) :
  is_ok (parse_constraint c1) -> is_ok (parse_constraint c2) ->
  compare_constraints c1 c2 = Ok r -> compare_constraints c2 c1 = Ok (mirror r).
Proof.
  intros V1 V2. unfold compare_constraints.
  rewrite (constraints_equal_sym c2 c1), (constraints_overlap_sym c2 c1) by assumption.
  destruct (constraints_equal c1 c2) as [[|]|]; cbn;
    [intros [= <-]; reflexivity | | discriminate].
  destruct (constraints_overlap c1 c2) as [[|]|]; cbn;
    [ | intros [= <-]; reflexivity | discriminate].
  destruct (is_superset c1 c2) as [b1|]; cbn;
    destruct (is_superset c2 c1) as [b2|]; cbn; try discriminate.
  destruct b1, b2; cbn; intros [= <-]; reflexivity.
Qed.

Lemma compare_constraints_ok (c1 c2 : string) (tvs : list Version) :
  is_ok (parse_constraint c1) -> is_ok (parse_constraint c2) ->
  get_test_versions = Ok tvs -> is_ok (compare_constraints c1 c2).
Proof.
  intros [s1 H1] [s2 H2] Ht.
  unfold compare_constraints, constraints_equal, constraints_overlap, is_superset.
  rewrite H1, H2, Ht. cbn.
  repeat (match goal with |- context [if ?b then _ else _] => destruct b end; cbn);
    eexists; reflexivity.
Qed.

(** C8: for valid constraint strings, [compare_constraints c1 c2] is
    SUPERSET exactly when [compare_constraints c2 c1] is SUBSET, and SAME
    and DISJOINT are symmetric; the comparison returns whenever the lattice
    of test versions can be generated. *)
Theorem compare_constraints_symmetry (c1 c2 : string) :
  is_ok (parse_constraint c1) -> is_ok (parse_constraint c2) ->
  (compare_constraints c1 c2 = Ok SUPERSET <-> compare_constraints c2 c1 = Ok SUBSET)
  /\ (compare_constraints c1 c2 = Ok SAME <-> compare_constraints c2 c1 = Ok SAME)
  /\ (compare_constraints c1 c2 = Ok DISJOINT <-> compare_constraints c2 c1 = Ok DISJOINT)
  /\ (is_ok get_test_versions -> is_ok (compare_constraints c1 c2)).
Proof.
  intros V1 V2.
  pose proof (compare_constraints_mirror c1 c2) as M12.
  pose proof (compare_constraints_mirror c2 c1) as M21.
  repeat split; intros H.
  - apply (M12 SUPERSET); assumption.
  - apply (M21 SUBSET); assumption.
  - apply (M12 SAME); assumption.
  - apply (M21 SAME); assumption.
  - apply (M12 DISJOINT); assumption.
  - apply (M21 DISJOINT); assumption.
  - destruct H as [tvs Ht]. eapply compare_constraints_ok; eassumption.
Qed.

End VersionProperties.

Import ReleasePackaging.

Lemma compare_constraints_symmetry_witness :
  is_ok (parse_constraint ">=0.8.0") /\ is_ok (parse_constraint ">=0.9.0")
  /\ compare_constraints ">=0.8.0" ">=0.9.0" = Ok SUPERSET
  /\ compare_constraints ">=0.9.0" ">=0.8.0" = Ok SUBSET.
Proof.
  assert (V1 : is_ok (parse_constraint ">=0.8.0")) by (eexists; vm_compute; reflexivity).
  assert (V2 : is_ok (parse_constraint ">=0.9.0")) by (eexists; vm_compute; reflexivity).
  split; [exact V1|]. split; [exact V2|].
  destruct (compare_constraints_symmetry ">=0.8.0" ">=0.9.0" V1 V2) as [Hs _].
  assert (H : compare_constraints ">=0.8.0" ">=0.9.0" = Ok SUPERSET)
    by (vm_compute; reflexivity).
  split; [exact H | exact (proj1 Hs H)].
Defined.

Section UpsertProperties.
Context {P : Packaging}.

(** C7: the v1 rule set.  An empty list of existing entries gives INSERT;
    otherwise the candidate's version is compared with the (first)
    existing entry's version: NEWER gives REPLACE of that entry, SAME gives
    FAIL (the version is immutable), OLDER gives FAIL (no downgrade). *)
Theorem determine_upsert_action_v1_cases
    (new_entry : entry) (existing_entries : list entry) (name new_version : string) :
  e_name new_entry = Some name -> e_version new_entry = Some new_version ->
  (existing_entries = [] ->
     exists r, determine_upsert_action_v1 new_entry existing_entries = Ok r
               /\ action r = INSERT /\ replaced_entries r = []
               /\ RegistryMerge.new_entry r = new_entry)
  /\ (forall existing rest existing_version,
        existing_entries = existing :: rest ->
        e_version existing = Some existing_version ->
        (compare_versions new_version existing_version = Ok NEWER ->
           exists r, determine_upsert_action_v1 new_entry existing_entries = Ok r
                     /\ action r = REPLACE /\ replaced_entries r = [existing]
                     /\ RegistryMerge.new_entry r = new_entry)
        /\ (compare_versions new_version existing_version = Ok VSAME ->
              exists r, determine_upsert_action_v1 new_entry existing_entries = Ok r
                        /\ action r = FAIL
                        /\ reason r = "Version " +:+ new_version
                                      +:+ " already exists (immutable)")
        /\ (compare_versions new_version existing_version = Ok OLDER ->
              exists r, determine_upsert_action_v1 new_entry existing_entries = Ok r
                        /\ action r = FAIL
                        /\ reason r = "Cannot downgrade: " +:+ existing_version
                                      +:+ " -> " +:+ new_version)).
Proof.
  intros Hn Hv. unfold determine_upsert_action_v1. rewrite Hn, Hv. cbn.
  split.
  - intros ->. eexists. repeat split.
  - intros existing rest existing_version -> Hev. rewrite Hev. cbn.
    repeat split; intros ->; cbn; eexists; repeat split.
Qed.

(** C6: a candidate whose name is in the force set is decided by the forced
    rule set whatever the format version: INSERT when nothing exists,
    otherwise REPLACE of all existing entries of that name; never FAIL,
    whatever the versions and constraints of the existing entries are. *)
Theorem forced_upsert_never_fails
    (local_entry : entry) (existing : list entry) (garden_version : string)
    (force_entries : gset string) (name : string) :
  e_name local_entry = Some name -> name ∈ force_entries ->
  exists r,
    _determine_upsert_action local_entry existing garden_version force_entries = Ok r
    /\ RegistryMerge.new_entry r = local_entry
    /\ action r <> FAIL
    /\ (existing = [] -> action r = INSERT /\ replaced_entries r = [])
    /\ (existing <> [] -> action r = REPLACE /\ replaced_entries r = existing).
Proof.
  intros Hn Hin. unfold _determine_upsert_action. rewrite Hn. cbn.
  destruct (decide (name ∈ force_entries)) as [_|Hno]; [|contradiction].
  unfold determine_upsert_action_forced. rewrite Hn. cbn.
  destruct existing as [|e rest]; eexists; (split; [reflexivity|]); cbn;
    repeat split; try discriminate; try congruence.
Qed.

(** *** The v2 loop, one existing entry at a time *)

Lemma v2_loop_coexist name new_version new_constraint new_entry existing rest acc :
  spec_v2_verdict new_version new_constraint existing = Ok Coexist ->
  v2_loop name new_version new_constraint new_entry (existing :: rest) acc
  = v2_loop name new_version new_constraint new_entry rest acc.
Proof.
  unfold spec_v2_verdict. cbn [v2_loop].
  destruct (e_version existing) as [ev|]; cbn; [|discriminate].
  destruct (e_kamiwaza_version existing) as [[|a ec]|]; cbn; try discriminate.
  destruct (compare_constraints new_constraint (String a ec)) as [[]|]; cbn;
    try discriminate; try reflexivity.
  destruct (compare_versions new_version ev) as [[]|]; cbn; discriminate.
Qed.

Lemma v2_loop_mark name new_version new_constraint new_entry existing rest acc :
  spec_v2_verdict new_version new_constraint existing = Ok MarkReplace ->
  v2_loop name new_version new_constraint new_entry (existing :: rest) acc
  = v2_loop name new_version new_constraint new_entry rest (acc ++ [existing]).
Proof.
  unfold spec_v2_verdict. cbn [v2_loop].
  destruct (e_version existing) as [ev|]; cbn; [|discriminate].
  destruct (e_kamiwaza_version existing) as [[|a ec]|]; cbn; try discriminate.
  destruct (compare_constraints new_constraint (String a ec)) as [[]|]; cbn;
    try discriminate; try reflexivity.
  destruct (compare_versions new_version ev) as [[]|]; cbn;
    try discriminate; reflexivity.
Qed.

Lemma v2_loop_conflict name new_version new_constraint new_entry existing rest acc :
  spec_v2_verdict new_version new_constraint existing = Ok Conflict ->
  exists r,
    v2_loop name new_version new_constraint new_entry (existing :: rest) acc = Ok r
    /\ action r = FAIL /\ RegistryMerge.new_entry r = new_entry.
Proof.
  unfold spec_v2_verdict. cbn [v2_loop].
  destruct (e_version existing) as [ev|]; cbn; [|discriminate].
  destruct (e_kamiwaza_version existing) as [[|a ec]|]; cbn;
    try (intros _; eexists; repeat split; reflexivity).
  destruct (compare_constraints new_constraint (String a ec)) as [[]|]; cbn;
    try discriminate; try (intros _; eexists; repeat split; reflexivity).
  destruct (compare_versions new_version ev) as [[]|]; cbn;
    try discriminate; intros _; eexists; repeat split; reflexivity.
Qed.

Lemma v2_loop_raise name new_version new_constraint new_entry existing rest acc x :
  spec_v2_verdict new_version new_constraint existing = Raise x ->
  v2_loop name new_version new_constraint new_entry (existing :: rest) acc = Raise x.
Proof.
  unfold spec_v2_verdict. cbn [v2_loop].
  destruct (e_version existing) as [ev|]; cbn; [|congruence].
  destruct (e_kamiwaza_version existing) as [[|a ec]|]; cbn; try discriminate.
  destruct (compare_constraints new_constraint (String a ec)) as [[]|]; cbn;
    try discriminate; try congruence.
  destruct (compare_versions new_version ev) as [[]|]; cbn;
    try discriminate; congruence.
Qed.

(** When every existing entry passes, the loop runs to its end with the
    marked entries appended, in order, to the accumulator. *)
Lemma v2_loop_passes name new_version new_constraint new_entry existing acc :
  Forall (passes new_version new_constraint) existing ->
  v2_loop name new_version new_constraint new_entry existing acc
  = v2_loop name new_version new_constraint new_entry []
      (acc ++ filter (marked new_version new_constraint) existing).
Proof.
  intros H. revert acc. induction H as [|e rest He _ IH]; intros acc.
  - cbn [filter list_filter]. rewrite app_nil_r. reflexivity.
  - destruct He as [He|He].
    + rewrite (v2_loop_coexist _ _ _ _ _ _ _ He), IH.
      rewrite filter_cons_False by (unfold marked; congruence). reflexivity.
    + rewrite (v2_loop_mark _ _ _ _ _ _ _ He), IH.
      rewrite filter_cons_True by exact He.
      rewrite <- app_assoc. reflexivity.
Qed.

Lemma v2_loop_first_conflict name new_version new_constraint new_entry pre existing post acc :
  Forall (passes new_version new_constraint) pre ->
  spec_v2_verdict new_version new_constraint existing = Ok Conflict ->
  exists r,
    v2_loop name new_version new_constraint new_entry (pre ++ existing :: post) acc = Ok r
    /\ action r = FAIL.
Proof.
  intros H Hc. revert acc. induction H as [|e rest He _ IH]; intros acc; cbn [app].
  - destruct (v2_loop_conflict name new_version new_constraint new_entry existing post acc Hc)
      as (r & Hr & Hf & _).
    exists r. split; assumption.
  - destruct He as [He|He].
    + rewrite (v2_loop_coexist _ _ _ _ _ _ _ He). apply IH.
    + rewrite (v2_loop_mark _ _ _ _ _ _ _ He). apply IH.
Qed.


Lemma v2_loop_nil name new_version new_constraint new_entry acc :
  exists r,
    v2_loop name new_version new_constraint new_entry [] acc = Ok r
    /\ replaced_entries r = acc
    /\ RegistryMerge.new_entry r = new_entry
    /\ action r = match acc with [] => INSERT | _ :: _ => REPLACE end.
Proof. destruct acc; cbn; eexists; repeat split. Qed.

(** C3: the v2 rule set, case by case.  A candidate without constraint
    fails; with no existing entry it is inserted; the existing entries are
    examined in turn with the verdicts of [spec_v2_verdict] (DISJOINT is
    skipped; SAME defers to the versions, NEWER marking the entry and SAME
    or OLDER failing; SUPERSET marks the entry; SUBSET, PARTIAL and a
    missing constraint fail); the first conflict yields FAIL, and without
    conflict the action is REPLACE of exactly the marked entries when there
    are some and INSERT otherwise. *)
Theorem determine_upsert_action_v2_cases
    (new_entry : entry) (existing_entries : list entry) (name new_version : string) :
  e_name new_entry = Some name -> e_version new_entry = Some new_version ->
  (falsy (e_kamiwaza_version new_entry) = true ->
     exists r, determine_upsert_action_v2 new_entry existing_entries = Ok r
               /\ action r = FAIL)
  /\ (forall new_constraint,
        e_kamiwaza_version new_entry = Some new_constraint -> new_constraint <> "" ->
        (existing_entries = [] ->
           exists r, determine_upsert_action_v2 new_entry existing_entries = Ok r
                     /\ action r = INSERT /\ replaced_entries r = [])
        /\ (forall pre existing post,
              existing_entries = pre ++ existing :: post ->
              Forall (passes new_version new_constraint) pre ->
              spec_v2_verdict new_version new_constraint existing = Ok Conflict ->
              exists r, determine_upsert_action_v2 new_entry existing_entries = Ok r
                        /\ action r = FAIL)
        /\ (Forall (passes new_version new_constraint) existing_entries ->
              exists r, determine_upsert_action_v2 new_entry existing_entries = Ok r
                        /\ replaced_entries r
                           = filter (marked new_version new_constraint) existing_entries
                        /\ action r = match replaced_entries r with
                                      | [] => INSERT
                                      | _ :: _ => REPLACE
                                      end)).
Proof.
  intros Hn Hv. unfold determine_upsert_action_v2. rewrite Hn, Hv. cbn.
  split.
  - intros ->. eexists. split; reflexivity.
  - intros c Hc Hne. rewrite Hc.
    assert (Hf : falsy (Some c) = false) by (destruct c; [contradiction|reflexivity]).
    rewrite Hf. cbn [default]. repeat split.
    + intros ->. eexists. repeat split.
    + intros pre existing post -> Hpre Hconf.
      destruct (v2_loop_first_conflict name new_version c new_entry pre existing post []
                  Hpre Hconf) as (r & Hr & Hfail).
      exists r. split; [|exact Hfail].
      destruct pre; cbn [app] in *; exact Hr.
    + intros Hall.
      destruct existing_entries as [|e rest].
      * eexists. repeat split.
      * rewrite (v2_loop_passes _ _ _ _ _ _ Hall). cbn [app].
        destruct (v2_loop_nil name new_version c new_entry
                    (filter (marked new_version c) (e :: rest))) as (r & Hr & Hrep & _ & Hact).
        exists r. rewrite Hrep. auto.
Qed.

End UpsertProperties.

Lemma bind_Ok {A B} (a : A) (f : A -> result B) : (Ok a ≫= f) = f a.
Proof. reflexivity. Qed.

Lemma bind_Raise {A B} (x : exn) (f : A -> result B) : (Raise x ≫= f) = Raise x.
Proof. reflexivity. Qed.

Section MergeProperties.
Context {P : Packaging}.

Lemma map_result_Forall2 {A B} (f : A -> result B) (l : list A) (rs : list B) :
  map_result f l = Ok rs <-> Forall2 (fun x r => f x = Ok r) l rs.
Proof.
  revert rs. induction l as [|x l IH]; intros rs; cbn.
  - split; [intros [= <-]; constructor | intros H; inversion H; reflexivity].
  - destruct (f x) as [y|e] eqn:Hx; cbn.
    + destruct (map_result f l) as [ys|e]; cbn.
      * split.
        -- intros [= <-]. constructor; [exact Hx | apply IH; reflexivity].
        -- intros H. inversion H as [|? r ? rs' Hr Hrs]; subst.
           apply IH in Hrs. congruence.
      * split; [discriminate|].
        intros H. inversion H as [|? r ? rs' Hr Hrs]; subst.
        apply IH in Hrs. discriminate.
    + split; [discriminate|]. intros H. inversion H; congruence.
Qed.

Lemma fold_union_keys (l : list entry)
    (s0 : gset (option string * option string * option string)) :
  fold_left (fun s replaced => s ∪ {[ entry_key replaced ]}) l s0
  = s0 ∪ list_to_set (map entry_key l).
Proof.
  revert s0. induction l as [|x l IH]; intros s0; cbn.
  - set_solver.
  - rewrite IH. set_solver.
Qed.

Lemma replaced_keys_cons (r : UpsertResult) (rs : list UpsertResult) :
  replaced_keys (r :: rs)
  = list_to_set (map entry_key (match action r with
                                | REPLACE => replaced_entries r
                                | _ => []
                                end)) ∪ replaced_keys rs.
Proof. unfold replaced_keys. cbn. rewrite map_app, list_to_set_app_L. reflexivity. Qed.

Lemma collected_errors_cons (r : UpsertResult) (rs : list UpsertResult) :
  collected_errors (r :: rs)
  = match action r with
    | FAIL => collected_error r :: collected_errors rs
    | _ => collected_errors rs
    end.
Proof.
  unfold collected_errors.
  destruct (action r) eqn:Ha.
  - rewrite filter_cons_False by congruence. reflexivity.
  - rewrite filter_cons_False by congruence. reflexivity.
  - rewrite filter_cons_True by exact Ha. reflexivity.
Qed.

Lemma merge_step_decision remote gv force (st : merge_state) (c : entry) :
  merge_step (group_by_name remote) gv (default ∅ force) st c
  = r ← decision remote gv force c;
    Ok {| st_actions := st_actions st ++ [r];
          st_errors := st_errors st ++ collected_errors [r];
          st_entries_to_remove := st_entries_to_remove st ∪ replaced_keys [r] |}.
Proof.
  unfold merge_step, decision, existing_for, entry_name.
  destruct (_determine_upsert_action _ _ _ _) as [r|x]; cbn; [|reflexivity].
  destruct (action r) eqn:Ha; cbn; rewrite ?app_nil_r; f_equal; f_equal.
  - set_solver.
  - rewrite fold_union_keys. set_solver.
  - set_solver.
Qed.

(** The second loop of [merge_entries] collects the decisions of the
    candidates, in order, unless one of them raises. *)
Lemma fold_merge_step remote gv force (local : list entry) (st : merge_state) :
  fold_result (merge_step (group_by_name remote) gv (default ∅ force)) local st
  = rs ← map_result (decision remote gv force) local;
    Ok {| st_actions := st_actions st ++ rs;
          st_errors := st_errors st ++ collected_errors rs;
          st_entries_to_remove := st_entries_to_remove st ∪ replaced_keys rs |}.
Proof.
  revert st. induction local as [|c local IH]; intros st; cbn [fold_result map_result].
  - destruct st as [a e k]; cbn. rewrite !app_nil_r. f_equal. f_equal.
    unfold replaced_keys; cbn. set_solver.
  - rewrite merge_step_decision.
    destruct (decision remote gv force c) as [r|x]; rewrite ?bind_Ok, ?bind_Raise;
      [|reflexivity].
    rewrite IH.
    destruct (map_result (decision remote gv force) local) as [rs|x];
      rewrite ?bind_Ok, ?bind_Raise; [|reflexivity].
    cbn [st_actions st_errors st_entries_to_remove].
    rewrite (collected_errors_cons r rs), (replaced_keys_cons r rs).
    rewrite (collected_errors_cons r []), (replaced_keys_cons r []).
    rewrite <- !app_assoc. f_equal. f_equal.
    + destruct (action r); reflexivity.
    + unfold replaced_keys at 1. cbn. set_solver.
Qed.

Lemma collected_errors_nil (rs : list UpsertResult) :
  collected_errors rs = [] <-> Forall (fun r => action r <> FAIL) rs.
Proof.
  induction rs as [|r rs IH]; [split; [constructor|reflexivity]|].
  rewrite collected_errors_cons. split.
  - destruct (action r) eqn:Ha; try discriminate;
      intros H; constructor; try congruence; apply IH; exact H.
  - intros H. inversion H as [|? ? Hr Hrs]; subst.
    destruct (action r); try contradiction; apply IH; exact Hrs.
Qed.

Lemma filter_insert_or_replace (rs : list UpsertResult) :
  Forall (fun r => action r <> FAIL) rs ->
  filter (fun a => is_insert_or_replace a = true) rs = rs.
Proof.
  induction 1 as [|r rs Hr _ IH]; [reflexivity|].
  rewrite filter_cons_True, IH; [reflexivity|].
  unfold is_insert_or_replace. destruct (action r); congruence.
Qed.

(** [merge_entries] in terms of the decisions of the batch. *)
Lemma merge_entries_decided local remote gv force :
  merge_entries local remote gv force
  = rs ← map_result (decision remote gv force) local;
    match collected_errors rs with
    | _ :: _ =>
        Ok {| success := false; merged_entries := [];
              actions := rs; errors := collected_errors rs |}
    | [] =>
        Ok {| success := true;
              merged_entries :=
                filter (fun e => entry_key e ∉ replaced_keys rs) remote
                ++ map new_entry rs;
              actions := rs; errors := [] |}
    end.
Proof.
  unfold merge_entries. rewrite fold_merge_step.
  destruct (map_result (decision remote gv force) local) as [rs|x]; cbn; [|reflexivity].
  destruct (collected_errors rs) as [|e es] eqn:He; [|reflexivity].
  apply collected_errors_nil in He. rewrite (filter_insert_or_replace rs He).
  rewrite (left_id_L ∅ (∪)). reflexivity.
Qed.

(** C2: when every candidate's decision returns and at least one of them
    is FAIL, [merge_entries] returns a MergeResult with [success = false]
    and no merged entries, whose errors list holds, in order, the
    collected reason of every failing candidate. *)
Theorem merge_entries_all_or_nothing
    (local remote : list entry) (gv : string) (force : option (gset string))
    (rs : list UpsertResult) :
  Forall2 (fun c r => decision remote gv force c = Ok r) local rs ->
  Exists (fun r => action r = FAIL) rs ->
  merge_entries local remote gv force
  = Ok {| success := false; merged_entries := []; actions := rs;
          errors := map collected_error (filter (fun r => action r = FAIL) rs) |}
  /\ length (map collected_error (filter (fun r => action r = FAIL) rs))
     = length (filter (fun r => action r = FAIL) rs)
  /\ (forall r, r ∈ rs -> action r = FAIL ->
        collected_error r ∈ map collected_error (filter (fun r => action r = FAIL) rs)).
Proof.
  intros Hdec Hex. apply map_result_Forall2 in Hdec.
  rewrite merge_entries_decided, Hdec. cbn. fold (collected_errors rs).
  split; [|split].
  - destruct (collected_errors rs) eqn:He; [|reflexivity].
    apply collected_errors_nil in He. apply Exists_exists in Hex.
    destruct Hex as (r & Hin & Hf). rewrite Forall_forall in He.
    exfalso. exact (He r Hin Hf).
  - apply length_map.
  - intros r Hin Hf. apply list_elem_of_fmap. exists r. split; [reflexivity|].
    apply list_elem_of_filter. split; assumption.
Qed.

Lemma v2_loop_new_entry name new_version new_constraint ne existing acc r :
  v2_loop name new_version new_constraint ne existing acc = Ok r ->
  RegistryMerge.new_entry r = ne.
Proof.
  revert acc. induction existing as [|e rest IH]; intros acc.
  - destruct acc; cbn; intros [= <-]; reflexivity.
  - destruct (spec_v2_verdict new_version new_constraint e) as [[]|x] eqn:He.
    + rewrite (v2_loop_coexist _ _ _ _ _ _ _ He). apply IH.
    + rewrite (v2_loop_mark _ _ _ _ _ _ _ He). apply IH.
    + destruct (v2_loop_conflict name new_version new_constraint ne e rest acc He)
        as (r' & Hr' & _ & Hne).
      rewrite Hr'. intros [= <-]. exact Hne.
    + rewrite (v2_loop_raise _ _ _ _ _ _ _ _ He). discriminate.
Qed.

Lemma decision_new_entry remote gv force c r :
  decision remote gv force c = Ok r -> RegistryMerge.new_entry r = c.
Proof.
  unfold decision, _determine_upsert_action.
  destruct (decide _) as [_|_]; [|destruct (decide _) as [_|_]].
  - unfold determine_upsert_action_forced.
    destruct (e_name c); cbn; [|discriminate].
    destruct (existing_for remote c); intros [= <-]; reflexivity.
  - unfold determine_upsert_action_v1.
    destruct (e_name c); cbn; [|discriminate].
    destruct (e_version c); cbn; [|discriminate].
    destruct (existing_for remote c) as [|e rest]; [intros [= <-]; reflexivity|].
    destruct (e_version e); cbn; [|discriminate].
    destruct (compare_versions _ _) as [[]|]; cbn; try discriminate;
      intros [= <-]; reflexivity.
  - unfold determine_upsert_action_v2.
    destruct (e_name c); cbn; [|discriminate].
    destruct (e_version c); cbn; [|discriminate].
    destruct (falsy (e_kamiwaza_version c)); [intros [= <-]; reflexivity|].
    destruct (existing_for remote c) as [|e rest]; [intros [= <-]; reflexivity|].
    apply v2_loop_new_entry.
Qed.

Lemma decisions_new_entries remote gv force (local : list entry) (rs : list UpsertResult) :
  Forall2 (fun c r => decision remote gv force c = Ok r) local rs ->
  map RegistryMerge.new_entry rs = local.
Proof.
  induction 1 as [|c r local rs Hd _ IH]; cbn; [reflexivity|].
  rewrite IH, (decision_new_entry _ _ _ _ _ Hd). reflexivity.
Qed.

(** [remote_by_name.get(name, [])] holds the remote entries grouped under
    [name], in catalog order. *)
Lemma group_fold_lookup (l : list entry) (m : gmap string (list entry)) (n : string) :
  default [] (fold_left
                (fun (remote_by_name : gmap string (list entry)) entry =>
                   let name := default "" (e_name entry) in
                   <[name := default [] (remote_by_name !! name) ++ [entry]]>
                     remote_by_name) l m !! n)
  = default [] (m !! n) ++ filter (fun e => entry_name e = n) l.
Proof.
  revert m. induction l as [|e l IH]; intros m; cbn [fold_left].
  - rewrite filter_nil, app_nil_r. reflexivity.
  - rewrite IH. cbn zeta. fold (entry_name e).
    destruct (decide (entry_name e = n)) as [Heq|Hne].
    + rewrite filter_cons_True by exact Heq. subst n.
      rewrite lookup_insert_eq. cbn. rewrite <- app_assoc. reflexivity.
    + rewrite filter_cons_False by exact Hne.
      rewrite lookup_insert_ne by exact Hne. reflexivity.
Qed.

Lemma existing_for_filter (remote : list entry) (c : entry) :
  existing_for remote c = filter (fun e => entry_name e = entry_name c) remote.
Proof.
  unfold existing_for, group_by_name. rewrite group_fold_lookup.
  rewrite lookup_empty. reflexivity.
Qed.

Lemma replaced_keys_elem (rs : list UpsertResult) (a : UpsertResult) (replaced : entry) :
  a ∈ rs -> action a = REPLACE -> replaced ∈ replaced_entries a ->
  entry_key replaced ∈ replaced_keys rs.
Proof.
  intros Ha Hact Hin. unfold replaced_keys.
  apply elem_of_list_to_set, list_elem_of_fmap. exists replaced. split; [reflexivity|].
  apply list_elem_of_In, in_flat_map. exists a.
  split; [apply list_elem_of_In; exact Ha|].
  rewrite Hact. apply list_elem_of_In. exact Hin.
Qed.

(** C10: replaced remote entries are identified by the key triple (name,
    version, kamiwaza_version) alone.  When no decision of the batch fails,
    the merged list is the remote entries whose key is not the key of a
    replaced entry, followed by the candidates; so every remote entry that
    shares its key with a replaced entry is dropped, whatever its payload,
    and absent fields take part in the key as None. *)
Theorem merge_entries_replaces_by_key
    (local remote : list entry) (gv : string) (force : option (gset string))
    (rs : list UpsertResult) :
  Forall2 (fun c r => decision remote gv force c = Ok r) local rs ->
  Forall (fun r => action r <> FAIL) rs ->
  merge_entries local remote gv force
  = Ok {| success := true; merged_entries := kept_entries rs remote ++ local;
          actions := rs; errors := [] |}
  /\ (forall a replaced other,
         a ∈ rs -> action a = REPLACE -> replaced ∈ replaced_entries a ->
         entry_key other = entry_key replaced ->
         (other ∉ kept_entries rs remote)
         /\ (other ∉ local -> other ∉ (kept_entries rs remote ++ local))).
Proof.
  intros Hdec Hnf. split.
  - rewrite merge_entries_decided.
    rewrite (proj2 (map_result_Forall2 _ _ _) Hdec), bind_Ok.
    rewrite (proj2 (collected_errors_nil rs) Hnf).
    rewrite (decisions_new_entries _ _ _ _ _ Hdec). reflexivity.
  - intros a replaced other Ha Hact Hin Hkey.
    assert (Hout : other ∉ kept_entries rs remote).
    { intros Hf. apply list_elem_of_filter in Hf. destruct Hf as [Hf _].
      apply Hf. change (entry_key other ∈ replaced_keys rs). rewrite Hkey.
      eapply replaced_keys_elem; eassumption. }
    split; [exact Hout|].
    intros Hloc Hf. apply elem_of_app in Hf. destruct Hf; contradiction.
Qed.

(** *** The catalog invariant *)



Lemma compare_constraints_parses (c1 c2 : string) (r : ConstraintRelationship) :
  compare_constraints c1 c2 = Ok r ->
  is_ok (parse_constraint c1) /\ is_ok (parse_constraint c2).
Proof.
  unfold compare_constraints, constraints_equal.
  destruct (parse_constraint c1) as [s1|]; cbn; [|discriminate].
  destruct (parse_constraint c2) as [s2|]; cbn; [|discriminate].
  intros _. split; eexists; reflexivity.
Qed.

Lemma compatible_sym gv (a b : entry) :
  compatible gv a b = true -> compatible gv b a = true.
Proof.
  unfold compatible.
  destruct (decide (entry_name a = entry_name b)) as [Heq|Hne].
  - rewrite (bool_decide_eq_true_2 _ Heq), (bool_decide_eq_true_2 _ (eq_sym Heq)).
    destruct (is_v1 gv); [discriminate|].
    destruct (e_kamiwaza_version a) as [ca|], (e_kamiwaza_version b) as [cb|];
      try discriminate.
    intros H. apply bool_decide_eq_true_1 in H. apply bool_decide_eq_true_2.
    destruct (compare_constraints_parses _ _ _ H) as [V1 V2].
    exact (compare_constraints_mirror ca cb DISJOINT V1 V2 H).
  - intros _. rewrite bool_decide_eq_false_2; [reflexivity|]. congruence.
Qed.




End MergeProperties.

(** ** The publish workflow *)

(** Symbolic execution of a workflow computation: unfold the statements
    and the state updates, then split on the first undecided test. *)
Ltac undecided x :=
  lazymatch x with
  | context [match _ with _ => _ end] => fail
  | _ => idtac
  end.

(** The projections of a state that is a variable, folded back. *)
Ltac fold_state_in H :=
  repeat match type of H with
         | context [match ?s with _ => _ end] =>
             is_var s;
             lazymatch type of s with
             | state =>
                 progress (fold (remote s) (fs s) (calls s) (printed s)
                                (lock_acquired s) (backup_path s) (had_error s) in H)
             end
         end.

Ltac run_in H :=
  cbv [try_finally try_except try_block finally_block except_block dry_run_block run_merge
       download_registry upload_registry restore_backup verify_upload
       acquire_lock release_lock check_lock_exists get_lock_info run_aws_command
       execute done failed local_dir_eqb text_of
       mbind M_bind mret M_ret print print_lines modify get lift raise sys_exit
       add_line add_lines set_dir set_remote log_call set_lock_acquired set_backup_path
       set_had_error is_Exception is_RuntimeError is_ValueError
       remote fs calls printed lock_acquired backup_path had_error
       returncode stdout stderr] in H;
  fold_state_in H;
  cbn [remote fs calls printed lock_acquired backup_path had_error
       returncode stdout stderr fst snd negb andb Nat.eqb] in H.

Ltac step_in H :=
  match type of H with
  | context [match ?x with _ => _ end] => undecided x; destruct x eqn:?; run_in H
  end.

Lemma infix_here (lines pre : list string) :
  exists p q, pre ++ lines = p ++ lines ++ q.
Proof. exists pre, []. rewrite app_nil_r. reflexivity. Qed.

Lemma infix_later (lines l more : list string) :
  (exists p q, l = p ++ lines ++ q) -> exists p q, l ++ more = p ++ lines ++ q.
Proof.
  intros (p & q & ->). exists p, (q ++ more). rewrite <- !app_assoc. reflexivity.
Qed.

Section WorkflowProperties.
Context {P : Packaging} {E : Environment}.

(** C5 (as amended): a dry run never acquires the lock and never writes to
    the remote store: the only command it issues is the download into its
    scratch directory.  When the bucket is configured, the local registry
    is valid and the simulated merge returns, the run prints the merge
    summary (the would-be action log) and exits with code 0 if the merge
    would succeed and with code 1 if it would fail. *)
Theorem dry_run_never_locks (args : Args) (st0 st : state) (r : result unit) :
  fresh st0 ->
  arg_dry_run args = true ->
  main args st0 = (st, r) ->
  lock_acquired st = false
  /\ (calls st = []
      \/ exists bucket,
           calls st = [S3_sync_down (catalog_prefix bucket (garden_dir_for args)) Scratch])
  /\ (remote st = remote st0 \/ remote st = others [] (remote st0))
  /\ (forall bucket errors success apps_result tools_result written,
        get_bucket_for_stage (arg_stage args) = Ok bucket ->
        validate_local_registry (arg_local_registry args)
          (repo_version_str (arg_repo_version args)) = (true, errors) ->
        merge_registries (local_files (arg_local_registry args))
          (dry_run_view st0 bucket (garden_dir_for args))
          (repo_version_str (arg_repo_version args)) (force_entries_for args)
        = Ok (success, apps_result, tools_result, written) ->
        printed_block (print_merge_summary apps_result tools_result) st
        /\ exit_code r = if success then 0 else 1).
Proof.
  intros Hfresh Hdry Hmain. unfold main in Hmain. rewrite Hdry in Hmain.
  destruct st0 as [remote0 fs0 calls0 printed0 la0 bp0 he0].
  destruct Hfresh as (Hc & _ & Hl & Hb & He). cbn in Hc, Hl, Hb, He. subst.
  run_in Hmain.
  repeat step_in Hmain.
  all: injection Hmain as <- <-.
  all: cbn [lock_acquired calls remote printed app].
  all: split; [reflexivity|].
  all: split; [first [left; reflexivity | right; eexists; reflexivity]|].
  all: split; [first [left; reflexivity | right; reflexivity]|].
  all: intros bucket errs success apps_result tools_result written Hb Hv Hm.
  all: unfold dry_run_view, catalog_prefix, garden_dir_for, force_entries_for, benign in Hm.
  all: cbn [calls remote] in Hm.
  all: try discriminate Hb; injection Hb as <-.
  all: injection Hv as -> <-; try discriminate.
  all: repeat match goal with
              | H : oracle _ _ = _ |- _ => rewrite H in Hm; clear H
              | H : (_ || _) = _ |- _ => rewrite H in Hm; clear H
              | H : falsy _ = _ |- _ => rewrite H in Hm; clear H
              end.
  all: try match goal with
           | H : merge_registries _ _ _ _ = _ |- _ =>
               tryif constr_eq H Hm then fail
               else (rewrite H in Hm; try discriminate Hm; injection Hm; intros; subst)
           end.
  all: try discriminate.
  all: split;
    [ unfold printed_block; cbn [printed];
      repeat first [apply infix_here | apply infix_later]
    | destruct success; cbn in *; congruence ].
Qed.

End WorkflowProperties.

(** ** The live run *)

(** *** Paths and the contract of [sync] *)

Lemma append_assoc (a b c : string) : (a +:+ b) +:+ c = a +:+ (b +:+ c).
Proof.
  induction a as [|x a IH]; [reflexivity|].
  change (String x ((a +:+ b) +:+ c) = String x (a +:+ (b +:+ c))).
  rewrite IH. reflexivity.
Qed.

Lemma strip_prefix_app (p s : string) : strip_prefix p (p +:+ s) = Some s.
Proof.
  induction p as [|x p IH]; [destruct s; reflexivity|].
  change (String x p +:+ s) with (String x (p +:+ s)). cbn [strip_prefix].
  rewrite Ascii.eqb_refl. exact IH.
Qed.

Lemma sync_to_remote_mirror (source : dir) (p : string) (r : store) (rel : string) :
  sync_to_remote source p true (fun _ => true) r (p +:+ rel) = source rel.
Proof.
  unfold sync_to_remote. rewrite strip_prefix_app.
  destruct (source rel); reflexivity.
Qed.

Lemma sync_round_trip (source : dir) (p : string) (r : store) (rel : string) :
  sync_to_local (sync_to_remote source p true (fun _ => true) r) p (fun _ => true)
                empty_dir rel
  = source rel.
Proof.
  unfold sync_to_local. rewrite sync_to_remote_mirror.
  destruct (source rel); reflexivity.
Qed.

Lemma compare_files_same (local_path verify_path : dir) (filenames : list string)
    (st : state) :
  (forall f, verify_path f = local_path f) ->
  compare_files local_path verify_path filenames st
  = (add_line "Verification passed" st, Ok true).
Proof.
  intros Hsame. induction filenames as [|f rest IH]; [reflexivity|].
  cbn [compare_files]. rewrite Hsame.
  destruct (local_path f) as [x|]; [|exact IH].
  rewrite bool_decide_eq_true_2 by reflexivity. exact IH.
Qed.

Lemma lstrip_garden (x : string) : lstrip_slash ("garden/" +:+ x) = "garden/" +:+ x.
Proof. reflexivity. Qed.

Section PathProperties.
Context {E : Environment}.

(** The lock key lies under the prefix that the workflow synchronises. *)
Lemma lock_s3_path_under_prefix (bucket : string) (v : RepoVersion) :
  lock_s3_path bucket (Some (get_garden_dir (repo_version_str v)))
  = catalog_prefix bucket (get_garden_dir (repo_version_str v)) +:+ lock_name.
Proof.
  unfold lock_s3_path, catalog_prefix, s3_path, lock_name.
  destruct v; cbv [get_garden_dir repo_version_str];
    (destruct (decide _) as [Heq|Hne]; [try discriminate Heq | try (exfalso; apply Hne; reflexivity)]);
    change (falsy (Some _)) with false; cbv iota;
    rewrite !lstrip_garden, !append_assoc; reflexivity.
Qed.

End PathProperties.

(** *** Rules for [hoare] and [framed] *)

Lemma extends_refl ok st : extends ok st st.
Proof. repeat split. exists []. rewrite app_nil_r. split; [reflexivity|constructor]. Qed.

Lemma extends_trans ok st1 st2 st3 :
  extends ok st1 st2 -> extends ok st2 st3 -> extends ok st1 st3.
Proof.
  intros (L1 & B1 & H1 & cs1 & C1 & F1) (L2 & B2 & H2 & cs2 & C2 & F2).
  repeat split; try congruence.
  exists (cs1 ++ cs2). rewrite C2, C1, <- app_assoc. split; [reflexivity|].
  apply Forall_app. split; assumption.
Qed.

Lemma framed_ret {A} ok (a : A) : framed ok (mret a).
Proof. intros st. apply extends_refl. Qed.

Lemma framed_raise {A} ok (e : exn) : framed ok (raise e : M A).
Proof. intros st. apply extends_refl. Qed.

Lemma framed_sys_exit {A} ok (code : nat) : framed ok (sys_exit code : M A).
Proof. intros st. apply extends_refl. Qed.

Lemma framed_lift {A} ok (r : result A) : framed ok (lift r).
Proof. intros st. apply extends_refl. Qed.

Lemma framed_get {A} ok (f : state -> A) : framed ok (get f).
Proof. intros st. apply extends_refl. Qed.

Lemma framed_print ok (line : string) : framed ok (print line).
Proof.
  intros st. cbn. repeat split. exists []. rewrite app_nil_r.
  split; [reflexivity|constructor].
Qed.

Lemma framed_print_lines ok (lines : list string) : framed ok (print_lines lines).
Proof.
  intros st. cbn. repeat split. exists []. rewrite app_nil_r.
  split; [reflexivity|constructor].
Qed.

Lemma framed_set_dir ok (d : local_dir) (content : dir) :
  framed ok (modify (set_dir d content)).
Proof.
  intros st. cbn. repeat split. exists []. rewrite app_nil_r.
  split; [reflexivity|constructor].
Qed.

Lemma framed_bind {A B} ok (m : M A) (k : A -> M B) :
  framed ok m -> (forall a, framed ok (k a)) -> framed ok (m ≫= k).
Proof.
  intros Hm Hk st. specialize (Hm st). unfold mbind, M_bind.
  destruct (m st) as [st' [a|e]]; cbn in *; [|exact Hm].
  eapply extends_trans; [exact Hm | apply Hk].
Qed.

Lemma framed_try_except {A} ok (body : M A) catches handler :
  framed ok body -> (forall e, framed ok (handler e)) ->
  framed ok (try_except body catches handler).
Proof.
  intros Hb Hh st. specialize (Hb st). unfold try_except.
  destruct (body st) as [st' [a|e]]; cbn in *; [exact Hb|].
  destruct (catches e); [|exact Hb].
  eapply extends_trans; [exact Hb | apply Hh].
Qed.

Section FrameRules.
Context {E : Environment}.

Lemma framed_run_aws_command ok (c : aws_call) (check : bool) :
  ok c -> framed ok (run_aws_command c check).
Proof.
  intros Hok st. unfold run_aws_command.
  assert (H : extends ok st
                (execute c (oracle (calls (set_remote (others (calls st) (remote st)) st)) c)
                   (log_call c (set_remote (others (calls st) (remote st)) st))).1).
  { destruct c, (oracle _ _); cbn;
      repeat match goal with |- context [match ?x with _ => _ end] => destruct x; cbn end;
      (repeat split; eexists; (split; [reflexivity|]); repeat constructor; exact Hok). }
  cbv zeta. destruct (execute _ _ _) as [st' res]. cbn in H.
  destruct (check && _); exact H.
Qed.

End FrameRules.

Lemma hoare_weaken {A} (pre pre' : state -> Prop) (m : M A) post post' epost epost' :
  hoare pre' m post' epost' ->
  (forall st, pre st -> pre' st) ->
  (forall st a, post' st a -> post st a) ->
  (forall st e, epost' st e -> epost st e) ->
  hoare pre m post epost.
Proof.
  intros H Hp Hq He st Hst. specialize (H st (Hp st Hst)).
  destruct (m st) as [st' [a|e]]; auto.
Qed.

Lemma hoare_bind {A B} pre (m : M A) (k : A -> M B) mid post epost :
  hoare pre m mid epost -> (forall a, hoare (fun st => mid st a) (k a) post epost) ->
  hoare pre (m ≫= k) post epost.
Proof.
  intros Hm Hk st Hst. specialize (Hm st Hst). unfold mbind, M_bind.
  destruct (m st) as [st' [a|e]]; [|exact Hm].
  exact (Hk a st' Hm).
Qed.

(** A stretch that is framed keeps a stable assertion, whatever its end. *)
Lemma hoare_framed {A} ok (m : M A) (Q : state -> Prop) :
  framed ok m -> stable ok Q ->
  hoare Q m (fun st _ => Q st) (fun st _ => Q st).
Proof.
  intros Hf Hs st Hst. specialize (Hf st).
  destruct (m st) as [st' [a|e]]; cbn in Hf; exact (Hs st st' Hf Hst).
Qed.

(** One framed statement followed by the rest. *)
Lemma hoare_step {A B} ok (m : M A) (k : A -> M B) (Q : state -> Prop) post epost :
  framed ok m -> stable ok Q ->
  (forall st e, Q st -> epost st e) ->
  (forall a, hoare Q (k a) post epost) ->
  hoare Q (m ≫= k) post epost.
Proof.
  intros Hf Hs He Hk. eapply hoare_bind.
  - eapply hoare_weaken; [apply (hoare_framed ok m Q Hf Hs) | auto | | ].
    + intros st a H. exact H.
    + intros st e H. exact (He st e H).
  - intros a. apply Hk.
Qed.

Lemma hoare_modify {B} (f : state -> state) (k : unit -> M B) (Q Q' : state -> Prop)
    post epost :
  (forall st, Q st -> Q' (f st)) ->
  hoare Q' (k tt) post epost ->
  hoare Q (modify f ≫= k) post epost.
Proof. intros Hf Hk st Hst. exact (Hk (f st) (Hf st Hst)). Qed.

Lemma hoare_try_except {A} (body : M A) catches handler pre post epost epost' :
  hoare pre body post epost' ->
  (forall e, catches e = true -> hoare (fun st => epost' st e) (handler e) post epost) ->
  (forall st e, catches e = false -> epost' st e -> epost st e) ->
  hoare pre (try_except body catches handler) post epost.
Proof.
  intros Hb Hh He st Hst. specialize (Hb st Hst). unfold try_except.
  destruct (body st) as [st' [a|e]]; [exact Hb|].
  destruct (catches e) eqn:Hc; [exact (Hh e Hc st' Hb) | exact (He st' e Hc Hb)].
Qed.

Lemma hoare_run {A} pre (m : M A) post epost st st' r :
  hoare pre m post epost -> pre st -> m st = (st', r) ->
  match r with Ok a => post st' a | Raise e => epost st' e end.
Proof. intros H Hp Hm. specialize (H st Hp). rewrite Hm in H. exact H. Qed.

(** Proving that a library function is framed: follow its statements. *)
Ltac framed_tac solve_ok :=
  repeat first
    [ apply framed_ret | apply framed_raise | apply framed_sys_exit | apply framed_lift
    | apply framed_get | apply framed_print | apply framed_print_lines
    | apply framed_set_dir
    | apply framed_run_aws_command; solve_ok
    | apply framed_bind; [|intros ?]
    | apply framed_try_except; [|intros ?]
    | match goal with
      | |- framed _ (if ?b then _ else _) => destruct b
      | |- framed _ (match ?x with _ => _ end) => destruct x
      | |- framed _ (let '(_, _) := ?x in _) => destruct x
      end ].

Section LibraryFrames.
Context {P : Packaging} {E : Environment}.
Variable ok : aws_call -> Prop.

Lemma framed_acquire_lock bucket garden_dir owner :
  (forall path, ok (S3_ls path)) -> (forall path, ok (S3_cp_stdout path)) ->
  (forall b k body, ok (S3api_put_object b k body)) ->
  framed ok (acquire_lock bucket garden_dir owner).
Proof.
  intros H1 H2 H3. unfold acquire_lock, get_lock_info, check_lock_exists.
  framed_tac ltac:(auto).
Qed.

Lemma framed_release_lock bucket garden_dir :
  (forall path, ok (S3_ls path)) -> (forall path, ok (S3_rm path)) ->
  framed ok (release_lock bucket garden_dir).
Proof.
  intros H1 H2. unfold release_lock, check_lock_exists. framed_tac ltac:(auto).
Qed.

Lemma framed_download_registry bucket garden_dir local_path create_backup :
  (forall path d, ok (S3_sync_down path d)) ->
  framed ok (download_registry bucket garden_dir local_path create_backup).
Proof. intros H1. unfold download_registry. framed_tac ltac:(auto). Qed.

Lemma framed_upload_registry bucket garden_dir local_path delete :
  (forall path, ok (S3_sync_up local_path path delete)) ->
  framed ok (upload_registry bucket garden_dir local_path delete).
Proof. intros H1. unfold upload_registry. framed_tac ltac:(auto). Qed.

Lemma framed_compare_files local_path verify_path filenames :
  framed ok (compare_files local_path verify_path filenames).
Proof.
  induction filenames as [|f rest IH]; cbn [compare_files]; framed_tac ltac:(auto);
    exact IH.
Qed.

Lemma framed_verify_upload bucket garden_dir local_path :
  (forall path d, ok (S3_sync_down path d)) ->
  framed ok (verify_upload bucket garden_dir local_path).
Proof.
  intros H1. unfold verify_upload. framed_tac ltac:(auto). apply framed_compare_files.
Qed.

Lemma framed_run_merge local_registry remote_path repo_version force_entries :
  framed ok (run_merge local_registry remote_path repo_version force_entries).
Proof. unfold run_merge. framed_tac ltac:(auto). Qed.

End LibraryFrames.

Lemma hoare_framed_result {A} ok (m : M A) (Q : state -> Prop) (R : A -> Prop) :
  framed ok m -> stable ok Q ->
  (forall st st' a, m st = (st', Ok a) -> R a) ->
  hoare Q m (fun st a => Q st /\ R a) (fun st _ => Q st).
Proof.
  intros Hf Hs Hr st Hst. specialize (Hf st). specialize (Hr st).
  destruct (m st) as [st' [a|e]]; cbn in Hf.
  - split; [exact (Hs st st' Hf Hst) | exact (Hr st' a eq_refl)].
  - exact (Hs st st' Hf Hst).
Qed.

Lemma hoare_assume {A} (Q : state -> Prop) (fact : Prop) (m : M A) post epost :
  (fact -> hoare Q m post epost) -> hoare (fun st => Q st /\ fact) m post epost.
Proof. intros H st [Hst Hf]. exact (H Hf st Hst). Qed.

Lemma hoare_print_last (line : string) (Q : state -> Prop) post epost :
  (forall st, Q st -> post (add_line line st) tt) ->
  hoare Q (print line) post epost.
Proof. intros H st Hst. exact (H st Hst). Qed.

Lemma hoare_modify_last (f : state -> state) (Q : state -> Prop) post epost :
  (forall st, Q st -> post (f st) tt) ->
  hoare Q (modify f) post epost.
Proof. intros H st Hst. exact (H st Hst). Qed.

Section TryBlock.
Context {P : Packaging} {E : Environment}.
Variables bucket garden_dir : string.

Lemma stable_standing locked backup :
  stable (not_upload bucket garden_dir) (standing bucket garden_dir locked backup).
Proof.
  intros st st' (L & B & H & cs & C & F) (L' & B' & H' & U).
  repeat split; try congruence.
  intros Hb Hin. rewrite C in Hin. apply elem_of_app in Hin. destruct Hin as [Hin|Hin].
  - exact (U Hb Hin).
  - rewrite Forall_forall in F. exact (F _ Hin eq_refl).
Qed.

Lemma stable_standing_backup ok locked backup :
  stable ok (standing bucket garden_dir locked (Some backup)).
Proof.
  intros st st' (L & B & H & _) (L' & B' & H' & _).
  repeat split; congruence.
Qed.

Lemma standing_left_by locked backup st e :
  standing bucket garden_dir locked backup st ->
  (backup = None \/ (backup = Some Backup /\ locked = true)) ->
  left_by bucket garden_dir st e.
Proof.
  intros (L & B & H & U) Hcases. split; [exact H|]. split.
  - intros b Hb. destruct Hcases as [->|[-> ->]]; [congruence|].
    split; [congruence | intros _; exact L].
  - intros Hin. destruct Hcases as [->|[-> _]]; [|exact B].
    exfalso. exact (U eq_refl Hin).
Qed.

Lemma download_registry_result local_path st st' r :
  download_registry bucket garden_dir local_path true st = (st', Ok r) ->
  r = (local_path, Some Backup).
Proof.
  intros H. run_in H. repeat step_in H; congruence.
Qed.


(** The [try] block of a live run, as far as the local variables and the
    upload are concerned. *)
Lemma try_block_standing repo_version local_registry force_entries :
  hoare (standing bucket garden_dir false None)
    (try_block bucket garden_dir repo_version local_registry false force_entries)
    (fun st _ => had_error st = false /\ backup_path st = Some Backup)
    (left_by bucket garden_dir).
Proof.
  unfold try_block.
  assert (Hnone : forall locked st e,
            standing bucket garden_dir locked None st -> left_by bucket garden_dir st e)
    by (intros; eapply standing_left_by; eauto).
  assert (Hsome : forall st e,
            standing bucket garden_dir true (Some Backup) st -> left_by bucket garden_dir st e)
    by (intros; eapply standing_left_by; eauto).
  pose (before := not_upload bucket garden_dir).
  pose (any := fun _ : aws_call => True).
  (* Step 1 *)
  eapply (hoare_step before); [framed_tac idtac | apply stable_standing | apply Hnone | intros _].
  destruct (validate_local_registry _ _) as [is_valid errors].
  do 4 (eapply (hoare_step before);
        [framed_tac idtac | apply stable_standing | apply Hnone | intros _]).
  (* Step 2 *)
  eapply (hoare_bind _ _ _ (fun st _ => standing bucket garden_dir true None st)).
  { eapply (hoare_try_except _ _ _ _ _ _
              (fun st _ => standing bucket garden_dir false None st)).
    - eapply (hoare_bind _ _ _ (fun st _ => standing bucket garden_dir false None st)).
      + eapply hoare_weaken;
          [apply (hoare_framed before _ (standing bucket garden_dir false None));
           [apply framed_acquire_lock; intros; discriminate | apply stable_standing]
          | auto | auto | auto].
      + intros _. apply hoare_modify_last. intros st (L & B & H & U).
        repeat split; assumption.
    - intros e _ st Hst. cbv [mbind M_bind print modify sys_exit raise].
      apply (Hnone false). destruct Hst as (L & B & H & U). repeat split; assumption.
    - intros st e _ Hst. exact (Hnone false st e Hst). }
  intros _.
  (* Step 3 *)
  eapply (hoare_step before); [framed_tac idtac | apply stable_standing | apply Hnone | intros _].
  eapply (hoare_bind _ _ _
            (fun st r => standing bucket garden_dir true None st
                         /\ r = (Working, Some Backup))).
  { eapply hoare_weaken;
      [apply (hoare_framed_result before _ (standing bucket garden_dir true None)
                (fun r => r = (Working, Some Backup)));
       [apply framed_download_registry; intros; discriminate
       | apply stable_standing
       | intros st st' r; apply download_registry_result]
      | auto | auto | intros st e Hst; exact (Hnone true st e Hst)]. }
  intros [remote_path backup]. apply hoare_assume. intros [= -> ->]. cbv beta iota.
  apply (hoare_modify _ _ _ (standing bucket garden_dir true (Some Backup))).
  { intros st (L & B & H & U). repeat split; try assumption; discriminate. }
  (* Steps 4 to 6 *)
  do 2 (eapply (hoare_step any);
        [framed_tac idtac | apply stable_standing_backup | apply Hsome | intros _]).
  eapply (hoare_step any);
    [apply framed_run_merge | apply stable_standing_backup | apply Hsome
    | intros [[success apps_result] tools_result]].
  do 3 (eapply (hoare_step any);
        [framed_tac idtac | apply stable_standing_backup | apply Hsome | intros _]).
  eapply (hoare_step any);
    [apply framed_upload_registry; exact (fun _ => I) | apply stable_standing_backup
    | apply Hsome | intros _].
  eapply (hoare_step any);
    [framed_tac idtac | apply stable_standing_backup | apply Hsome | intros _].
  eapply (hoare_step any);
    [apply framed_verify_upload; exact (fun _ _ => I) | apply stable_standing_backup
    | apply Hsome | intros verified].
  do 2 (eapply (hoare_step any);
        [framed_tac idtac | apply stable_standing_backup | apply Hsome | intros _]).
  (* Step 7 *)
  eapply (hoare_step any);
    [apply framed_release_lock; intros; exact I | apply stable_standing_backup
    | apply Hsome | intros _].
  apply (hoare_modify _ _ _ (standing bucket garden_dir false (Some Backup))).
  { intros st (L & B & H & U). repeat split; try assumption; discriminate. }
  apply hoare_print_last. intros st (L & B & H & U). split; assumption.
Qed.

End TryBlock.


Ltac not_in_calls :=
  let H := fresh in
  intros H;
  repeat (apply elem_of_cons in H; destruct H as [H|H]; [discriminate H|]);
  inversion H.


Lemma delete_object_other (path path' : string) (r : store) :
  path' <> path -> delete_object path r path' = r path'.
Proof.
  intros Hne. unfold delete_object.
  destruct (String.eqb_spec path' path); [contradiction|reflexivity].
Qed.

Lemma delete_object_same (path : string) (r : store) : delete_object path r path = None.
Proof. unfold delete_object. rewrite String.eqb_refl. reflexivity. Qed.



(** *** What the live run raises and prints *)

(** Which exceptions the merge can raise. *)







Section MergeExceptions.
Context {P : Packaging}.









End MergeExceptions.





















Section TraceRules.
Context {E : Environment}.



End TraceRules.








Section LibraryTraces.
Context {P : Packaging} {E : Environment}.













End LibraryTraces.








Section TryBlockTrace.
Context {P : Packaging} {E : Environment}.
Variables bucket garden_dir : string.






End TryBlockTrace.

Section Rollback.
Context {P : Packaging} {E : Environment}.

(** A live run with a configured bucket comes to the [try] statement with
    its local variables initialised and no command issued. *)
Lemma main_live (args : Args) (bucket : string) (st0 st : state) (r : result unit) :
  fresh st0 -> arg_dry_run args = false ->
  get_bucket_for_stage (arg_stage args) = Ok bucket ->
  main args st0 = (st, r) ->
  exists s1,
    standing bucket (garden_dir_for args) false None s1 /\ calls s1 = []
    /\ try_finally
         (try_except
            (try_block bucket (garden_dir_for args) (repo_version_str (arg_repo_version args))
               (arg_local_registry args) false (force_entries_for args))
            is_Exception (except_block bucket (garden_dir_for args)))
         (finally_block bucket (garden_dir_for args)) s1 = (st, r).
Proof.
  intros (Hc & _ & _ & _ & _) Hdry Hbucket Hmain.
  unfold main in Hmain. rewrite Hbucket, Hdry in Hmain.
  eexists. split; [|split; [|exact Hmain]].
  - repeat split. cbn. rewrite Hc. intros _. not_in_calls.
  - cbn. exact Hc.
Qed.





End Rollback.

Section Published.
Context {P : Packaging} {E : Environment}.
Variables (bucket : string) (v : RepoVersion).
Local Abbreviation garden_dir := (get_garden_dir (repo_version_str v)).
Local Abbreviation lock := (lock_s3_path bucket (Some garden_dir)).

(** [merge_registries] writes the output directory exactly when both
    merges succeed, and then it holds the two catalogs and, under the
    images directory, image files. *)
Lemma merge_registries_written (local_path remote_path : dir) (rv : string)
    (force : option (gset string)) (success : bool) (a t : MergeResult)
    (w : option dir) :
  merge_registries local_path remote_path rv force = Ok (success, a, t, w) ->
  (success = false -> w = None)
  /\ (success = true ->
      exists d, w = Some d
                /\ d "apps.json" = Some (JsonArray (merged_entries a))
                /\ d "tools.json" = Some (JsonArray (merged_entries t))
                /\ (lock_outside_catalog rv = true -> d lock_name = None)).
Proof.
  unfold merge_registries.
  destruct (load_registry_json local_path "apps.json"); [|discriminate].
  destruct (load_registry_json remote_path "apps.json"); [|discriminate].
  rewrite !bind_Ok.
  destruct (merge_entries _ _ rv force) as [ra|]; [|discriminate].
  rewrite bind_Ok.
  destruct (load_registry_json local_path "tools.json"); [|discriminate].
  destruct (load_registry_json remote_path "tools.json"); [|discriminate].
  rewrite !bind_Ok.
  destruct (merge_entries _ _ rv force) as [rt|]; [|discriminate].
  rewrite bind_Ok. intros [= <- <- <- <-].
  split; [intros ->; reflexivity|]. intros ->.
  eexists. split; [reflexivity|]. split; [reflexivity|]. split; [reflexivity|].
  unfold lock_outside_catalog. rewrite !andb_true_iff, !negb_true_iff.
  intros [[H1 H2] H3]. rewrite H1, H2.
  apply bool_decide_eq_false_1 in H3.
  destruct (strip_prefix _ lock_name) eqn:Hs; [|reflexivity].
  exfalso. apply H3. eexists. reflexivity.
Qed.


Lemma stable_calls (ok : aws_call -> Prop) :
  stable ok (fun st => Forall ok (calls st)).
Proof.
  intros st st' (_ & _ & _ & cs & -> & F) H. apply Forall_app. split; assumption.
Qed.

Lemma run_merge_written local_registry force_entries st st' success a t :
  lock_outside_catalog (repo_version_str v) = true ->
  run_merge local_registry Working (repo_version_str v) force_entries st
  = (st', Ok (success, a, t)) ->
  success = true -> fs st' Merged lock_name = None.
Proof.
  intros Hout Hmerge ->. unfold run_merge in Hmerge. run_in Hmerge.
  destruct (merge_registries _ _ _ _) as [[[[s a'] t'] w]|] eqn:Hm; run_in Hmerge;
    [|discriminate].
  destruct (merge_registries_written _ _ _ _ _ _ _ _ Hm) as [_ Hw].
  destruct w as [d|]; run_in Hmerge; injection Hmerge as Hst Hs Ha Ht; subst.
  - destruct (Hw eq_refl) as (d' & [= <-] & _ & _ & Hlock). exact (Hlock Hout).
  - destruct (Hw eq_refl) as (d & Hd & _). discriminate.
Qed.

Hypothesis all_succeed : forall h c, oracle h c = Succeeds.
Hypothesis nobody_else : quiet.
Hypothesis outside : lock_outside_catalog (repo_version_str v) = true.

(** The [try] block of a live run on the success path. *)
Lemma try_block_published local_registry force_entries :
  hoare (fun st => Forall (preparatory bucket garden_dir) (calls st))
    (try_block bucket garden_dir (repo_version_str v) local_registry false force_entries)
    (fun st _ =>
       lock_acquired st = false /\ remote st lock = None
       /\ (exists before,
             calls st = before ++ [upload_call bucket garden_dir;
                                   S3_sync_down (catalog_prefix bucket garden_dir) Verify;
                                   S3_ls lock]
             /\ Forall (preparatory bucket garden_dir) before)
       /\ printed_block ["--- Step 7: Release Lock ---"; "No lock to release";
                         "=== Upsert Complete ==="] st)
    (fun st _ => Forall (preparatory bucket garden_dir) (calls st)).
Proof.
  unfold try_block.
  pose (ok := preparatory bucket garden_dir).
  pose (Q := fun st : state => Forall ok (calls st)).
  assert (Hq : forall st (e : exn), Q st -> Q st) by auto.
  (* Step 1 *)
  eapply (hoare_step ok _ _ Q); [framed_tac idtac | apply stable_calls | apply Hq | intros _].
  destruct (validate_local_registry _ _) as [is_valid errors].
  do 4 (eapply (hoare_step ok _ _ Q);
        [framed_tac idtac | apply stable_calls | apply Hq | intros _]).
  (* Step 2 *)
  eapply (hoare_bind _ _ _ (fun st _ => Q st)).
  { eapply (hoare_try_except _ _ _ _ _ _ (fun st _ => Q st)).
    - eapply (hoare_bind _ _ _ (fun st _ => Q st)).
      + eapply hoare_weaken;
          [apply (hoare_framed ok _ Q);
           [apply framed_acquire_lock; intros; split; discriminate | apply stable_calls]
          | auto | auto | auto].
      + intros _. apply hoare_modify_last. intros st Hst. exact Hst.
    - intros e _ st Hst. exact Hst.
    - intros st e _ Hst. exact Hst. }
  intros _.
  (* Step 3 *)
  eapply (hoare_step ok _ _ Q); [framed_tac idtac | apply stable_calls | apply Hq | intros _].
  eapply (hoare_bind _ _ _ (fun st r => Q st /\ r = (Working, Some Backup))).
  { eapply hoare_weaken;
      [apply (hoare_framed_result ok _ Q (fun r => r = (Working, Some Backup)));
       [apply framed_download_registry; intros; split; discriminate
       | apply stable_calls
       | intros st st' r; apply download_registry_result]
      | auto | auto | auto]. }
  intros [remote_path backup]. apply hoare_assume. intros [= -> ->]. cbv beta iota.
  apply (hoare_modify _ _ _ Q); [auto|].
  do 2 (eapply (hoare_step ok _ _ Q);
        [framed_tac idtac | apply stable_calls | apply Hq | intros _]).
  (* Step 4 *)
  eapply (hoare_bind _ _ _
            (fun st r => Q st /\ (r.1.1 = true -> fs st Merged lock_name = None))).
  { intros st Hst.
    pose proof (framed_run_merge ok local_registry Working (repo_version_str v)
                  force_entries st) as Hf.
    destruct (run_merge _ _ _ _ st) as [st' [[[success a] t]|e]] eqn:Hm; cbn in Hf.
    - split; [exact (stable_calls ok st st' Hf Hst)|].
      exact (run_merge_written _ _ _ _ _ _ _ outside Hm).
    - exact (stable_calls ok st st' Hf Hst). }
  intros [[success a] t] st [Hst Hm]. cbn [fst] in Hm.
  destruct st as [r2 f2 c2 p2 l2 b2 h2]. cbn [fs calls] in Hst, Hm. subst Q. cbv beta in Hst.
  match goal with |- let (_, _) := ?m ?s in _ => destruct (m s) as [st' res] eqn:Hrun end.
  destruct success.
  2:{ run_in Hrun. injection Hrun as <- <-. exact Hst. }
  specialize (Hm eq_refl).
  assert (Hgone : forall r : store,
            sync_to_remote (f2 Merged) (s3_path bucket ("garden/" +:+ garden_dir +:+ "/"))
              true (fun _ => true) r (lock_s3_path bucket (Some garden_dir)) = None).
  { intros r. rewrite lock_s3_path_under_prefix.
    unfold catalog_prefix. rewrite sync_to_remote_mirror. exact Hm. }
  run_in Hrun. unfold quiet in nobody_else.
  repeat (first [ rewrite all_succeed in Hrun | rewrite nobody_else in Hrun
                | rewrite Hgone in Hrun
                | rewrite compare_files_same in Hrun by (intros; apply sync_round_trip) ];
          run_in Hrun).
  injection Hrun as <- <-. cbn [lock_acquired remote calls].
  split; [reflexivity|]. split; [apply Hgone|]. split.
  - exists c2. split; [rewrite <- !app_assoc; reflexivity | exact Hst].
  - unfold printed_block. cbn [printed].
    match goal with
    | |- context [(?pre ++ ["--- Step 7: Release Lock ---"]) ++ _] => exists pre, []
    end.
    rewrite app_nil_r, <- !app_assoc. reflexivity.
Qed.

End Published.

Section Upload.
Context {P : Packaging} {E : Environment}.

(** C9: the upload is a mirrored sync with delete under the prefix that
    also holds the lock key, and the merged output holds no file of the
    lock's name: a successful upload therefore removes the lock marker.
    On the success path (every command succeeds, nobody else writes) the
    release step that follows only lists the lock path, finds nothing to
    release, issues no removal, and the store has no lock marker from the
    upload to the end of the run: after the upload the run only reads. *)
Theorem upload_removes_lock (args : Args) (bucket : string) :
  lock_outside_catalog (repo_version_str (arg_repo_version args)) = true ->
  (forall st st1 st2 apps_result tools_result b,
     run_merge (arg_local_registry args) Working
       (repo_version_str (arg_repo_version args)) (force_entries_for args) st
     = (st1, Ok (true, apps_result, tools_result)) ->
     upload_registry bucket (garden_dir_for args) Merged true st1 = (st2, Ok b) ->
     remote st2 (lock_s3_path bucket (Some (garden_dir_for args))) = None)
  /\ (forall st0 st r,
        fresh st0 -> arg_dry_run args = false ->
        (forall h c, oracle h c = Succeeds) -> quiet ->
        get_bucket_for_stage (arg_stage args) = Ok bucket ->
        main args st0 = (st, r) ->
        upload_call bucket (garden_dir_for args) ∈ calls st ->
        exit_code r = 0
        /\ remote st (lock_s3_path bucket (Some (garden_dir_for args))) = None
        /\ (exists before,
              calls st = before
                ++ [upload_call bucket (garden_dir_for args);
                    S3_sync_down (catalog_prefix bucket (garden_dir_for args)) Verify;
                    S3_ls (lock_s3_path bucket (Some (garden_dir_for args)))]
              /\ upload_call bucket (garden_dir_for args) ∉ before)
        /\ (S3_rm (lock_s3_path bucket (Some (garden_dir_for args))) ∉ calls st)
        /\ printed_block ["--- Step 7: Release Lock ---"; "No lock to release";
                          "=== Upsert Complete ==="] st).
Proof.
  intros Hout. split.
  - intros st st1 st2 a t b Hmerge Hup.
    pose proof (run_merge_written _ _ _ _ _ _ _ _ Hout Hmerge eq_refl) as Hm.
    run_in Hup. step_in Hup; [|discriminate].
    injection Hup as <- _. cbn [remote].
    unfold garden_dir_for. rewrite lock_s3_path_under_prefix.
    unfold catalog_prefix. rewrite sync_to_remote_mirror. exact Hm.
  - intros st0 st r Hfresh Hdry Hall Hquiet Hbucket Hmain Hreach.
    destruct (main_live args bucket st0 st r Hfresh Hdry Hbucket Hmain)
      as (s1 & Hs1 & Hc1 & Hrun).
    clear Hmain Hfresh.
    unfold try_finally, try_except in Hrun.
    destruct (try_block _ _ _ _ _ _ s1) as [s2 res] eqn:Htry.
    pose proof (hoare_run _ _ _ _ _ _ _ (try_block_standing bucket _ _ _ _) Hs1 Htry) as Hres.
    assert (Hprep : Forall (preparatory bucket (garden_dir_for args)) (calls s1))
      by (rewrite Hc1; constructor).
    pose proof (hoare_run _ _ _ _ _ _ _
                  (try_block_published bucket (arg_repo_version args) Hall Hquiet Hout _ _)
                  Hprep Htry) as Hpub.
    clear Htry Hs1 Hc1 Hprep s1 st0.
    destruct s2 as [r2 f2 c2 p2 l2 b2 h2].
    unfold left_by in Hres.
    cbn [had_error backup_path lock_acquired calls remote] in Hres, Hpub.
    destruct res as [[]|e].
    + destruct Hres as [-> ->]. destruct Hpub as (-> & Hgone & (before & -> & Hbefore) & Hprinted).
      run_in Hrun. injection Hrun as <- <-. cbn [remote calls exit_code].
      rewrite Forall_forall in Hbefore.
      split; [reflexivity|]. split; [exact Hgone|]. split; [|split].
      * exists before. split; [reflexivity|]. intros Hin. exact (proj1 (Hbefore _ Hin) eq_refl).
      * intros Hin. apply elem_of_app in Hin. destruct Hin as [Hin|Hin].
        -- exact (proj2 (Hbefore _ Hin) eq_refl).
        -- revert Hin. not_in_calls.
      * exact Hprinted.
    + exfalso. destruct Hres as (-> & Hb & _).
      assert (Hnew : forall new, upload_call bucket (garden_dir_for args) ∉ new ->
                upload_call bucket (garden_dir_for args) ∉ c2 ++ new).
      { intros new Hnew Hin. apply elem_of_app in Hin. destruct Hin as [Hin|Hin].
        - rewrite Forall_forall in Hpub. exact (proj1 (Hpub _ Hin) eq_refl).
        - exact (Hnew Hin). }
      destruct b2 as [b|]; [destruct (Hb b eq_refl) as [-> _]|]; clear Hb.
      all: run_in Hrun; repeat step_in Hrun.
      all: injection Hrun as <- <-; cbn [calls] in Hreach.
      all: rewrite <- ?app_assoc in Hreach.
      all: try (revert Hreach; apply Hnew; not_in_calls).
      all: apply (Hnew []); [not_in_calls | rewrite app_nil_r; exact Hreach].
Qed.

End Upload.

(** ** The theorems at concrete entries *)

Import Samples.

Lemma determine_upsert_action_v1_cases_witness :
  exists r,
    determine_upsert_action_v1 (v1_entry "app" "1.1.0") [v1_entry "app" "1.0.0"] = Ok r
    /\ action r = REPLACE /\ replaced_entries r = [v1_entry "app" "1.0.0"]
    /\ new_entry r = v1_entry "app" "1.1.0".
Proof.
  refine (proj1 (proj2 (determine_upsert_action_v1_cases
            (v1_entry "app" "1.1.0") [v1_entry "app" "1.0.0"] "app" "1.1.0"
            eq_refl eq_refl) (v1_entry "app" "1.0.0") [] "1.0.0" eq_refl eq_refl) _).
  vm_compute. reflexivity.
Defined.

Lemma forced_upsert_never_fails_witness :
  exists r,
    _determine_upsert_action (v1_entry "app" "0.9.0")
      [v2_entry "app" "1.0.0" ">=0.8.0"; v1_entry "app" "2.0.0"] "v2" {[ "app" ]} = Ok r
    /\ new_entry r = v1_entry "app" "0.9.0"
    /\ action r <> FAIL
    /\ ([v2_entry "app" "1.0.0" ">=0.8.0"; v1_entry "app" "2.0.0"] = [] ->
        action r = INSERT /\ replaced_entries r = [])
    /\ ([v2_entry "app" "1.0.0" ">=0.8.0"; v1_entry "app" "2.0.0"] <> [] ->
        action r = REPLACE
        /\ replaced_entries r = [v2_entry "app" "1.0.0" ">=0.8.0"; v1_entry "app" "2.0.0"]).
Proof.
  apply (forced_upsert_never_fails (v1_entry "app" "0.9.0")
           [v2_entry "app" "1.0.0" ">=0.8.0"; v1_entry "app" "2.0.0"] "v2" {[ "app" ]} "app").
  - reflexivity.
  - apply elem_of_singleton. reflexivity.
Defined.

Lemma determine_upsert_action_v2_cases_witness :
  (exists r,
     determine_upsert_action_v2 (v2_entry "app" "1.1.0" ">=0.9.0,<1.0.0")
       [v2_entry "app" "1.0.0" ">=0.8.0,<0.9.0"; v2_entry "app" "1.0.0" ">=0.8.0,<0.9.5"]
     = Ok r /\ action r = FAIL)
  /\ (exists r,
        determine_upsert_action_v2 (v2_entry "app" "1.1.0" ">=0.8.0,<1.0.0")
          [v2_entry "app" "1.0.0" ">=0.9.0,<1.0.0"; v2_entry "app" "1.0.0" ">=1.5.0"]
        = Ok r
        /\ replaced_entries r
           = filter (marked "1.1.0" ">=0.8.0,<1.0.0")
               [v2_entry "app" "1.0.0" ">=0.9.0,<1.0.0"; v2_entry "app" "1.0.0" ">=1.5.0"]
        /\ action r = match replaced_entries r with [] => INSERT | _ :: _ => REPLACE end).
Proof.
  split.
  - refine (proj1 (proj2 (proj2 (determine_upsert_action_v2_cases
              (v2_entry "app" "1.1.0" ">=0.9.0,<1.0.0") _ "app" "1.1.0" eq_refl eq_refl)
              ">=0.9.0,<1.0.0" eq_refl _))
              [v2_entry "app" "1.0.0" ">=0.8.0,<0.9.0"]
              (v2_entry "app" "1.0.0" ">=0.8.0,<0.9.5") [] eq_refl _ _).
    + discriminate.
    + constructor; [left; vm_compute; reflexivity | constructor].
    + vm_compute. reflexivity.
  - refine (proj2 (proj2 (proj2 (determine_upsert_action_v2_cases
              (v2_entry "app" "1.1.0" ">=0.8.0,<1.0.0") _ "app" "1.1.0" eq_refl eq_refl)
              ">=0.8.0,<1.0.0" eq_refl _)) _).
    + discriminate.
    + constructor; [right; vm_compute; reflexivity|].
      constructor; [left; vm_compute; reflexivity | constructor].
Defined.

Lemma merge_entries_all_or_nothing_witness :
  merge_entries blocked_local blocked_remote "v1" None
  = Ok {| success := false; merged_entries := []; actions := blocked_decisions;
          errors := ["Cannot mutate existing version 1.0.0"] |}.
Proof.
  refine (proj1 (merge_entries_all_or_nothing blocked_local blocked_remote "v1" None
                   blocked_decisions _ _)).
  - apply map_result_Forall2. vm_compute. reflexivity.
  - apply Exists_cons_tl, Exists_cons_hd. reflexivity.
Defined.

Lemma merge_entries_replaces_by_key_witness :
  merge_entries twin_local twin_remote "v1" None
  = Ok {| success := true;
          merged_entries := [v1_entry "other" "3.0.0"; v1_entry "app" "1.1.0"];
          actions := twin_decisions; errors := [] |}
  /\ described "second" (v1_entry "app" "1.0.0")
     ∉ [v1_entry "other" "3.0.0"; v1_entry "app" "1.1.0"].
Proof.
  assert (Hd : Forall2 (fun c r => decision twin_remote "v1" None c = Ok r)
                 twin_local twin_decisions)
    by (apply map_result_Forall2; vm_compute; reflexivity).
  assert (Hnf : Forall (fun r => action r <> FAIL) twin_decisions)
    by (repeat constructor; discriminate).
  destruct (merge_entries_replaces_by_key twin_local twin_remote "v1" None
              twin_decisions Hd Hnf) as [Hm Hk].
  assert (Hkept : kept_entries twin_decisions twin_remote = [v1_entry "other" "3.0.0"])
    by (vm_compute; reflexivity).
  rewrite Hkept in Hm, Hk. split; [exact Hm|].
  refine (proj2 (Hk _ (described "first" (v1_entry "app" "1.0.0"))
                   (described "second" (v1_entry "app" "1.0.0"))
                   (list_elem_of_here _ _) eq_refl (list_elem_of_here _ _) eq_refl) _).
  intros H. apply elem_of_cons in H. destruct H as [H|H]; [discriminate | inversion H].
Defined.



Import WorkflowSamples.

Lemma dry_run_never_locks_witness :
  lock_acquired (main (E := calm) (sample_args upgrade_registry true) sample_state).1 = false
  /\ exit_code (main (E := calm) (sample_args upgrade_registry true) sample_state).2 = 0.
Proof.
  pose proof (dry_run_never_locks (E := calm) (sample_args upgrade_registry true)
                sample_state _ _ ltac:(repeat split) eq_refl
                (surjective_pairing _)) as (Hlock & _ & _ & Hexit).
  split; [exact Hlock|].
  match type of Hexit with
  | forall bucket errors success apps_result tools_result written, _ =>
      edestruct (Hexit "registry" [] true) as [_ Hcode]
  end.
  - vm_compute. reflexivity.
  - vm_compute. reflexivity.
  - vm_compute. reflexivity.
  - exact Hcode.
Defined.

(** C5 as stated fails: a dry run whose simulated merge finds a conflict
    (the local registry offers a version that the remote already holds)
    prints the summary and then leaves with exit code 1, not 0. *)
Lemma dry_run_conflict_exit_code :
  arg_dry_run (sample_args conflict_registry true) = true
  /\ exit_code (main (E := calm) (sample_args conflict_registry true) sample_state).2 = 1
  /\ calls (main (E := calm) (sample_args conflict_registry true) sample_state).1
     = [S3_sync_down "s3://registry/garden/v2/" Scratch].
Proof. repeat split; vm_compute; reflexivity. Qed.



Lemma upload_removes_lock_witness :
  exit_code (main (E := calm) (sample_args upgrade_registry false) sample_state).2 = 0
  /\ remote (main (E := calm) (sample_args upgrade_registry false) sample_state).1
       "s3://registry/garden/v2/registry.lock" = None
  /\ S3_rm "s3://registry/garden/v2/registry.lock"
       ∉ calls (main (E := calm) (sample_args upgrade_registry false) sample_state).1.
Proof.
  destruct (upload_removes_lock (E := calm) (sample_args upgrade_registry false) "registry"
              ltac:(vm_compute; reflexivity)) as [_ Hrun].
  destruct (Hrun sample_state _ _ ltac:(repeat split) eq_refl
              (fun _ _ => eq_refl) (fun _ _ => eq_refl) ltac:(vm_compute; reflexivity)
              (surjective_pairing _)
              ltac:(apply list_elem_of_In; vm_compute; tauto))
    as (Hexit & Hlock & _ & Hrm & _).
  split; [exact Hexit|]. split; [exact Hlock | exact Hrm].
Defined.

(** * Further properties of the code *)

Import CatalogSpec.

(** ** Constraint comparison and validation *)

Lemma forallb_false_witness {A} (f : A -> bool) (l : list A) :
  forallb f l = false -> exists x, In x l /\ f x = false.
Proof.
  induction l as [|x l IH]; cbn; [discriminate|].
  destruct (f x) eqn:Hx; cbn.
  - intros H. destruct (IH H) as (y & Hy & Hf). exists y. split; [right|]; assumption.
  - intros _. exists x. split; [left; reflexivity | exact Hx].
Qed.

Lemma existsb_false_all {A} (f : A -> bool) (l : list A) :
  existsb f l = false -> forall x, In x l -> f x = false.
Proof.
  intros H x Hx. destruct (f x) eqn:Hf; [|reflexivity].
  assert (existsb f l = true) by (apply existsb_exists; exists x; split; assumption).
  congruence.
Qed.

Section ConstraintMeaning.
Context {P : Packaging}.

Lemma compare_constraints_unfolded (c1 c2 : string) (s1 s2 : SpecifierSet)
    (tvs : list Version) :
  parse_constraint c1 = Ok s1 -> parse_constraint c2 = Ok s2 ->
  get_test_versions = Ok tvs ->
  compare_constraints c1 c2
  = Ok (if forallb (fun v => eqb (SpecifierSet_contains s1 v) (SpecifierSet_contains s2 v)) tvs
        then SAME
        else if negb (existsb (fun v => SpecifierSet_contains s1 v
                                        && SpecifierSet_contains s2 v) tvs)
        then DISJOINT
        else
          let sup1 := forallb (fun v => negb (SpecifierSet_contains s2 v
                                              && negb (SpecifierSet_contains s1 v))) tvs in
          let sup2 := forallb (fun v => negb (SpecifierSet_contains s1 v
                                              && negb (SpecifierSet_contains s2 v))) tvs in
          if sup1 && negb sup2 then SUPERSET
          else if sup2 && negb sup1 then SUBSET else PARTIAL).
Proof.
  intros H1 H2 Ht.
  unfold compare_constraints, constraints_equal, constraints_overlap, is_superset.
  rewrite H1, H2, Ht. cbn.
  destruct (forallb _ tvs); [reflexivity|]. cbn.
  destruct (existsb _ tvs); [|reflexivity]. cbn.
  destruct (forallb _ tvs), (forallb _ tvs); reflexivity.
Qed.

(** X1: the relationship that [compare_constraints] returns describes the
    two specifier sets on the sampled versions: SAME when they agree on
    every sampled version, DISJOINT when no sampled version is in both
    (and they differ), SUPERSET and SUBSET when one covers the other and
    they overlap and differ, PARTIAL only when each has a sampled version
    that the other lacks. *)
Theorem compare_constraints_meaning (c1 c2 : string) (s1 s2 : SpecifierSet)
    (tvs : list Version) :
  parse_constraint c1 = Ok s1 -> parse_constraint c2 = Ok s2 ->
  get_test_versions = Ok tvs ->
  exists r, compare_constraints c1 c2 = Ok r /\ relates tvs s1 s2 r.
Proof.
  intros H1 H2 Ht. rewrite (compare_constraints_unfolded c1 c2 s1 s2 tvs H1 H2 Ht).
  eexists. split; [reflexivity|].
  destruct (forallb _ tvs) eqn:Heq.
  { intros v Hv. rewrite forallb_forall in Heq. apply eqb_prop, Heq, Hv. }
  apply forallb_false_witness in Heq. destruct Heq as (d & Hd & Hdiff).
  destruct (existsb _ tvs) eqn:Hov; cbn [negb].
  2:{ split.
      - intros v Hv [Ha Hb]. pose proof (existsb_false_all _ _ Hov v Hv) as Hf.
        cbv beta in Hf. rewrite Ha, Hb in Hf. discriminate.
      - exists d. split; [exact Hd|].
        pose proof (existsb_false_all _ _ Hov d Hd) as Hf. cbv beta in Hf.
        destruct (SpecifierSet_contains s1 d), (SpecifierSet_contains s2 d);
          try discriminate; [left | right]; split; reflexivity. }
  apply existsb_exists in Hov. destruct Hov as (o & Ho & Hboth).
  apply andb_true_iff in Hboth.
  cbv zeta.
  destruct (forallb (fun v => negb (SpecifierSet_contains s2 v && _)) tvs) eqn:Hs1;
    destruct (forallb (fun v => negb (SpecifierSet_contains s1 v && _)) tvs) eqn:Hs2;
    cbn [andb negb].
  - (* both cover the other: they would agree on every sampled version *)
    exfalso. rewrite forallb_forall in Hs1, Hs2.
    specialize (Hs1 d Hd). specialize (Hs2 d Hd). cbv beta in Hs1, Hs2.
    destruct (SpecifierSet_contains s1 d), (SpecifierSet_contains s2 d); discriminate.
  - apply forallb_false_witness in Hs2. destruct Hs2 as (w & Hw & Hw').
    split; [|split].
    + intros v Hv [Ha Hb]. rewrite forallb_forall in Hs1. specialize (Hs1 v Hv).
      cbv beta in Hs1. rewrite Ha, Hb in Hs1. discriminate.
    + exists o. split; assumption.
    + exists w. split; [exact Hw|].
      destruct (SpecifierSet_contains s1 w), (SpecifierSet_contains s2 w);
        try discriminate; split; reflexivity.
  - apply forallb_false_witness in Hs1. destruct Hs1 as (w & Hw & Hw').
    split; [|split].
    + intros v Hv [Ha Hb]. rewrite forallb_forall in Hs2. specialize (Hs2 v Hv).
      cbv beta in Hs2. rewrite Ha, Hb in Hs2. discriminate.
    + exists o. split; assumption.
    + exists w. split; [exact Hw|].
      destruct (SpecifierSet_contains s1 w), (SpecifierSet_contains s2 w);
        try discriminate; split; reflexivity.
  - apply forallb_false_witness in Hs1. destruct Hs1 as (w1 & Hw1 & Hw1').
    apply forallb_false_witness in Hs2. destruct Hs2 as (w2 & Hw2 & Hw2').
    split; [|split].
    + exists o. split; assumption.
    + exists w2. split; [exact Hw2|].
      destruct (SpecifierSet_contains s1 w2), (SpecifierSet_contains s2 w2);
        try discriminate; split; reflexivity.
    + exists w1. split; [exact Hw1|].
      destruct (SpecifierSet_contains s1 w1), (SpecifierSet_contains s2 w1);
        try discriminate; split; reflexivity.
Qed.

(** X2: a valid constraint compared with itself is SAME, and two
    constraints that no sampled version satisfies are SAME as well, however
    they are written. *)
Theorem compare_constraints_same (c1 c2 : string) (s1 s2 : SpecifierSet)
    (tvs : list Version) :
  parse_constraint c1 = Ok s1 -> parse_constraint c2 = Ok s2 ->
  get_test_versions = Ok tvs ->
  compare_constraints c1 c1 = Ok SAME
  /\ ((forall v, In v tvs -> SpecifierSet_contains s1 v = false
                             /\ SpecifierSet_contains s2 v = false) ->
      compare_constraints c1 c2 = Ok SAME).
Proof.
  intros H1 H2 Ht. split.
  - rewrite (compare_constraints_unfolded c1 c1 s1 s1 tvs H1 H1 Ht).
    replace (forallb _ tvs) with true; [reflexivity|].
    symmetry. apply forallb_forall. intros v _. apply eqb_reflx.
  - intros Hnone. rewrite (compare_constraints_unfolded c1 c2 s1 s2 tvs H1 H2 Ht).
    replace (forallb _ tvs) with true; [reflexivity|].
    symmetry. apply forallb_forall. intros v Hv.
    destruct (Hnone v Hv) as [-> ->]. reflexivity.
Qed.

End ConstraintMeaning.

(** ** Validation and merge *)

Section ValidationProperties.
Context {P : Packaging}.

Lemma validate_version_true (v : string) :
  (validate_version v).1 = true <-> v <> "" /\ is_ok (parse_version v).
Proof.
  unfold validate_version. destruct (decide (v = "")) as [->|Hne]; cbn.
  - split; [discriminate | intros [H _]; contradiction].
  - destruct (parse_version v) as [x|x]; cbn.
    + split; [intros _; split; [exact Hne | eexists; reflexivity] | reflexivity].
    + split; [discriminate | intros [_ [y Hy]]; discriminate].
Qed.

Lemma validate_constraint_true (c : string) :
  (validate_constraint c).1 = true <-> c <> "" /\ is_ok (parse_constraint c).
Proof.
  unfold validate_constraint. destruct (decide (c = "")) as [->|Hne]; cbn.
  - split; [discriminate | intros [H _]; contradiction].
  - destruct (parse_constraint c) as [x|x]; cbn.
    + split; [intros _; split; [exact Hne | eexists; reflexivity] | reflexivity].
    + split; [discriminate | intros [_ [y Hy]]; discriminate].
Qed.

Lemma app_singleton_not_nil {A} (l : list A) (x : A) : l ++ [x] <> [].
Proof. destruct l; discriminate. Qed.

(** X3: [validate_entry] reports no error exactly for the entries that have
    a name, a non-empty version that parses and, in format v2, a non-empty
    kamiwaza_version that parses as a specifier set. *)
Theorem validate_entry_sound (e : entry) (garden_version : string) :
  validate_entry e garden_version = [] <-> well_formed garden_version e.
Proof.
  unfold validate_entry, well_formed.
  destruct e as [n v k p]. cbn [e_name e_version e_kamiwaza_version].
  pose proof (validate_version_true) as Hv.
  pose proof (validate_constraint_true) as Hc.
  destruct n as [n|], v as [v|]; cbn [mbind list_bind fmap mjoin app fst snd].
  2,3,4: split;
    [ intros H; exfalso; revert H;
      repeat match goal with
             | |- context [match ?x with _ => _ end] => destruct x
             end;
      first [discriminate | apply app_singleton_not_nil]
    | intros (Hn & (v0 & Hv0 & _) & _);
      first [discriminate Hv0 | destruct Hn as [? Hn]; discriminate Hn] ].
  specialize (Hv v). destruct (validate_version v) as [[] err]; cbn [fst] in Hv.
  2:{ split.
      - intros H. exfalso. revert H.
        repeat match goal with
               | |- context [match ?x with _ => _ end] => destruct x
               end;
          first [discriminate | apply app_singleton_not_nil].
      - intros (_ & (v0 & [= <-] & Hne & Hok) & _).
        assert (false = true) by (apply Hv; split; assumption). discriminate. }
  destruct (decide (garden_version = "v2")) as [Hgv|Hgv].
  2:{ split; [|reflexivity]. intros _.
      split; [eexists; reflexivity|]. split; [|contradiction].
      exists v. split; [reflexivity | apply Hv; reflexivity]. }
  destruct k as [c|]; cbn [falsy default].
  2:{ split; [discriminate|]. intros (_ & _ & Hk). destruct (Hk Hgv) as (c & Hc' & _).
      discriminate. }
  specialize (Hc c). destruct c as [|a c].
  { split; [discriminate|]. intros (_ & _ & Hk).
    destruct (Hk Hgv) as (c' & [= <-] & Hne & _). contradiction. }
  cbn [falsy id]. destruct (validate_constraint (String a c)) as [[] err']; cbn [fst] in Hc.
  - split; [|reflexivity]. intros _. split; [eexists; reflexivity|]. split.
    + exists v. split; [reflexivity | apply Hv; reflexivity].
    + intros _. eexists. split; [reflexivity | apply Hc; reflexivity].
  - split; [discriminate|]. intros (_ & _ & Hk).
    destruct (Hk Hgv) as (c' & [= <-] & Hne & Hok).
    assert (false = true) by (apply Hc; split; assumption). discriminate.
Qed.

End ValidationProperties.

Section MergeTotality.
Context {P : Packaging}.

Lemma compare_versions_ok (a b : string) :
  is_ok (parse_version a) -> is_ok (parse_version b) -> is_ok (compare_versions a b).
Proof.
  intros [va Ha] [vb Hb]. unfold compare_versions. rewrite Ha, Hb. cbn.
  destruct (Version_lt vb va); [eexists; reflexivity|].
  destruct (Version_lt va vb); eexists; reflexivity.
Qed.

Lemma v2_loop_ok name new_version new_constraint ne (existing acc : list entry) :
  is_ok (parse_version new_version) -> is_ok (parse_constraint new_constraint) ->
  is_ok get_test_versions ->
  Forall (well_formed "v2") existing ->
  is_ok (v2_loop name new_version new_constraint ne existing acc).
Proof.
  intros Hv Hc [tvs Ht] Hall. revert acc.
  induction Hall as [|e rest He _ IH]; intros acc.
  - destruct acc; eexists; reflexivity.
  - destruct He as (_ & (ve & Hve & _ & Hpe) & Hk).
    destruct (Hk eq_refl) as (ce & Hce & Hne & Hpc).
    cbn [v2_loop]. rewrite Hve, Hce. cbn [subscript of_option].
    rewrite bind_Ok.
    destruct ce as [|a ce]; [contradiction|]. cbn [falsy default id].
    destruct (compare_constraints_ok new_constraint (String a ce) tvs Hc Hpc Ht) as [r Hr].
    rewrite Hr, bind_Ok.
    destruct (compare_versions_ok new_version ve Hv Hpe) as [cmp Hcmp].
    destruct r; try apply IH; try (eexists; reflexivity).
    rewrite Hcmp, bind_Ok. destruct cmp; try apply IH; eexists; reflexivity.
Qed.

Lemma decision_ok remote gv force (c : entry) :
  gv = "v1" \/ gv = "default" \/ gv = "v2" ->
  is_ok get_test_versions ->
  Forall (well_formed gv) remote -> well_formed gv c ->
  is_ok (decision remote gv force c).
Proof.
  intros Hgv Ht Hremote ([n Hn] & (v & Hv & _ & Hpv) & Hk).
  assert (Hex : Forall (well_formed gv) (existing_for remote c)).
  { rewrite existing_for_filter. apply Forall_forall. intros e He.
    apply list_elem_of_filter in He. rewrite Forall_forall in Hremote.
    apply Hremote, He. }
  unfold decision, _determine_upsert_action.
  destruct (decide _) as [_|_].
  { unfold determine_upsert_action_forced. rewrite Hn. cbn [subscript of_option].
    rewrite bind_Ok. destruct (existing_for remote c); eexists; reflexivity. }
  destruct (decide _) as [_|Hnot].
  - unfold determine_upsert_action_v1. rewrite Hn, Hv. cbn [subscript of_option].
    rewrite !bind_Ok.
    destruct (existing_for remote c) as [|e rest]; [eexists; reflexivity|].
    apply Forall_cons_1 in Hex. destruct Hex as [(_ & (ve & Hve & _ & Hpe) & _) _].
    rewrite Hve. cbn [subscript of_option]. rewrite bind_Ok.
    destruct (compare_versions_ok v ve Hpv Hpe) as [cmp Hcmp].
    rewrite Hcmp, bind_Ok. destruct cmp; eexists; reflexivity.
  - assert (gv = "v2") as -> by tauto.
    destruct (Hk eq_refl) as (k & Hkc & Hne & Hpc).
    unfold determine_upsert_action_v2. rewrite Hn, Hv, Hkc. cbn [subscript of_option].
    rewrite !bind_Ok. destruct k as [|a k]; [contradiction|]. cbn [falsy default id].
    destruct (existing_for remote c) as [|e rest]; [eexists; reflexivity|].
    apply v2_loop_ok; try assumption; eexists; eassumption.
Qed.

Lemma map_result_ok {A B} (f : A -> result B) (l : list A) :
  Forall (fun x => is_ok (f x)) l -> is_ok (map_result f l).
Proof.
  induction 1 as [|x l [y Hy] _ [ys Hys]]; [eexists; reflexivity|].
  cbn [map_result]. rewrite Hy, bind_Ok, Hys, bind_Ok. eexists. reflexivity.
Qed.

(** X4: on catalogs that pass [validate_entry], the merge raises no
    exception: every candidate is decided and [merge_entries] returns a
    MergeResult (a success or a list of conflicts). *)
Theorem merge_entries_total_on_valid
    (local remote : list entry) (gv : string) (force : option (gset string)) :
  gv = "v1" \/ gv = "default" \/ gv = "v2" ->
  is_ok get_test_versions ->
  Forall (fun e => validate_entry e gv = []) local ->
  Forall (fun e => validate_entry e gv = []) remote ->
  exists res, merge_entries local remote gv force = Ok res
              /\ length (actions res) = length local
              /\ (success res = true <-> errors res = []).
Proof.
  intros Hgv Ht Hlocal Hremote.
  assert (Hr : Forall (well_formed gv) remote).
  { eapply Forall_impl; [exact Hremote|]. intros e He. apply validate_entry_sound, He. }
  destruct (map_result_ok (decision remote gv force) local) as [rs Hrs].
  { eapply Forall_impl; [exact Hlocal|]. intros e He.
    apply decision_ok; try assumption. apply validate_entry_sound, He. }
  rewrite merge_entries_decided, Hrs, bind_Ok.
  apply map_result_Forall2 in Hrs. apply Forall2_length in Hrs.
  destruct (collected_errors rs) eqn:He; eexists; (split; [reflexivity|]); cbn.
  - split; [congruence | tauto].
  - split; [congruence|]. split; discriminate.
Qed.

End MergeTotality.

Section MergeEdges.
Context {P : Packaging}.

(** X5: an empty batch merges to the remote catalog itself: success, no
    action, no error, every remote entry kept in its place. *)
Theorem merge_entries_empty_batch (remote : list entry) (gv : string)
    (force : option (gset string)) :
  merge_entries [] remote gv force
  = Ok {| success := true; merged_entries := remote; actions := []; errors := [] |}.
Proof.
  rewrite merge_entries_decided. cbn [map_result]. rewrite bind_Ok.
  change (collected_errors []) with (@nil string). cbv iota.
  cbn [map]. rewrite app_nil_r. do 2 f_equal.
  induction remote as [|e remote IH]; [reflexivity|].
  rewrite filter_cons_True; [rewrite IH; reflexivity|].
  unfold replaced_keys. cbn. apply not_elem_of_empty.
Qed.

Lemma decision_missing_name remote gv force (c : entry) :
  e_name c = None -> decision remote gv force c = Raise (KeyError "name").
Proof.
  intros Hn. unfold decision, _determine_upsert_action.
  destruct (decide _) as [_|_]; [|destruct (decide _) as [_|_]];
    unfold determine_upsert_action_forced, determine_upsert_action_v1,
      determine_upsert_action_v2; rewrite Hn; reflexivity.
Qed.

Lemma decision_missing_version remote gv force (c : entry) (n : string) :
  e_name c = Some n -> n ∉ default ∅ force -> e_version c = None ->
  decision remote gv force c = Raise (KeyError "version").
Proof.
  intros Hn Hf Hv. unfold decision, _determine_upsert_action. rewrite Hn. cbn [default id].
  destruct (decide _) as [Hin|_]; [contradiction|].
  destruct (decide _) as [_|_];
    unfold determine_upsert_action_v1, determine_upsert_action_v2;
    rewrite Hn, Hv; reflexivity.
Qed.

Lemma map_result_raise {A B} (f : A -> result B) (pre post : list A) (rs : list B)
    (x : A) (e : exn) :
  Forall2 (fun a r => f a = Ok r) pre rs -> f x = Raise e ->
  map_result f (pre ++ x :: post) = Raise e.
Proof.
  intros Hpre Hx. induction Hpre as [|a r pre rs Ha _ IH]; cbn [app map_result].
  - rewrite Hx. reflexivity.
  - rewrite Ha, bind_Ok, IH. reflexivity.
Qed.

(** X6: a candidate without a name makes the whole merge raise
    KeyError('name'), whatever the format version and the force set, and a
    candidate that is not forced and has no version makes it raise
    KeyError('version'); nothing is returned for the candidates decided
    before it. *)
Theorem merge_entries_missing_field
    (pre post remote : list entry) (c : entry) (gv : string)
    (force : option (gset string)) (rs : list UpsertResult) :
  Forall2 (fun c r => decision remote gv force c = Ok r) pre rs ->
  (e_name c = None ->
     merge_entries (pre ++ c :: post) remote gv force = Raise (KeyError "name"))
  /\ (forall n, e_name c = Some n -> n ∉ default ∅ force -> e_version c = None ->
        merge_entries (pre ++ c :: post) remote gv force = Raise (KeyError "version")).
Proof.
  intros Hpre. split.
  - intros Hn. rewrite merge_entries_decided.
    rewrite (map_result_raise _ pre post rs c _ Hpre (decision_missing_name _ _ _ c Hn)).
    reflexivity.
  - intros n Hn Hf Hv. rewrite merge_entries_decided.
    rewrite (map_result_raise _ pre post rs c _ Hpre
               (decision_missing_version _ _ _ c n Hn Hf Hv)).
    reflexivity.
Qed.

End MergeEdges.

Section LocalValidation.
Context {P : Packaging}.

Lemma list_bind_nil {A B} (f : A -> list B) (l : list A) :
  l ≫= f = [] <-> Forall (fun x => f x = []) l.
Proof.
  induction l as [|x l IH]; cbn.
  - split; [constructor | reflexivity].
  - split.
    + intros H. apply app_eq_nil in H. destruct H as [Hx Hl].
      constructor; [exact Hx | apply IH, Hl].
    + intros H. apply Forall_cons_1 in H. destruct H as [Hx Hl].
      rewrite Hx. apply IH, Hl.
Qed.

Lemma Forall_combine_seq {A} (Q : A -> Prop) (l : list A) (start : nat) :
  Forall (fun ie : nat * A => Q ie.2) (combine (seq start (length l)) l) <-> Forall Q l.
Proof.
  revert start. induction l as [|x l IH]; intros start; cbn.
  - split; constructor.
  - split; intros H; apply Forall_cons_1 in H; destruct H as [Hx Hl];
      (constructor; [exact Hx | eapply IH, Hl]).
Qed.

Lemma entry_errors_nil (json_path gv : string) (entries : list entry) :
  (ie ← enumerate entries;
   err ← validate_entry ie.2 gv;
   [json_path +:+ "[" +:+ str_nat ie.1 +:+ "]: " +:+ err]) = []
  <-> Forall (fun e => validate_entry e gv = []) entries.
Proof.
  rewrite list_bind_nil. unfold enumerate.
  rewrite <- (Forall_combine_seq (fun e => validate_entry e gv = []) entries 0).
  apply Forall_iff. intros [i e]. cbn [fst snd].
  rewrite list_bind_nil. split.
  - intros H. destruct (validate_entry e gv) as [|err errs]; [reflexivity|].
    apply Forall_cons_1 in H. destruct H as [H _]. discriminate H.
  - intros ->. constructor.
Qed.

(** X9: [validate_local_registry] accepts exactly the directories that hold
    apps.json or tools.json, in which each catalog that is present is JSON
    and every entry passes [validate_entry]; it accepts if and only if it
    reports no error, and a missing path or a plain file is rejected. *)
Theorem validate_local_registry_sound (local_path : fs_node) (gv : string) :
  ((validate_local_registry local_path gv).1 = true
   <-> (validate_local_registry local_path gv).2 = [])
  /\ ((validate_local_registry local_path gv).1 = true
      <-> exists d, local_path = Directory d
            /\ (is_Some (d "apps.json") \/ is_Some (d "tools.json"))
            /\ forall json_path, json_path = "apps.json" \/ json_path = "tools.json" ->
                 is_Some (d json_path) ->
                 exists entries, load_registry_json d json_path = Ok entries
                   /\ Forall (fun e => validate_entry e gv = []) entries).
Proof.
  unfold validate_local_registry.
  destruct local_path as [| |d].
  1,2: split; (split; [discriminate|]); [discriminate | intros (d & Hd & _); discriminate].
  assert (Hfile : forall json_path,
            match d json_path with
            | None => []
            | Some _ =>
                match load_registry_json d json_path with
                | Raise _ => ["Invalid JSON in " +:+ json_path]
                | Ok entries =>
                    ie ← enumerate entries;
                    err ← validate_entry ie.2 gv;
                    [json_path +:+ "[" +:+ str_nat ie.1 +:+ "]: " +:+ err]
                end
            end = []
            <-> (is_Some (d json_path) ->
                 exists entries, load_registry_json d json_path = Ok entries
                   /\ Forall (fun e => validate_entry e gv = []) entries)).
  { intros json_path. destruct (d json_path) as [f|] eqn:Hf.
    - destruct (load_registry_json d json_path) as [entries|x].
      + rewrite entry_errors_nil. split.
        * intros H _. exists entries. split; [reflexivity | exact H].
        * intros H. destruct (H ltac:(eexists; reflexivity)) as (es & [= <-] & Hes).
          exact Hes.
      + split; [discriminate|]. intros H.
        destruct (H ltac:(eexists; reflexivity)) as (es & Hes & _). discriminate.
    - split; [intros _ [x Hx]; discriminate | reflexivity]. }
  pose proof (Hfile "apps.json") as Ha. pose proof (Hfile "tools.json") as Ht.
  clear Hfile.
  assert (Hboth : forall y : bool * list string,
            match d "apps.json", d "tools.json" with
            | None, None => (false, ["No apps.json or tools.json found"])
            | _, _ => y
            end
            = if bool_decide (is_Some (d "apps.json") \/ is_Some (d "tools.json"))
              then y else (false, ["No apps.json or tools.json found"])).
  { intros y. destruct (d "apps.json"), (d "tools.json"); cbn;
      try reflexivity;
      try (rewrite bool_decide_eq_true_2; [reflexivity|]; first [left | right];
           eexists; reflexivity).
    all: try (rewrite bool_decide_eq_false_2; [reflexivity|];
              intros [[? H]|[? H]]; discriminate). }
  rewrite Hboth. clear Hboth.
  cbn [mbind list_bind fmap mjoin app] in *. rewrite app_nil_r.
  destruct (bool_decide_reflect (is_Some (d "apps.json") \/ is_Some (d "tools.json")))
    as [Hsome|Hnone].
  2:{ split; (split; [discriminate|]); [discriminate|].
      intros (d' & [= <-] & Hd & _). contradiction. }
  cbn [fst snd]. rewrite bool_decide_eq_true, length_zero_iff_nil.
  split; [reflexivity|]. rewrite app_nil. rewrite Ha, Ht. split.
  - intros [H1 H2]. exists d. split; [reflexivity|]. split; [exact Hsome|].
    intros json_path [->| ->]; assumption.
  - intros (d' & [= <-] & _ & H). split; apply H; [left | right]; reflexivity.
Qed.

End LocalValidation.

(** ** The store operations *)

Import S3Arguments.

Section StoreOperations.
Context {E : Environment}.

(** X10: the common arguments are the endpoint part followed by the region
    part.  The endpoint part is the endpoint flag with the endpoint, when
    there is a non-empty one, and nothing otherwise; the region part is the
    region flag with the configured region, when that is non-empty, and
    nothing otherwise.  The endpoint is the configured one when that is
    non-empty, else the one built from a non-empty account id, else none. *)
Theorem get_aws_cli_args_shape :
  (exists endpoint region,
     get_aws_cli_args = endpoint ++ region
     /\ (forall url, get_s3_endpoint = Some url -> url <> "" ->
           endpoint = ["--endpoint-url"; url])
     /\ (falsy get_s3_endpoint = true -> endpoint = [])
     /\ (forall r, getenv "KAMIWAZA_REGISTRY_REGION" = Some r -> r <> "" ->
           region = ["--region"; r])
     /\ (falsy (getenv "KAMIWAZA_REGISTRY_REGION") = true -> region = []))
  /\ (forall url, getenv "KAMIWAZA_REGISTRY_ENDPOINT" = Some url -> url <> "" ->
        get_s3_endpoint = Some url)
  /\ (falsy (getenv "KAMIWAZA_REGISTRY_ENDPOINT") = true ->
      forall account_id, getenv "KAMIWAZA_REGISTRY_ACCOUNT_ID" = Some account_id ->
        account_id <> "" ->
        get_s3_endpoint = Some ("https://" +:+ account_id +:+ ".r2.cloudflarestorage.com"))
  /\ (falsy (getenv "KAMIWAZA_REGISTRY_ENDPOINT") = true ->
      falsy (getenv "KAMIWAZA_REGISTRY_ACCOUNT_ID") = true ->
      falsy get_s3_endpoint = true)
  /\ (get_aws_cli_args = [] <->
        falsy get_s3_endpoint = true
        /\ falsy (getenv "KAMIWAZA_REGISTRY_REGION") = true).
Proof.
  unfold get_aws_cli_args. split; [|split; [|split; [|split]]].
  - exists (if falsy get_s3_endpoint then []
            else ["--endpoint-url"; default "" get_s3_endpoint]),
           (if falsy (getenv "KAMIWAZA_REGISTRY_REGION") then []
            else ["--region"; default "" (getenv "KAMIWAZA_REGISTRY_REGION")]).
    split; [destruct (falsy get_s3_endpoint), (falsy (getenv "KAMIWAZA_REGISTRY_REGION"));
            reflexivity|].
    split; [|split; [|split]].
    + intros url -> Hne. destruct url; [contradiction | reflexivity].
    + intros ->. reflexivity.
    + intros r -> Hne. destruct r; [contradiction | reflexivity].
    + intros ->. reflexivity.
  - unfold get_s3_endpoint. intros url -> Hne. destruct url; [contradiction | reflexivity].
  - unfold get_s3_endpoint. intros -> a -> Hne. destruct a; [contradiction | reflexivity].
  - unfold get_s3_endpoint. intros He Ha. rewrite He, Ha. exact He.
  - destruct (falsy get_s3_endpoint), (falsy (getenv "KAMIWAZA_REGISTRY_REGION"));
      cbn [app]; split; first [discriminate | intros [? ?]; discriminate | tauto].
Qed.

(** X11: [get_bucket_for_stage] returns a bucket name only when the stage
    profile is set, and the name is then non-empty: the bucket of the
    stage if that is set, else the common one.  Without a stage profile it
    raises ValueError even when a bucket is configured. *)
Theorem get_bucket_for_stage_cases (s : Stage) :
  (falsy (getenv ("AWS_PROFILE_" +:+ stage_upper s)) = true ->
     exists msg, get_bucket_for_stage s = Raise (ValueError msg))
  /\ (forall bucket, get_bucket_for_stage s = Ok bucket ->
        bucket <> ""
        /\ falsy (getenv ("AWS_PROFILE_" +:+ stage_upper s)) = false
        /\ (getenv ("KAMIWAZA_REGISTRY_BUCKET_" +:+ stage_upper s) = Some bucket
            \/ (falsy (getenv ("KAMIWAZA_REGISTRY_BUCKET_" +:+ stage_upper s)) = true
                /\ getenv "KAMIWAZA_REGISTRY_BUCKET" = Some bucket)))
  /\ (forall e, get_bucket_for_stage s = Raise e -> exists msg, e = ValueError msg).
Proof.
  unfold get_bucket_for_stage, configure_aws_profile, env_or.
  destruct (getenv ("AWS_PROFILE_" +:+ stage_upper s)) as [[|a p]|]; cbn [falsy].
  1,3: split; [intros _; eexists; reflexivity|];
       split; [discriminate | intros e [= <-]; eexists; reflexivity].
  rewrite bind_Ok.
  split; [discriminate|].
  destruct (getenv ("KAMIWAZA_REGISTRY_BUCKET_" +:+ stage_upper s)) as [[|b x]|];
    cbn [falsy];
    destruct (getenv "KAMIWAZA_REGISTRY_BUCKET") as [[|c y]|]; cbn [falsy default id].
  all: split; [|first [discriminate | intros e [= <-]; eexists; reflexivity]].
  all: try discriminate.
  all: intros bucket [= <-]; split; [discriminate|]; split; [reflexivity|].
  all: first [left; reflexivity | right; split; reflexivity].
Qed.

End StoreOperations.

Lemma replace_from_skip (old new q r : string) :
  replace_from old new (String.length q) (q +:+ r) = replace_from old new 0 r.
Proof.
  induction q as [|c q IH]; [reflexivity|].
  change (String c q +:+ r) with (String c (q +:+ r)). exact IH.
Qed.

Lemma replace_absent (old new s : string) :
  contains old s = false -> replace_from old new 0 s = s.
Proof.
  induction s as [|c s IH]; [reflexivity|].
  cbn [contains replace_from].
  destruct (strip_prefix old (String c s)); [discriminate|].
  intros H. rewrite (IH H). reflexivity.
Qed.

(** Removing every occurrence of a prefix that occurs once leaves the
    rest. *)
Lemma replace_prefix (p r : string) :
  p <> "" -> contains p r = false -> replace p "" (p +:+ r) = r.
Proof.
  intros Hp Hr. destruct p as [|a p]; [contradiction|].
  unfold replace. change (String a p +:+ r) with (String a (p +:+ r)).
  cbn [replace_from].
  change (String a (p +:+ r)) with (String a p +:+ r). rewrite strip_prefix_app.
  replace (String.length (String a p) - 1) with (String.length p)
    by (cbn [String.length]; lia).
  change ("" +:+ ?x) with x.
  rewrite replace_from_skip. apply replace_absent, Hr.
Qed.

Lemma lock_key_round_trip (bucket path key : string) :
  path = ("s3://" +:+ bucket +:+ "/") +:+ key ->
  contains ("s3://" +:+ bucket +:+ "/") key = false ->
  "s3://" +:+ bucket +:+ "/" +:+ replace ("s3://" +:+ bucket +:+ "/") "" path = path.
Proof.
  intros -> Hk. rewrite replace_prefix; [|discriminate|exact Hk].
  rewrite !append_assoc. reflexivity.
Qed.

Lemma write_object_same (path : string) (body : file) (r : store) :
  write_object path body r path = Some body.
Proof. unfold write_object. rewrite String.eqb_refl. reflexivity. Qed.

Lemma write_object_other (path path' : string) (body : file) (r : store) :
  path' <> path -> write_object path body r path' = r path'.
Proof.
  intros Hne. unfold write_object.
  destruct (String.eqb_spec path' path); [contradiction|reflexivity].
Qed.

(** The tests that a symbolic run has decided. *)
Ltac decided :=
  repeat match goal with
         | H : negb _ = true |- _ => apply negb_true_iff in H
         | H : negb _ = false |- _ => apply negb_false_iff in H
         end;
  repeat match goal with
         | H : contains ".lock" _ = _ |- _ => rewrite H in *; clear H
         | H : truthy _ = _ |- _ => rewrite H in *; clear H
         end.

Ltac assume_calm Hall Hq H :=
  repeat (first [rewrite Hall in H | rewrite Hq in H | step_in H]; run_in H).

Section LockOperations.
Context {E : Environment}.

(** X12: when the commands succeed and nobody else writes, [acquire_lock]
    refuses a lock that it sees and otherwise writes its own lock record
    at the path where [check_lock_exists] looks, leaving every other
    object alone.  It sees a lock when the object exists, the lock name
    contains ".lock" and the content read back is truthy; a lock whose
    content is an empty JSON value is overwritten. *)
Theorem acquire_lock_outcome (bucket : string) (garden_dir owner : option string)
    (key : string) (st st' : state) (r : result bool) :
  (forall h c, oracle h c = Succeeds) -> quiet ->
  lock_s3_path bucket garden_dir = ("s3://" +:+ bucket +:+ "/") +:+ key ->
  contains ("s3://" +:+ bucket +:+ "/") key = false ->
  acquire_lock bucket garden_dir owner st = (st', r) ->
  if contains ".lock" (basename (lock_s3_path bucket garden_dir))
     && truthy (remote st (lock_s3_path bucket garden_dir))
  then (exists msg, r = Raise (RuntimeError msg))
       /\ remote st' = remote st
       /\ calls st' = calls st ++ [S3_ls (lock_s3_path bucket garden_dir);
                                  S3_cp_stdout (lock_s3_path bucket garden_dir)]
  else r = Ok true
       /\ (exists who, remote st' (lock_s3_path bucket garden_dir)
                       = Some (JsonLock who hostname now pid)
                       /\ (forall o, owner = Some o -> who = o))
       /\ (forall path, path <> lock_s3_path bucket garden_dir ->
             remote st' path = remote st path).
Proof.
  intros Hall Hq Hpath Hkey Hrun. unfold quiet in Hq.
  destruct st as [r0 f0 c0 p0 l0 b0 h0]. cbn [remote calls].
  run_in Hrun. assume_calm Hall Hq Hrun.
  all: injection Hrun as <- <-; cbn [remote calls].
  all: try rewrite (lock_key_round_trip _ _ _ Hpath Hkey).
  all: simplify_eq; decided; try discriminate; rewrite ?andb_false_r; cbn [andb].
  all: first
    [ split; [eexists; reflexivity|]; split; [reflexivity|];
      rewrite <- ?app_assoc; reflexivity
    | split; [reflexivity|]; split;
      [ eexists; split; [apply write_object_same|];
        first [intros o [= ->]; reflexivity | intros o; discriminate]
      | intros path Hne; apply write_object_other, Hne ] ].
Qed.

(** X13: [release_lock] never raises.  It returns true only after a
    removal that succeeded, and then the store holds no lock; when it
    finds no lock it issues the listing alone and prints that there is
    nothing to release.  It leaves the local directories and every other
    object alone. *)
Theorem release_lock_outcome (bucket : string) (garden_dir : option string)
    (st : state) :
  exists st' released,
    release_lock bucket garden_dir st = (st', Ok released)
    /\ fs st' = fs st
    /\ (released = true ->
          remote st' (lock_s3_path bucket garden_dir) = None
          /\ calls st' = calls st ++ [S3_ls (lock_s3_path bucket garden_dir);
                                     S3_rm (lock_s3_path bucket garden_dir)])
    /\ (S3_rm (lock_s3_path bucket garden_dir) ∉ calls st ->
          S3_rm (lock_s3_path bucket garden_dir) ∉ calls st' ->
          calls st' = calls st ++ [S3_ls (lock_s3_path bucket garden_dir)]
          /\ printed st' = printed st ++ ["No lock to release"]
          /\ remote st' = others (calls st) (remote st)).
Proof.
  destruct st as [r0 f0 c0 p0 l0 b0 h0].
  destruct (release_lock bucket garden_dir _) as [st' r] eqn:Hrun.
  run_in Hrun. repeat step_in Hrun.
  all: injection Hrun as <- <-; cbn [remote calls fs printed].
  all: eexists _, _; split; [reflexivity|]; cbn [remote calls fs printed].
  all: split; [reflexivity|]; split.
  all: try discriminate.
  all: try (intros _; split; [apply delete_object_same | rewrite <- app_assoc; reflexivity]).
  all: intros Hold Hnew.
  all: try (split; [reflexivity|]; split; reflexivity).
  all: exfalso; apply Hnew; rewrite !elem_of_app, !elem_of_cons; tauto.
Qed.

End LockOperations.

Section Transfers.
Context {E : Environment}.

(** X14: [download_registry] only reads the store: it issues one sync from
    the catalog prefix into the working directory.  A failed sync is taken
    for an empty remote when its error text mentions NoSuchKey or is
    blank, and raises RuntimeError otherwise.  Without [create_backup] no
    backup path is returned and only the working directory is written;
    with it the backup directory receives the copy of what was
    downloaded. *)
Theorem download_registry_outcome (bucket garden_dir : string) (local_path : local_dir)
    (create_backup : bool) (st st' : state) (r : result (local_dir * option local_dir)) :
  download_registry bucket garden_dir local_path create_backup st = (st', r) ->
  remote st' = others (calls st) (remote st)
  /\ calls st' = calls st ++ [S3_sync_down (catalog_prefix bucket garden_dir) local_path]
  /\ (forall e, r = Raise e ->
        exists stderr transferred,
          oracle (calls st) (S3_sync_down (catalog_prefix bucket garden_dir) local_path)
          = Fails stderr transferred
          /\ benign stderr = false
          /\ e = RuntimeError ("Failed to download registry: " +:+ stderr))
  /\ (forall x, r = Ok x ->
        x = (local_path, if create_backup then Some Backup else None)
        /\ (oracle (calls st) (S3_sync_down (catalog_prefix bucket garden_dir) local_path)
            = Succeeds \/
            exists stderr transferred,
              oracle (calls st) (S3_sync_down (catalog_prefix bucket garden_dir) local_path)
              = Fails stderr transferred /\ benign stderr = true)
        /\ (create_backup = false ->
              forall d, d <> local_path -> fs st' d = fs st d)
        /\ (create_backup = true -> local_path <> Backup ->
              fs st' Backup
              = if has_entries (fs st' local_path) then fs st' local_path else empty_dir)).
Proof.
  intros Hrun. unfold catalog_prefix, benign.
  destruct st as [r0 f0 c0 p0 l0 b0 h0]. cbn [remote calls fs].
  destruct create_backup; run_in Hrun; repeat step_in Hrun.
  all: injection Hrun as <- <-; cbn [remote calls fs].
  all: split; [reflexivity|]; split; [reflexivity|]; split.
  all: first
    [ intros e He;
      first [ discriminate He
            | injection He as <-; eexists _, _; split; [reflexivity|]; split;
              [assumption | reflexivity] ]
    | intros x Hx;
      first [ discriminate Hx
            | injection Hx as <-; split; [reflexivity|]; split;
              [ first [ left; reflexivity
                      | right; eexists _, _; split; [reflexivity | assumption] ]
              | split;
                [ first [ discriminate
                        | intros _ d Hd; destruct d; first [reflexivity | congruence] ]
                | first [ discriminate
                        | intros _ Hne;
                          first [ congruence
                                | match goal with
                                  | H : has_entries _ = _ |- _ => rewrite H; reflexivity
                                  end ] ] ] ] ] ].
Qed.

(** X15: [upload_registry] returns only after a sync that succeeded, and
    then the objects under the catalog prefix mirror the local directory:
    a local file is written to its key, and a key without a local file is
    deleted when [delete] is set and kept otherwise.  Objects outside the
    prefix and the local directories are untouched.  A failed sync raises
    RuntimeError. *)
Theorem upload_registry_mirror (bucket garden_dir : string) (local_path : local_dir)
    (delete : bool) (st st' : state) (r : result bool) :
  upload_registry bucket garden_dir local_path delete st = (st', r) ->
  calls st' = calls st ++ [S3_sync_up local_path (catalog_prefix bucket garden_dir) delete]
  /\ fs st' = fs st
  /\ (forall path, strip_prefix (catalog_prefix bucket garden_dir) path = None ->
        remote st' path = others (calls st) (remote st) path)
  /\ (forall b, r = Ok b ->
        b = true
        /\ forall rel,
             remote st' (catalog_prefix bucket garden_dir +:+ rel)
             = match fs st local_path rel with
               | Some f => Some f
               | None =>
                   if delete then None
                   else others (calls st) (remote st)
                          (catalog_prefix bucket garden_dir +:+ rel)
               end)
  /\ (forall e, r = Raise e ->
        e = RuntimeError "AWS CLI command failed"
        /\ exists stderr transferred,
             oracle (calls st)
               (S3_sync_up local_path (catalog_prefix bucket garden_dir) delete)
             = Fails stderr transferred).
Proof.
  intros Hrun. unfold catalog_prefix.
  destruct st as [r0 f0 c0 p0 l0 b0 h0]. cbn [remote calls fs].
  run_in Hrun. step_in Hrun.
  all: injection Hrun as <- <-; cbn [remote calls fs].
  all: split; [reflexivity|]; split; [reflexivity|]; split;
    [intros path Hp; unfold sync_to_remote; rewrite Hp; reflexivity|].
  all: split; [|intros e He; first [discriminate He | injection He as <-]].
  all: try (intros b Hb; discriminate Hb).
  - intros b [= <-]. split; [reflexivity|]. intros rel.
    unfold sync_to_remote. rewrite strip_prefix_app. reflexivity.
  - split; [reflexivity|]. eexists _, _. reflexivity.
Qed.

Lemma compare_files_result (local_path verify_path : dir) (filenames : list string)
    (st : state) :
  exists st' same,
    compare_files local_path verify_path filenames st = (st', Ok same)
    /\ remote st' = remote st /\ fs st' = fs st /\ calls st' = calls st
    /\ (same = true <-> Forall (fun f => local_path f = verify_path f) filenames).
Proof.
  induction filenames as [|f rest IH]; cbn [compare_files].
  - eexists _, _. split; [reflexivity|]. repeat split. constructor.
  - destruct (local_path f) as [x|] eqn:Hl, (verify_path f) as [y|] eqn:Hv.
    + destruct (bool_decide_reflect (x = y)) as [->|Hne].
      * destruct IH as (st' & same & -> & Hr & Hf & Hc & Hs).
        eexists _, _. split; [reflexivity|]. repeat split; try assumption.
        -- intros H. constructor; [congruence | apply Hs, H].
        -- intros H. apply Forall_cons_1 in H. apply Hs, H.
      * eexists _, _. split; [reflexivity|]. repeat split; [discriminate|].
        intros H. apply Forall_cons_1 in H. destruct H as [H _]. congruence.
    + eexists _, _. split; [reflexivity|]. repeat split; [discriminate|].
      intros H. apply Forall_cons_1 in H. destruct H as [H _]. congruence.
    + eexists _, _. split; [reflexivity|]. repeat split; [discriminate|].
      intros H. apply Forall_cons_1 in H. destruct H as [H _]. congruence.
    + destruct IH as (st' & same & -> & Hr & Hf & Hc & Hs).
      eexists _, _. split; [reflexivity|]. repeat split; try assumption.
      * intros H. constructor; [congruence | apply Hs, H].
      * intros H. apply Forall_cons_1 in H. apply Hs, H.
Qed.

(** X16: [verify_upload] passes exactly when, for apps.json and for
    tools.json, the local file and the remote object read back are both
    missing or have the same content; other files are not compared.  It
    only reads the store, and it raises RuntimeError when the download
    fails. *)
Theorem verify_upload_checks (bucket garden_dir : string) (local_path : local_dir)
    (st st' : state) (r : result bool) :
  local_path <> Verify ->
  verify_upload bucket garden_dir local_path st = (st', r) ->
  remote st' = others (calls st) (remote st)
  /\ calls st' = calls st ++ [S3_sync_down (catalog_prefix bucket garden_dir) Verify]
  /\ (forall same, r = Ok same ->
        (same = true <->
         forall f, f = "apps.json" \/ f = "tools.json" ->
           fs st local_path f = remote st' (catalog_prefix bucket garden_dir +:+ f)))
  /\ (forall e, r = Raise e -> e = RuntimeError "AWS CLI command failed").
Proof.
  intros Hne Hrun. unfold catalog_prefix.
  destruct st as [r0 f0 c0 p0 l0 b0 h0]. cbn [remote calls fs].
  unfold verify_upload in Hrun. run_in Hrun.
  destruct (oracle c0 _) as [|stderr transferred] eqn:Ho; run_in Hrun.
  2:{ injection Hrun as <- <-. cbn [remote calls].
      split; [reflexivity|]. split; [reflexivity|].
      split; [discriminate | intros e [= <-]; reflexivity]. }
  match type of Hrun with
  | compare_files ?lp ?vp ?names ?s = _ =>
      destruct (compare_files_result lp vp names s)
        as (st1 & same & Hcmp & Hr & _ & Hc & Hsame)
  end.
  rewrite Hcmp in Hrun. injection Hrun as <- <-. cbn [remote calls] in Hr, Hc.
  rewrite Hr, Hc.
  split; [reflexivity|]. split; [reflexivity|]. split; [|discriminate].
  intros same' [= <-]. rewrite Hsame. clear Hsame Hcmp.
  assert (Hfile : forall f,
            sync_to_local (others c0 r0)
              (s3_path bucket ("garden/" +:+ garden_dir +:+ "/"))
              (fun _ => true) empty_dir f
            = others c0 r0 (s3_path bucket ("garden/" +:+ garden_dir +:+ "/") +:+ f)).
  { intros f. unfold sync_to_local, empty_dir. destruct (others c0 r0 _); reflexivity. }
  destruct local_path; try congruence.
  all: split;
    [ intros H f [->| ->];
      [ apply Forall_cons_1 in H; destruct H as [H _]
      | apply Forall_cons_1 in H; destruct H as [_ H];
        apply Forall_cons_1 in H; destruct H as [H _] ];
      rewrite <- Hfile; exact H
    | intros H; repeat constructor; rewrite Hfile; apply H; tauto ].
Qed.

(** X17: a backup that [download_registry] takes into an empty working
    directory, when restored by [restore_backup], puts back under the
    catalog prefix exactly the objects that were there at download time,
    whatever was written there in between. *)
Theorem restore_backup_round_trip (bucket garden_dir : string)
    (st st1 st2 st3 : state) (x : local_dir * option local_dir) (restored : bool) :
  quiet ->
  (forall rel, fs st Working rel = None) ->
  oracle (calls st) (S3_sync_down (catalog_prefix bucket garden_dir) Working) = Succeeds ->
  download_registry bucket garden_dir Working true st = (st1, Ok x) ->
  (has_entries (fs st1 Working) = false -> forall rel, fs st1 Working rel = None) ->
  fs st2 Backup = fs st1 Backup ->
  restore_backup bucket garden_dir Backup st2 = (st3, Ok restored) ->
  x = (Working, Some Backup)
  /\ forall rel,
       remote st3 (catalog_prefix bucket garden_dir +:+ rel)
       = remote st (catalog_prefix bucket garden_dir +:+ rel).
Proof.
  intros Hq Hempty Hdown Hrun Hlaw Hsame Hrestore. unfold quiet in Hq.
  unfold catalog_prefix in *.
  destruct st as [r0 f0 c0 p0 l0 b0 h0]. cbn [remote calls fs] in *.
  run_in Hrun. rewrite Hdown, Hq in Hrun. run_in Hrun.
  assert (Hcopy : forall rel,
            sync_to_local r0 (s3_path bucket ("garden/" +:+ garden_dir +:+ "/"))
              (fun _ => true) (f0 Working) rel
            = r0 (s3_path bucket ("garden/" +:+ garden_dir +:+ "/") +:+ rel)).
  { intros rel. unfold sync_to_local. rewrite Hempty.
    destruct (r0 _); reflexivity. }
  assert (Hbackup : forall rel,
            fs st1 Backup rel
            = r0 (s3_path bucket ("garden/" +:+ garden_dir +:+ "/") +:+ rel)
            /\ x = (Working, Some Backup)).
  { intros rel. step_in Hrun; injection Hrun as <- <-; cbn [fs] in *.
    - split; [apply Hcopy | reflexivity].
    - split; [|reflexivity]. rewrite <- Hcopy. symmetry. apply Hlaw. assumption. }
  split; [apply (Hbackup ""%string)|]. intros rel.
  destruct st2 as [r2 f2 c2 p2 l2 b2 h2]. cbn [fs] in Hsame.
  run_in Hrestore. step_in Hrestore; [|discriminate].
  injection Hrestore as <- _. cbn [remote].
  rewrite sync_to_remote_mirror, Hsame. apply Hbackup.
Qed.

End Transfers.

(** ** The publish workflow, further *)

Section EarlyExits.
Context {P : Packaging} {E : Environment}.

Lemma get_bucket_for_stage_error (s : Stage) (e : exn) :
  get_bucket_for_stage s = Raise e -> is_ValueError e = true.
Proof.
  unfold get_bucket_for_stage, configure_aws_profile.
  destruct (falsy (getenv ("AWS_PROFILE_" +:+ stage_upper s))).
  - intros [= <-]. reflexivity.
  - rewrite bind_Ok. destruct (falsy _); [intros [= <-]; reflexivity | discriminate].
Qed.

(** X18: a run that finds no bucket, or whose local registry does not
    validate, issues no command at all and exits with code 1; the remote
    store is not even read. *)
Theorem main_stops_before_any_command (args : Args) (st0 st : state) (r : result unit) :
  main args st0 = (st, r) ->
  ((exists e, get_bucket_for_stage (arg_stage args) = Raise e)
   \/ (validate_local_registry (arg_local_registry args)
         (repo_version_str (arg_repo_version args))).1 = false) ->
  calls st = calls st0 /\ remote st = remote st0 /\ exit_code r = 1.
Proof.
  intros Hmain Hstop.
  unfold main in Hmain.
  destruct (get_bucket_for_stage (arg_stage args)) as [bucket|e] eqn:Hb.
  - destruct Hstop as [[e He]|Hv]; [discriminate|].
    destruct (validate_local_registry _ _) as [is_valid errors] eqn:Hval.
    cbn [fst] in Hv. subst is_valid.
    unfold try_block in Hmain. rewrite Hval in Hmain.
    lazy in Hmain. injection Hmain as <- <-. repeat split.
  - pose proof (get_bucket_for_stage_error _ _ Hb) as Hve.
    destruct e; try discriminate Hve.
    all: lazy in Hmain; injection Hmain as <- <-; repeat split.
Qed.

End EarlyExits.

Import PublishSpec.

(** ** The publish workflow, from end to end *)

Lemma hoare_skip {A B} (m : M A) (k : A -> M B) post :
  (forall a, hoare (fun _ => True) (k a) post (fun _ _ => True)) ->
  hoare (fun _ => True) (m ≫= k) post (fun _ _ => True).
Proof.
  intros Hk st _. unfold mbind, M_bind.
  destruct (m st) as [st' [a|e]]; [exact (Hk a st' I) | exact I].
Qed.

Lemma hoare_ret_bind {A B} (a : A) (k : A -> M B) pre post epost :
  hoare pre (k a) post epost -> hoare pre (mret a ≫= k) post epost.
Proof. intros H. exact H. Qed.

Lemma hoare_raises {A B} (m : M unit) (e : exn) (k : A -> M B) pre post :
  hoare pre ((m;; raise e) ≫= k) post (fun _ _ => True).
Proof.
  intros st _. unfold mbind, M_bind, raise.
  destruct (m st) as [st' [a|x]]; exact I.
Qed.

Section OutputSteps.
Context {E : Environment}.
Variables (bucket garden_dir : string) (describes : dir -> dir -> Prop).
Hypothesis nobody_else : quiet_after (upload_call bucket garden_dir).

Local Abbreviation written := (output_written describes).
Local Abbreviation uploaded := (output_uploaded bucket garden_dir describes).
Local Abbreviation published := (output_published bucket garden_dir describes).

Lemma upload_registry_publishes :
  hoare written (upload_registry bucket garden_dir Merged true)
    (fun st _ => uploaded st) (fun _ _ => True).
Proof.
  intros st Hw. destruct st as [r0 f0 c0 p0 l0 b0 h0].
  unfold output_written in Hw. cbn [fs] in Hw.
  destruct (upload_registry _ _ _ _ _) as [st' [b|e]] eqn:Hrun; [|exact I].
  run_in Hrun. step_in Hrun; [|discriminate].
  injection Hrun as <- <-. split.
  - cbn [calls]. apply elem_of_app. right. apply list_elem_of_singleton. reflexivity.
  - exists (f0 Merged). split; [exact Hw|]. intros rel. cbn [remote].
    apply sync_to_remote_mirror.
Qed.

Lemma verify_upload_keeps :
  hoare uploaded (verify_upload bucket garden_dir Merged)
    (fun st _ => uploaded st) (fun _ _ => True).
Proof.
  intros st (Hin & output & Hm & Hr). destruct st as [r0 f0 c0 p0 l0 b0 h0].
  cbn [fs remote calls] in Hin, Hm, Hr.
  destruct (verify_upload _ _ _ _) as [st' [b|e]] eqn:Hrun; [|exact I].
  unfold verify_upload in Hrun. run_in Hrun.
  rewrite (nobody_else _ _ Hin) in Hrun.
  destruct (oracle c0 _) as [|stderr transferred]; run_in Hrun; [|discriminate].
  match type of Hrun with
  | compare_files ?lp ?vp ?names ?s = _ =>
      destruct (compare_files_result lp vp names s)
        as (st1 & same & Hcmp & Hr1 & Hf1 & Hc1 & _)
  end.
  rewrite Hcmp in Hrun. injection Hrun as <- <-.
  cbn [remote fs calls] in Hr1, Hf1, Hc1. split.
  - rewrite Hc1. apply elem_of_app. left. exact Hin.
  - exists output. rewrite Hf1, Hr1. split; [exact Hm | exact Hr].
Qed.

Lemma release_lock_publishes :
  hoare uploaded (release_lock bucket (Some garden_dir))
    (fun st _ => published st) (fun _ _ => True).
Proof.
  intros st (Hin & output & Hm & Hr). destruct st as [r0 f0 c0 p0 l0 b0 h0].
  cbn [fs remote calls] in Hin, Hm, Hr.
  destruct (release_lock _ _ _) as [st' [b|e]] eqn:Hrun; [|exact I].
  run_in Hrun. rewrite (nobody_else _ _ Hin) in Hrun.
  repeat (step_in Hrun; rewrite ?nobody_else in Hrun
            by (apply elem_of_app; left; exact Hin)).
  all: injection Hrun as <- <-; split;
    [ cbn [calls]; rewrite !elem_of_app; tauto
    | exists output; split; [exact Hm|]; intros rel Hrel; cbn [remote];
      rewrite ?delete_object_other by exact Hrel; apply Hr ].
Qed.

(** Upload, verification and release, from an output that is written. *)
Lemma push_verify_release (push verify failing release : string) (k : M unit) post :
  (hoare (fun st => lock_acquired st = false /\ published st) k post (fun _ _ => True)) ->
  hoare written
    (print push;;
     upload_registry bucket garden_dir Merged true;;
     print verify;;
     verified ← verify_upload bucket garden_dir Merged;
     (if negb verified then
        print failing;;
        raise (RuntimeError "Upload verification failed")
      else mret tt);;
     print release;;
     release_lock bucket (Some garden_dir);;
     modify (set_lock_acquired false);;
     k)
    post (fun _ _ => True).
Proof.
  intros Hk.
  apply (hoare_modify _ _ _ written); [intros st H; exact H|].
  eapply hoare_bind; [apply upload_registry_publishes|]. intros uploaded_ok. cbv beta.
  apply (hoare_modify _ _ _ uploaded); [intros st H; exact H|].
  eapply hoare_bind; [apply verify_upload_keeps|]. intros verified. cbv beta.
  destruct verified; cbn [negb]; [|apply hoare_raises].
  apply hoare_ret_bind.
  apply (hoare_modify _ _ _ uploaded); [intros st H; exact H|].
  eapply hoare_bind; [apply release_lock_publishes|]. intros released. cbv beta.
  apply (hoare_modify _ _ _ (fun st => lock_acquired st = false /\ published st));
    [intros st H; split; [reflexivity | exact H]|].
  exact Hk.
Qed.

End OutputSteps.

Section EndToEnd.
Context {P : Packaging} {E : Environment}.
Variables (bucket garden_dir repo_version : string) (local_registry : fs_node)
          (force_entries : option (gset string)).
Hypothesis nobody_else : quiet_after (upload_call bucket garden_dir).

Local Abbreviation merged := (merge_of local_registry repo_version force_entries).

Lemma run_merge_writes :
  hoare (fun _ => True)
    (run_merge local_registry Working repo_version force_entries)
    (fun st r => r.1.1 = true -> output_written merged st) (fun _ _ => True).
Proof.
  intros st _. destruct st as [r0 f0 c0 p0 l0 b0 h0].
  destruct (run_merge _ _ _ _ _) as [st' [[[success a] t]|e]] eqn:Hrun; [|exact I].
  cbn [fst]. intros ->. run_in Hrun.
  destruct (merge_registries _ _ _ _) as [[[[s a'] t'] w]|] eqn:Hm; run_in Hrun;
    [|discriminate].
  destruct (merge_registries_written _ _ _ _ _ _ _ _ Hm) as [Hno Hyes].
  destruct w as [d|]; run_in Hrun; injection Hrun as Hst Hs Ha Ht; subst.
  - exists a, t. exact Hm.
  - destruct (Hyes eq_refl) as (d & Hd & _). discriminate Hd.
Qed.

(** The [try] block, when it comes to its end, has published the merge. *)
Lemma try_block_publishes (dry_run : bool) :
  hoare (fun _ => True)
    (try_block bucket garden_dir repo_version local_registry dry_run force_entries)
    (fun st _ => lock_acquired st = false /\ output_published bucket garden_dir merged st)
    (fun _ _ => True).
Proof.
  unfold try_block.
  apply hoare_skip; intros _.
  destruct (validate_local_registry _ _) as [is_valid errors].
  do 6 (apply hoare_skip; intros _).
  eapply (hoare_bind _ _ _ (fun _ r => True /\ r = (Working, Some Backup))).
  { intros st _.
    destruct (download_registry _ _ _ _ _) as [st' [r|e]] eqn:Hrun; [|exact I].
    split; [exact I | exact (download_registry_result _ _ _ _ _ _ Hrun)]. }
  intros [remote_path backup]. apply hoare_assume.
  intros Heq. injection Heq as Hpath Hbackup. subst remote_path backup. cbv beta iota.
  do 3 (apply hoare_skip; intros _).
  eapply hoare_bind; [apply run_merge_writes|].
  intros [[success apps_result] tools_result]. cbn [fst].
  apply (hoare_modify _ _ _ (fun st => success = true -> output_written merged st));
    [intros st H; exact H|].
  destruct success; cbn [negb]; [|apply hoare_raises].
  apply hoare_ret_bind.
  eapply hoare_weaken;
    [ apply (push_verify_release bucket garden_dir merged nobody_else)
    | intros st H; exact (H eq_refl) | intros st a H; exact H | auto ].
  apply hoare_print_last. intros st H. exact H.
Qed.

End EndToEnd.

Section Publication.
Context {P : Packaging} {E : Environment}.

(** X19: when a run of registry-upsert returns normally, the store holds
    the merged catalog: the merge of the local registry with the downloaded
    one (the working directory) succeeded, and every object under the
    catalog prefix, the lock apart, is the file that the merge wrote for
    that path, or is absent when the merge wrote none.  (Nobody else writes
    once the upload has been issued.) *)
Theorem main_publishes_merge (args : Args) (bucket : string) (st0 st : state) :
  quiet_after (upload_call bucket (garden_dir_for args)) ->
  get_bucket_for_stage (arg_stage args) = Ok bucket ->
  main args st0 = (st, Ok tt) ->
  exists apps tools output,
    merge_registries (local_files (arg_local_registry args)) (fs st Working)
      (repo_version_str (arg_repo_version args)) (force_entries_for args)
    = Ok (true, apps, tools, Some output)
    /\ (forall rel,
          catalog_prefix bucket (garden_dir_for args) +:+ rel
          <> lock_s3_path bucket (Some (garden_dir_for args)) ->
          remote st (catalog_prefix bucket (garden_dir_for args) +:+ rel) = output rel).
Proof.
  intros Hq Hbucket Hmain.
  assert (Hrun : exists s1,
            try_finally
              (try_except
                 (try_block bucket (garden_dir_for args)
                    (repo_version_str (arg_repo_version args))
                    (arg_local_registry args) (arg_dry_run args) (force_entries_for args))
                 is_Exception (except_block bucket (garden_dir_for args)))
              (finally_block bucket (garden_dir_for args)) s1 = (st, Ok tt)).
  { unfold main in Hmain. rewrite Hbucket in Hmain. eexists. exact Hmain. }
  clear Hmain. destruct Hrun as (s1 & Hrun).
  unfold try_finally, try_except in Hrun.
  destruct (try_block _ _ _ _ _ _ s1) as [s2 res] eqn:Htry.
  pose proof (hoare_run _ _ _ _ _ _ _
                (try_block_publishes bucket _ _ _ _ Hq (arg_dry_run args)) I Htry) as Hres.
  clear Htry s1. destruct s2 as [r2 f2 c2 p2 l2 b2 h2].
  destruct res as [[]|e].
  - destruct Hres as (Hl & _ & output & (apps & tools & Hm) & Hr).
    cbn [lock_acquired fs remote] in Hl, Hm, Hr. subst l2.
    run_in Hrun. step_in Hrun; [discriminate|].
    injection Hrun as <-. exists apps, tools, output. split; [exact Hm | exact Hr].
  - clear Hres. exfalso.
    destruct (is_Exception e); run_in Hrun; repeat step_in Hrun; discriminate.
Qed.

End Publication.

(** ** scripts/registry-remove.py *)

Import RemoveSpec.

Lemma find_entries_to_remove_from (entries : list entry) (name : string)
    (m r : list entry) :
  fold_left
    (fun acc entry =>
       let '(matching, remaining) := acc in
       if decide (e_name entry = Some name)
       then (matching ++ [entry], remaining)
       else (matching, remaining ++ [entry]))
    entries (m, r)
  = (m ++ named name entries, r ++ without name entries).
Proof.
  revert m r. induction entries as [|e entries IH]; intros m r.
  - cbn. rewrite !app_nil_r. reflexivity.
  - cbn [fold_left]. unfold named, without in *.
    rewrite !filter_cons.
    destruct (decide (e_name e = Some name)) as [He|He]; rewrite IH;
      destruct (decide (e_name e <> Some name)) as [Hn|Hn]; try contradiction;
      try (exfalso; apply Hn; exact He);
      rewrite <- app_assoc; reflexivity.
Qed.

Lemma find_entries_to_remove_filters (entries : list entry) (name : string) :
  RegistryRemove.find_entries_to_remove entries name
  = (named name entries, without name entries).
Proof. apply find_entries_to_remove_from. Qed.

(** X20: [find_entries_to_remove] splits the catalog in two without
    losing, duplicating or reordering anything: the first list holds the
    entries whose name is the given one, the second one all the others
    (also the entries without a name), both in catalog order, and the two
    lengths add up to the length of the catalog. *)
Theorem find_entries_to_remove_partition (entries : list entry) (name : string) :
  RegistryRemove.find_entries_to_remove entries name
  = (filter (fun e => e_name e = Some name) entries,
     filter (fun e => e_name e <> Some name) entries)
  /\ length (RegistryRemove.find_entries_to_remove entries name).1
     + length (RegistryRemove.find_entries_to_remove entries name).2
     = length entries.
Proof.
  rewrite find_entries_to_remove_filters. split; [reflexivity|].
  cbn [fst snd]. unfold named, without.
  induction entries as [|e entries IH]; [reflexivity|].
  rewrite !filter_cons.
  destruct (decide (e_name e = Some name)) as [He|He];
    destruct (decide (e_name e <> Some name)) as [Hn|Hn]; try contradiction;
    try (exfalso; apply Hn; exact He);
    cbn [length]; lia.
Qed.

Lemma named_nil_without (name : string) (entries : list entry) :
  named name entries = [] -> without name entries = entries.
Proof.
  unfold named, without. induction entries as [|e entries IH]; [reflexivity|].
  rewrite !filter_cons.
  destruct (decide (e_name e = Some name)) as [He|He]; [discriminate|].
  destruct (decide (e_name e <> Some name)) as [Hn|Hn]; [|contradiction].
  intros H. rewrite (IH H). reflexivity.
Qed.

Lemma named_found (name : string) (apps tools : list entry) :
  (length (named name apps) + length (named name tools) =? 0)%nat = false ->
  exists e, e ∈ apps ++ tools /\ e_name e = Some name.
Proof.
  intros H. apply Nat.eqb_neq in H. unfold named in H.
  destruct (filter _ apps) as [|e l] eqn:Ha.
  - destruct (filter _ tools) as [|e l] eqn:Ht; [cbn in H; lia|].
    assert (He : e ∈ filter (fun e => e_name e = Some name) tools)
      by (rewrite Ht; left).
    apply list_elem_of_filter in He. destruct He as [He Hin].
    exists e. split; [apply elem_of_app; right; exact Hin | exact He].
  - assert (He : e ∈ filter (fun e => e_name e = Some name) apps)
      by (rewrite Ha; left).
    apply list_elem_of_filter in He. destruct He as [He Hin].
    exists e. split; [apply elem_of_app; left; exact Hin | exact He].
Qed.

(** The output directory that the run builds is the modified catalog. *)
Lemma built_is_modified (repo_version name : string) (downloaded : dir)
    (apps tools : list entry) (rel : string) :
  RegistryRemove.copytree downloaded
    (if decide (repo_version = "v2") then "images" else "app-garden-images")
    (save_registry_json
       (save_registry_json empty_dir "apps.json" (without name apps))
       "tools.json" (without name tools)) rel
  = modified_catalog repo_version name downloaded apps tools rel.
Proof.
  unfold RegistryRemove.copytree, modified_catalog, save_registry_json, empty_dir.
  destruct (String.eqb_spec rel "apps.json") as [->|Ha].
  { destruct (decide (repo_version = "v2")); reflexivity. }
  destruct (String.eqb_spec rel "tools.json") as [->|Ht].
  { destruct (decide (repo_version = "v2")); reflexivity. }
  destruct (strip_prefix _ rel); [|reflexivity].
  destruct (downloaded rel); reflexivity.
Qed.

Lemma hoare_get {A B} (f : state -> A) (k : A -> M B) (Q : state -> Prop) post epost :
  (forall a, hoare (fun st => Q st /\ a = f st) (k a) post epost) ->
  hoare Q (get f ≫= k) post epost.
Proof. intros Hk st Hst. exact (Hk (f st) st (conj Hst eq_refl)). Qed.

Lemma hoare_lift {A B} (r : result A) (k : A -> M B) (Q : state -> Prop) post :
  (forall a, r = Ok a -> hoare Q (k a) post (fun _ _ => True)) ->
  hoare Q (lift r ≫= k) post (fun _ _ => True).
Proof.
  intros Hk st Hst. destruct r as [a|e]; [exact (Hk a eq_refl st Hst) | exact I].
Qed.

(** Symbolic execution, with the blocks of registry-remove. *)
Ltac run_remove_in H :=
  cbv [RegistryRemove.try_block RegistryRemove.finally_block RegistryRemove.except_block
       RegistryRemove.dry_run_block] in H;
  run_in H.

Ltac step_remove_in H :=
  match type of H with
  | context [match ?x with _ => _ end] => undecided x; destruct x eqn:?; run_remove_in H
  end.

Section RemovalSteps.
Context {E : Environment}.
Variables (bucket garden_dir repo_version name : string).

Local Abbreviation fresh_output := (fun st : state => fs st Merged = empty_dir).

Lemma lock_step_keeps_output (handler : exn -> M unit) :
  (forall e, hoare fresh_output (handler e) (fun st _ => fresh_output st) (fun _ _ => True)) ->
  hoare fresh_output
    (try_except
       (acquire_lock bucket (Some garden_dir) None;;
        modify (set_lock_acquired true))
       is_RuntimeError handler)
    (fun st _ => fresh_output st) (fun _ _ => True).
Proof.
  intros Hh. eapply hoare_try_except with (epost' := fun st _ => fresh_output st).
  - intros st Hst. destruct st as [r0 f0 c0 p0 l0 b0 h0]. cbn [fs] in Hst.
    destruct ((acquire_lock _ _ _;; _) _) as [st' r] eqn:Hrun.
    run_in Hrun. repeat step_in Hrun.
    all: injection Hrun as <- <-; exact Hst.
  - intros e _. apply Hh.
  - intros st e _ _. exact I.
Qed.

Lemma download_keeps_output :
  hoare fresh_output (download_registry bucket garden_dir Working true)
    (fun st r => fresh_output st /\ r = (Working, Some Backup)) (fun _ _ => True).
Proof.
  intros st Hst. destruct st as [r0 f0 c0 p0 l0 b0 h0]. cbn [fs] in Hst.
  destruct (download_registry _ _ _ _ _) as [st' [r|e]] eqn:Hrun; [|exact I].
  split; [|exact (download_registry_result _ _ _ _ _ _ Hrun)].
  run_in Hrun. repeat step_in Hrun.
  all: first [discriminate Hrun | injection Hrun as <- _; exact Hst].
Qed.

Hypothesis nobody_else : quiet_after (upload_call bucket garden_dir).

Local Abbreviation removal := (removal_of repo_version name).

(** The statements of a live run, when they come to their end, have
    published the modified catalog. *)
Lemma live_run_publishes (confirmed : bool) :
  hoare fresh_output
    (RegistryRemove.live_run bucket garden_dir repo_version name confirmed)
    (fun st _ => confirmed = true /\ lock_acquired st = false
                 /\ output_published bucket garden_dir removal st)
    (fun _ _ => True).
Proof.
  unfold RegistryRemove.live_run.
  apply (hoare_modify _ _ _ fresh_output); [intros st H; exact H|].
  eapply hoare_bind.
  { apply lock_step_keeps_output. intros e st _. exact I. }
  intros locked. cbv beta.
  apply (hoare_modify _ _ _ fresh_output); [intros st H; exact H|].
  eapply hoare_bind; [apply download_keeps_output|].
  intros [remote_path backup]. apply hoare_assume.
  intros Heq. injection Heq as Hpath Hbackup. subst remote_path backup. cbv beta iota.
  do 4 (apply (hoare_modify _ _ _ fresh_output); [intros st H; exact H|]).
  apply hoare_get. intros remote_files.
  apply hoare_lift. intros apps Happs.
  apply hoare_lift. intros tools Htools.
  rewrite !find_entries_to_remove_filters. cbv beta iota zeta.
  destruct (_ =? 0)%nat eqn:Htotal; [intros st _; exact I|].
  apply hoare_ret_bind.
  pose proof (named_found _ _ _ Htotal) as Hfound. clear Htotal.
  pose proof (named_nil_without name apps) as Hall_apps.
  pose proof (named_nil_without name tools) as Hall_tools.
  pose (Q := fun st : state => fs st Merged = empty_dir /\ remote_files = fs st Working).
  pose (Q1 := fun st : state =>
                fs st Merged = save_registry_json empty_dir "apps.json" (without name apps)
                /\ remote_files = fs st Working).
  pose (Q2 := fun st : state =>
                fs st Merged
                = save_registry_json
                    (save_registry_json empty_dir "apps.json" (without name apps))
                    "tools.json" (without name tools)
                /\ remote_files = fs st Working).
  do 2 (apply (hoare_modify _ _ _ Q); [intros st H; exact H|]).
  apply (hoare_bind _ _ _ (fun st _ => Q st));
    [destruct (named name apps); intros st H; exact H | intros _].
  apply (hoare_bind _ _ _ (fun st _ => Q st));
    [destruct (named name tools); intros st H; exact H | intros _].
  apply (hoare_modify _ _ _ Q); [intros st H; exact H|].
  destruct confirmed; cbn [negb]; [|intros st _; exact I].
  apply hoare_ret_bind.
  apply (hoare_modify _ _ _ Q); [intros st H; exact H|].
  apply (hoare_bind _ _ _ (fun st _ => Q1 st)).
  { destruct (named name apps); intros st [H1 H2]; split; try exact H2; cbn [fs];
      cbn [local_dir_eqb]; rewrite H1, ?Hall_apps by reflexivity; reflexivity. }
  intros _.
  apply (hoare_bind _ _ _ (fun st _ => Q2 st)).
  { destruct (named name tools); intros st [H1 H2]; split; try exact H2; cbn [fs];
      cbn [local_dir_eqb]; rewrite H1, ?Hall_tools by reflexivity; reflexivity. }
  intros _.
  apply (hoare_modify _ _ _ (output_written removal)).
  { intros st [H1 H2]. unfold output_written. cbn [fs set_dir local_dir_eqb].
    exists apps, tools. rewrite <- H2. split; [exact Happs|]. split; [exact Htools|].
    split; [exact Hfound|]. intros rel. rewrite H1. apply built_is_modified. }
  apply (push_verify_release bucket garden_dir removal nobody_else).
  apply hoare_print_last. intros st [Hl Hp]. split; [reflexivity|]. split; assumption.
Qed.

End RemovalSteps.

Section Removal.
Context {E : Environment}.

(** The dry-run block always ends in [sys.exit] or in an error. *)
Lemma dry_run_block_exits (bucket garden_dir name : string) :
  hoare (fun _ => True) (RegistryRemove.dry_run_block bucket garden_dir name)
    (fun _ _ => False) (fun _ _ => True).
Proof.
  unfold RegistryRemove.dry_run_block.
  do 5 (apply hoare_skip; intros ?).
  rewrite !find_entries_to_remove_filters. cbv beta iota zeta.
  do 7 (apply hoare_skip; intros ?).
  intros st _. exact I.
Qed.

Lemma try_block_publishes_removal (bucket garden_dir repo_version name : string)
    (dry_run confirmed : bool) :
  quiet_after (upload_call bucket garden_dir) ->
  hoare (fun st => fs st Merged = empty_dir)
    (RegistryRemove.try_block bucket garden_dir repo_version name dry_run confirmed)
    (fun st _ => confirmed = true /\ lock_acquired st = false
                 /\ output_published bucket garden_dir (removal_of repo_version name) st)
    (fun _ _ => True).
Proof.
  intros Hq. unfold RegistryRemove.try_block.
  destruct dry_run.
  - eapply hoare_bind with (mid := fun _ _ => False).
    + eapply hoare_weaken;
        [apply dry_run_block_exits | intros; exact I | intros st ? [] | intros; exact I].
    + intros _ st [].
  - apply hoare_ret_bind. apply live_run_publishes. exact Hq.
Qed.

(** X23: when a run of registry-remove returns normally, the user has
    confirmed, the downloaded catalog had an entry of the name, and the
    store holds the modified catalog: apps.json and tools.json are the
    downloaded lists without the entries of that name, all other entries
    kept in order; the image files are the downloaded ones; every other
    object under the catalog prefix, the lock apart, is gone.  (Nobody else
    writes once the upload has been issued.) *)
Theorem remove_publishes_remaining (args : RegistryRemove.Args) (confirmed : bool)
    (bucket : string) (st0 st : state) :
  quiet_after (upload_call bucket (RemoveSpec.garden_dir_for args)) ->
  get_bucket_for_stage (RegistryRemove.arg_stage args) = Ok bucket ->
  RegistryRemove.main args confirmed st0 = (st, Ok tt) ->
  confirmed = true
  /\ exists apps tools,
       load_registry_json (fs st Working) "apps.json" = Ok apps
       /\ load_registry_json (fs st Working) "tools.json" = Ok tools
       /\ (exists e, e ∈ apps ++ tools /\ e_name e = Some (RegistryRemove.arg_name args))
       /\ forall rel,
            catalog_prefix bucket (RemoveSpec.garden_dir_for args) +:+ rel
            <> lock_s3_path bucket (Some (RemoveSpec.garden_dir_for args)) ->
            remote st (catalog_prefix bucket (RemoveSpec.garden_dir_for args) +:+ rel)
            = modified_catalog (repo_version_str (RegistryRemove.arg_repo_version args))
                (RegistryRemove.arg_name args) (fs st Working) apps tools rel.
Proof.
  intros Hq Hbucket Hmain.
  assert (Hrun : exists s1,
            fs s1 Merged = empty_dir
            /\ try_finally
                 (try_except
                    (RegistryRemove.try_block bucket (RemoveSpec.garden_dir_for args)
                       (repo_version_str (RegistryRemove.arg_repo_version args))
                       (RegistryRemove.arg_name args) (RegistryRemove.arg_dry_run args)
                       confirmed)
                    is_Exception
                    (RegistryRemove.except_block bucket (RemoveSpec.garden_dir_for args)))
                 (RegistryRemove.finally_block bucket (RemoveSpec.garden_dir_for args)) s1
               = (st, Ok tt)).
  { unfold RegistryRemove.main in Hmain. rewrite Hbucket in Hmain.
    eexists. split; [|exact Hmain]. reflexivity. }
  clear Hmain. destruct Hrun as (s1 & Hs1 & Hrun).
  unfold try_finally, try_except in Hrun.
  destruct (RegistryRemove.try_block _ _ _ _ _ _ s1) as [s2 res] eqn:Htry.
  pose proof (hoare_run _ _ _ _ _ _ _
                (try_block_publishes_removal bucket _ _ _ _ _ Hq) Hs1 Htry) as Hres.
  clear Htry Hs1 s1. destruct s2 as [r2 f2 c2 p2 l2 b2 h2].
  destruct res as [[]|e].
  - destruct Hres as (Hc & Hl & _ & output & (apps & tools & Ha & Ht & He & Ho) & Hr).
    cbn [lock_acquired fs remote] in Hl, Ha, Ht, Ho, Hr. subst l2.
    run_remove_in Hrun. step_remove_in Hrun; [discriminate|].
    injection Hrun as <-. split; [exact Hc|]. exists apps, tools.
    cbn [fs remote local_dir_eqb].
    split; [exact Ha|]. split; [exact Ht|]. split; [exact He|].
    intros rel Hrel. rewrite (Hr rel Hrel). apply Ho.
  - clear Hres. exfalso.
    destruct (is_Exception e); run_remove_in Hrun; repeat step_remove_in Hrun;
      discriminate.
Qed.

End Removal.

Lemma named_found_iff (name : string) (apps tools : list entry) :
  (length (named name apps) + length (named name tools) =? 0)%nat = false
  <-> exists e, e ∈ apps ++ tools /\ e_name e = Some name.
Proof.
  split; [apply named_found|].
  intros (e & Hin & He). apply Nat.eqb_neq. unfold named.
  apply elem_of_app in Hin. destruct Hin as [Hin|Hin].
  - assert (H : e ∈ filter (fun e => e_name e = Some name) apps)
      by (apply list_elem_of_filter; split; assumption).
    destruct (filter _ apps); [inversion H | cbn; lia].
  - assert (H : e ∈ filter (fun e => e_name e = Some name) tools)
      by (apply list_elem_of_filter; split; assumption).
    destruct (filter _ tools); [inversion H | cbn; lia].
Qed.

Section RemovalDryRun.
Context {E : Environment}.

(** The dry-run block: one download, then [sys.exit] or an error. *)
Lemma dry_run_block_outcome (bucket garden_dir name : string) (st st' : state)
    (res : result unit) :
  RegistryRemove.dry_run_block bucket garden_dir name st = (st', res) ->
  (exists e, res = Raise e)
  /\ lock_acquired st' = lock_acquired st /\ backup_path st' = backup_path st
  /\ had_error st' = had_error st
  /\ calls st' = calls st ++ [S3_sync_down (catalog_prefix bucket garden_dir) Scratch]
  /\ remote st' = others (calls st) (remote st)
  /\ (forall apps tools,
        oracle (calls st) (S3_sync_down (catalog_prefix bucket garden_dir) Scratch)
        = Succeeds ->
        load_registry_json
          (sync_to_local (others (calls st) (remote st)) (catalog_prefix bucket garden_dir)
             (fun _ => true) (fs st Scratch)) "apps.json" = Ok apps ->
        load_registry_json
          (sync_to_local (others (calls st) (remote st)) (catalog_prefix bucket garden_dir)
             (fun _ => true) (fs st Scratch)) "tools.json" = Ok tools ->
        res = Raise (SystemExit
                       (if (length (named name apps) + length (named name tools) =? 0)%nat
                        then 1 else 0))).
Proof.
  intros H. destruct st as [r0 f0 c0 p0 l0 b0 h0]. unfold catalog_prefix.
  cbn [calls remote fs lock_acquired backup_path had_error].
  run_remove_in H.
  repeat (first [rewrite find_entries_to_remove_filters in H | step_remove_in H];
          run_remove_in H).
  all: injection H as <- <-; cbn [calls remote fs lock_acquired backup_path had_error].
  all: split; [eexists; reflexivity|].
  all: do 5 (split; [reflexivity|]).
  all: intros apps tools Ho Ha Ht; try discriminate Ho.
  all: repeat match goal with
              | H1 : ?x = _, H2 : ?x = _ |- _ => rewrite H1 in H2
              end;
       try discriminate; simplify_eq.
  all: repeat match goal with
              | H1 : named _ _ = _ |- _ => rewrite H1 in *; clear H1
              end.
  all: repeat match goal with
              | H1 : (_ =? 0)%nat = _ |- _ => rewrite H1
              end;
       reflexivity.
Qed.

(** X21: a dry run of registry-remove never completes normally and never
    writes.  When no bucket is configured it issues no command, leaves the
    store as it was and exits with code 1; when a bucket is configured it
    issues exactly one command, the download from that bucket's prefix
    into its scratch directory, and the store is as the other writers left
    it.  When that download succeeds and the two catalogs load, the exit
    code is 0 exactly when some entry has the name. *)
Theorem remove_dry_run_only_reads (args : RegistryRemove.Args) (confirmed : bool)
    (st0 st : state) (r : result unit) :
  RegistryRemove.arg_dry_run args = true ->
  RegistryRemove.main args confirmed st0 = (st, r) ->
  r <> Ok tt
  /\ (forall e, get_bucket_for_stage (RegistryRemove.arg_stage args) = Raise e ->
        calls st = calls st0 /\ remote st = remote st0 /\ exit_code r = 1)
  /\ (forall bucket, get_bucket_for_stage (RegistryRemove.arg_stage args) = Ok bucket ->
        calls st = calls st0
          ++ [S3_sync_down (catalog_prefix bucket (RemoveSpec.garden_dir_for args))
                Scratch]
        /\ remote st = others (calls st0) (remote st0))
  /\ (forall bucket apps tools,
        get_bucket_for_stage (RegistryRemove.arg_stage args) = Ok bucket ->
        oracle (calls st0)
          (S3_sync_down (catalog_prefix bucket (RemoveSpec.garden_dir_for args)) Scratch)
        = Succeeds ->
        load_registry_json
          (sync_to_local (others (calls st0) (remote st0))
             (catalog_prefix bucket (RemoveSpec.garden_dir_for args))
             (fun _ => true) empty_dir) "apps.json" = Ok apps ->
        load_registry_json
          (sync_to_local (others (calls st0) (remote st0))
             (catalog_prefix bucket (RemoveSpec.garden_dir_for args))
             (fun _ => true) empty_dir) "tools.json" = Ok tools ->
        (exit_code r = 0
         <-> exists e, e ∈ apps ++ tools /\ e_name e = Some (RegistryRemove.arg_name args))).
Proof.
  intros Hdry Hmain. unfold RegistryRemove.main in Hmain. rewrite Hdry in Hmain.
  destruct st0 as [r0 f0 c0 p0 l0 b0 h0]. cbn [calls remote].
  destruct (get_bucket_for_stage _) as [bucket|e] eqn:Hb.
  2:{ pose proof (get_bucket_for_stage_error _ _ Hb) as Hve.
      destruct e; try discriminate Hve.
      all: lazy in Hmain; injection Hmain as <- <-.
      all: split; [discriminate|]; split; [intros _ _; repeat split|].
      all: split; intros; discriminate. }
  assert (Hrun : exists s1,
            (remote s1 = r0 /\ calls s1 = c0 /\ fs s1 Scratch = empty_dir
             /\ lock_acquired s1 = false /\ backup_path s1 = None /\ had_error s1 = false)
            /\ try_finally
                 (try_except
                    (RegistryRemove.try_block bucket (RemoveSpec.garden_dir_for args)
                       (repo_version_str (RegistryRemove.arg_repo_version args))
                       (RegistryRemove.arg_name args) true confirmed)
                    is_Exception
                    (RegistryRemove.except_block bucket (RemoveSpec.garden_dir_for args)))
                 (RegistryRemove.finally_block bucket (RemoveSpec.garden_dir_for args)) s1
               = (st, r)).
  { eexists. split; [|exact Hmain]. repeat split. }
  clear Hmain. destruct Hrun as (s1 & (Hr1 & Hc1 & Hf1 & Hl1 & Hb1 & He1) & Hrun).
  unfold try_finally, try_except, RegistryRemove.try_block, mbind, M_bind in Hrun.
  destruct (RegistryRemove.dry_run_block _ _ _ s1) as [s2 res] eqn:Hblock.
  destruct (dry_run_block_outcome _ _ _ _ _ _ Hblock)
    as ((e & ->) & Hl & Hbp & Hh & Hc & Hr & Hexit).
  rewrite Hr1, Hc1, Hf1 in *. rewrite Hl1 in Hl. rewrite Hb1 in Hbp. rewrite He1 in Hh.
  clear Hblock Hr1 Hc1 Hf1 Hl1 Hb1 He1 s1.
  destruct s2 as [r2 f2 c2 p2 l2 b2 h2].
  cbn [calls remote lock_acquired backup_path had_error] in *. subst.
  destruct e; cbn [is_Exception] in Hrun; run_remove_in Hrun;
    injection Hrun as <- <-; cbn [calls remote].
  all: split; [discriminate|]; split; [intros ?; discriminate|].
  all: split; [intros b [= <-]; split; reflexivity|].
  all: intros b apps tools [= <-] Ho Ha Ht; specialize (Hexit apps tools Ho Ha Ht).
  all: try discriminate Hexit.
  injection Hexit as ->. cbn [exit_code]. rewrite <- named_found_iff.
  destruct (_ =? 0)%nat; split; congruence.
Qed.

End RemovalDryRun.

Lemma hoare_try_finally {A} (body : M A) (cleanup : M unit) pre post1 epost1 post epost :
  hoare pre body post1 epost1 ->
  (forall a, hoare (fun st => post1 st a) cleanup (fun st _ => post st a) epost) ->
  (forall e, hoare (fun st => epost1 st e) cleanup (fun st _ => epost st e) epost) ->
  hoare pre (try_finally body cleanup) post epost.
Proof.
  intros Hb Hok Hraise st Hst. specialize (Hb st Hst). unfold try_finally.
  destruct (body st) as [st' [a|e]].
  - specialize (Hok a st' Hb). destruct (cleanup st') as [st'' [u|e]]; exact Hok.
  - specialize (Hraise e st' Hb). destruct (cleanup st') as [st'' [u|e']]; exact Hraise.
Qed.

Lemma hoare_pure {A} (fact : Prop) pre (m : M A) post epost :
  (forall st, pre st -> fact) -> (fact -> hoare pre m post epost) ->
  hoare pre m post epost.
Proof. intros Hf Hm st Hst. exact (Hm (Hf st Hst) st Hst). Qed.

Section Declined.
Context {E : Environment}.

Local Abbreviation no_upload := (fun c : aws_call => uploads_output c = false).

(** No upload of the output directory so far, and a backup, if any, is in
    the backup directory. *)
Local Abbreviation untouched :=
  (fun st : state =>
     Forall no_upload (calls st)
     /\ (backup_path st = None \/ backup_path st = Some Backup)).

Lemma stable_untouched : stable no_upload untouched.
Proof.
  intros st st' Hext [Hc Hb]. split; [exact (stable_calls no_upload st st' Hext Hc)|].
  destruct Hext as (_ & -> & _). exact Hb.
Qed.

Lemma stable_untouched_error :
  stable no_upload (fun st => untouched st /\ had_error st = true).
Proof.
  intros st st' Hext [Hu Hh]. split; [exact (stable_untouched st st' Hext Hu)|].
  destruct Hext as (_ & _ & -> & _). exact Hh.
Qed.

Ltac keep :=
  eapply (hoare_step no_upload);
  [ framed_tac ltac:(reflexivity) | apply stable_untouched | intros st e H; exact H | intros ? ].

Lemma dry_run_block_untouched (bucket garden_dir name : string) :
  hoare untouched (RegistryRemove.dry_run_block bucket garden_dir name)
    (fun _ _ => False) (fun st _ => untouched st).
Proof.
  intros st Hst.
  pose proof (dry_run_block_exits bucket garden_dir name st I) as Hexit.
  assert (Hf : framed no_upload (RegistryRemove.dry_run_block bucket garden_dir name)).
  { unfold RegistryRemove.dry_run_block, download_registry.
    framed_tac ltac:(reflexivity). }
  pose proof (stable_untouched st _ (Hf st) Hst) as Hkeep.
  destruct (RegistryRemove.dry_run_block _ _ _ st) as [st' [a|e]];
    [exact Hexit | exact Hkeep].
Qed.

Lemma live_run_declined (bucket garden_dir repo_version name : string) :
  hoare untouched (RegistryRemove.live_run bucket garden_dir repo_version name false)
    (fun _ _ => False) (fun st _ => untouched st).
Proof.
  unfold RegistryRemove.live_run.
  keep.
  eapply (hoare_bind _ _ _ (fun st _ => untouched st)).
  { eapply (hoare_try_except _ _ _ _ _ _ (fun st _ => untouched st)).
    - eapply (hoare_bind _ _ _ (fun st _ => untouched st)).
      + eapply hoare_weaken;
          [ apply (hoare_framed no_upload _ untouched);
            [apply framed_acquire_lock; intros; reflexivity | apply stable_untouched]
          | auto | auto | auto ].
      + intros _. apply hoare_modify_last. intros st H. exact H.
    - intros e _ st Hst. exact Hst.
    - intros st e _ Hst. exact Hst. }
  intros locked. cbv beta.
  keep.
  eapply (hoare_bind _ _ _ (fun st r => untouched st /\ r = (Working, Some Backup))).
  { eapply hoare_weaken;
      [ apply (hoare_framed_result no_upload _ untouched
                 (fun r => r = (Working, Some Backup)));
        [ apply framed_download_registry; intros; reflexivity
        | apply stable_untouched
        | intros st st' r; apply download_registry_result ]
      | auto | auto | intros st e H; exact H ]. }
  intros [remote_path backup]. apply hoare_assume.
  intros Heq. injection Heq as Hpath Hbackup. subst remote_path backup. cbv beta iota.
  apply (hoare_modify _ _ _ untouched).
  { intros st [Hc _]. split; [exact Hc | right; reflexivity]. }
  do 6 keep.
  rewrite !find_entries_to_remove_filters. cbv beta iota zeta.
  do 6 keep.
  cbn [negb]. intros st Hst. exact Hst.
Qed.

Lemma except_block_untouched (bucket garden_dir : string) (e : exn) :
  hoare untouched (RegistryRemove.except_block bucket garden_dir e)
    (fun st _ => untouched st /\ had_error st = true)
    (fun st _ => untouched st).
Proof.
  unfold RegistryRemove.except_block.
  apply (hoare_modify _ _ _ (fun st => untouched st /\ had_error st = true)).
  { intros st H. split; [exact H | reflexivity]. }
  eapply (hoare_step no_upload);
    [ framed_tac ltac:(reflexivity) | apply stable_untouched_error
    | intros st x H; exact (proj1 H) | intros _ ].
  apply hoare_get. intros backup.
  apply (hoare_pure (backup = None \/ backup = Some Backup)).
  { intros st [[[_ Hb] _] ->]. exact Hb. }
  intros Hb.
  eapply hoare_weaken;
    [ apply (hoare_framed no_upload _ (fun st => untouched st /\ had_error st = true));
      [|apply stable_untouched_error]
    | intros st H; exact (proj1 H) | intros st a H; exact H
    | intros st x H; exact (proj1 H) ].
  destruct Hb as [-> | ->]; [apply framed_ret|].
  unfold restore_backup, upload_registry. framed_tac ltac:(reflexivity).
Qed.

Lemma finally_block_framed (bucket garden_dir : string) :
  framed no_upload (RegistryRemove.finally_block bucket garden_dir).
Proof.
  unfold RegistryRemove.finally_block, release_lock, check_lock_exists.
  framed_tac ltac:(reflexivity).
Qed.

Lemma finally_block_after_error (bucket garden_dir : string) :
  hoare (fun st => untouched st /\ had_error st = true)
    (RegistryRemove.finally_block bucket garden_dir)
    (fun _ _ => False) (fun st _ => untouched st).
Proof.
  unfold RegistryRemove.finally_block.
  do 4 (eapply (hoare_step no_upload);
        [ unfold release_lock, check_lock_exists; framed_tac ltac:(reflexivity)
        | apply stable_untouched_error | intros st x H; exact (proj1 H) | intros ? ]).
  apply hoare_get. intros errored.
  apply (hoare_pure (errored = true)).
  { intros st [[_ Hh] ->]. exact Hh. }
  intros ->. intros st [[Hu _] _]. exact Hu.
Qed.

Lemma finally_block_untouched (bucket garden_dir : string) :
  hoare untouched (RegistryRemove.finally_block bucket garden_dir)
    (fun st _ => untouched st) (fun st _ => untouched st).
Proof.
  apply (hoare_framed no_upload); [apply finally_block_framed | apply stable_untouched].
Qed.

Lemma try_block_declined (bucket garden_dir repo_version name : string)
    (dry_run : bool) :
  hoare untouched
    (RegistryRemove.try_block bucket garden_dir repo_version name dry_run false)
    (fun _ _ => False) (fun st _ => untouched st).
Proof.
  unfold RegistryRemove.try_block.
  eapply (hoare_bind _ _ _ (fun st _ => untouched st)).
  - destruct dry_run.
    + eapply hoare_weaken;
        [ apply dry_run_block_untouched | intros st H; exact H | intros st ? []
        | intros st e H; exact H ].
    + intros st H. exact H.
  - intros _. apply live_run_declined.
Qed.

(** X22: when the user does not confirm, registry-remove never uploads its
    output directory, whatever the commands and other writers do, and the
    run does not complete normally. *)
Theorem remove_declined_uploads_nothing (args : RegistryRemove.Args) (st0 st : state)
    (r : result unit) :
  Forall (fun c => uploads_output c = false) (calls st0) ->
  RegistryRemove.main args false st0 = (st, r) ->
  Forall (fun c => uploads_output c = false) (calls st) /\ r <> Ok tt.
Proof.
  intros Hcalls Hmain.
  assert (Hmain' :
    hoare (fun st => Forall no_upload (calls st))
      (RegistryRemove.main args false)
      (fun _ _ => False)
      (fun st e => Forall no_upload (calls st))).
  2:{ pose proof (hoare_run _ _ _ _ _ _ _ Hmain' Hcalls Hmain) as H.
      destruct r as [[]|e]; [destruct H|]. split; [exact H | discriminate]. }
  clear. unfold RegistryRemove.main.
  do 5 (eapply (hoare_step no_upload);
        [ framed_tac ltac:(reflexivity) | apply stable_calls | intros st e H; exact H
        | intros ? ]).
  apply (hoare_modify _ _ _ untouched).
  { intros st H. split; [exact H | left; reflexivity]. }
  do 2 (apply (hoare_modify _ _ _ untouched); [intros st H; exact H|]).
  eapply (hoare_try_finally _ _ _ (fun st _ => untouched st /\ had_error st = true)
            (fun st _ => untouched st)).
  - eapply (hoare_try_except _ _ _ _ _ _ (fun st _ => untouched st)).
    + eapply hoare_weaken;
        [ apply try_block_declined | intros st H; exact H | intros st ? []
        | intros st e H; exact H ].
    + intros e _. apply except_block_untouched.
    + intros st e _ H. exact H.
  - intros _. eapply hoare_weaken;
      [ apply finally_block_after_error | intros st H; exact H | intros st ? []
      | intros st e H; exact (proj1 H) ].
  - intros e. eapply hoare_weaken;
      [ apply finally_block_untouched | intros st H; exact H
      | intros st ? H; exact (proj1 H) | intros st ? H; exact (proj1 H) ].
Qed.

End Declined.

(** ** The further properties at concrete entries *)

Import RemoveSamples.

Lemma compare_constraints_meaning_witness :
  exists s1 s2 tvs,
    parse_constraint ">=0.8.0" = Ok s1 /\ parse_constraint ">=0.9.0" = Ok s2
    /\ get_test_versions = Ok tvs /\ relates tvs s1 s2 SUPERSET.
Proof.
  destruct (parse_constraint ">=0.8.0") as [s1|e1] eqn:H1;
    [|exfalso; vm_compute in H1; discriminate H1].
  destruct (parse_constraint ">=0.9.0") as [s2|e2] eqn:H2;
    [|exfalso; vm_compute in H2; discriminate H2].
  destruct get_test_versions as [tvs|e] eqn:Ht;
    [|exfalso; vm_compute in Ht; discriminate Ht].
  destruct (compare_constraints_meaning ">=0.8.0" ">=0.9.0" s1 s2 tvs H1 H2 Ht)
    as (r & Hr & Hrel).
  assert (Hc : compare_constraints ">=0.8.0" ">=0.9.0" = Ok SUPERSET)
    by (vm_compute; reflexivity).
  rewrite Hc in Hr. injection Hr as <-.
  exists s1, s2, tvs.
  split; [reflexivity|]. split; [reflexivity|]. split; [reflexivity | exact Hrel].
Defined.

Lemma compare_constraints_same_witness :
  compare_constraints ">=0.8.0" ">=0.8.0" = Ok SAME.
Proof.
  destruct (parse_constraint ">=0.8.0") as [s1|e1] eqn:H1;
    [|exfalso; vm_compute in H1; discriminate H1].
  destruct get_test_versions as [tvs|e] eqn:Ht;
    [|exfalso; vm_compute in Ht; discriminate Ht].
  exact (proj1 (compare_constraints_same ">=0.8.0" ">=0.8.0" s1 s1 tvs H1 H1 Ht)).
Defined.

Lemma merge_entries_total_on_valid_witness :
  exists res, merge_entries disjoint_local disjoint_remote "v2" None = Ok res
              /\ length (actions res) = length disjoint_local
              /\ (success res = true <-> errors res = []).
Proof.
  apply (merge_entries_total_on_valid disjoint_local disjoint_remote "v2" None).
  - right. right. reflexivity.
  - eexists. vm_compute. reflexivity.
  - constructor; [vm_compute; reflexivity | constructor].
  - constructor; [vm_compute; reflexivity | constructor].
Defined.

Lemma merge_entries_missing_field_witness :
  merge_entries
    [{| e_name := None; e_version := Some "1.0.0"; e_kamiwaza_version := None;
        e_payload := "" |}] [] "v1" None
  = Raise (KeyError "name").
Proof.
  exact (proj1 (merge_entries_missing_field [] [] []
                  {| e_name := None; e_version := Some "1.0.0";
                     e_kamiwaza_version := None; e_payload := "" |}
                  "v1" None [] (List.Forall2_nil _)) eq_refl).
Defined.

Lemma acquire_lock_outcome_witness :
  (acquire_lock (E := calm) "registry" (Some "v2") None sample_state).2 = Ok true.
Proof.
  pose proof (acquire_lock_outcome (E := calm) "registry" (Some "v2") None
                "garden/v2/registry.lock" sample_state _ _
                (fun _ _ => eq_refl) (fun _ _ => eq_refl)
                ltac:(vm_compute; reflexivity) ltac:(vm_compute; reflexivity)
                (surjective_pairing _)) as H.
  exact (proj1 H).
Defined.

Lemma download_registry_outcome_witness :
  calls (download_registry (E := calm) "registry" "v2" Working true sample_state).1
  = [S3_sync_down "s3://registry/garden/v2/" Working].
Proof.
  exact (proj1 (proj2 (download_registry_outcome (E := calm) "registry" "v2" Working true
                         sample_state _ _ (surjective_pairing _)))).
Defined.

Lemma upload_registry_mirror_witness :
  calls (upload_registry (E := calm) "registry" "v2" Merged true sample_state).1
  = [S3_sync_up Merged "s3://registry/garden/v2/" true].
Proof.
  exact (proj1 (upload_registry_mirror (E := calm) "registry" "v2" Merged true
                  sample_state _ _ (surjective_pairing _))).
Defined.

Lemma verify_upload_checks_witness :
  calls (verify_upload (E := calm) "registry" "v2" Merged sample_state).1
  = [S3_sync_down "s3://registry/garden/v2/" Verify].
Proof.
  exact (proj1 (proj2 (verify_upload_checks (E := calm) "registry" "v2" Merged
                         sample_state _ _ ltac:(discriminate) (surjective_pairing _)))).
Defined.

Lemma restore_backup_round_trip_witness :
  remote
    (restore_backup (E := calm) "registry" "v2" Backup
       (download_registry (E := calm) "registry" "v2" Working true sample_state).1).1
    "s3://registry/garden/v2/apps.json"
  = Some (JsonArray [v2_entry "app" "1.0.0" ">=0.8.0"]).
Proof.
  assert (Hd : (download_registry (E := calm) "registry" "v2" Working true sample_state).2
               = Ok (Working, Some Backup)) by (vm_compute; reflexivity).
  assert (Hr : (restore_backup (E := calm) "registry" "v2" Backup
                  (download_registry (E := calm) "registry" "v2" Working true
                     sample_state).1).2 = Ok true) by (vm_compute; reflexivity).
  pose proof (surjective_pairing
                (download_registry (E := calm) "registry" "v2" Working true sample_state))
    as Hdown.
  rewrite Hd in Hdown.
  pose proof (surjective_pairing
                (restore_backup (E := calm) "registry" "v2" Backup
                   (download_registry (E := calm) "registry" "v2" Working true
                      sample_state).1)) as Hrest.
  rewrite Hr in Hrest.
  destruct (restore_backup_round_trip (E := calm) "registry" "v2" sample_state _ _ _ _ _
              (fun _ _ => eq_refl) (fun _ => eq_refl) eq_refl Hdown
              ltac:(intros H; vm_compute in H; discriminate H) eq_refl Hrest)
    as [_ Hsame].
  exact (Hsame "apps.json").
Defined.

Lemma main_stops_before_any_command_witness :
  calls (main (E := calm) (sample_args Absent false) sample_state).1 = []
  /\ exit_code (main (E := calm) (sample_args Absent false) sample_state).2 = 1.
Proof.
  destruct (main_stops_before_any_command (E := calm) (sample_args Absent false)
              sample_state _ _ (surjective_pairing _)
              ltac:(right; vm_compute; reflexivity)) as (Hc & _ & He).
  split; [exact Hc | exact He].
Defined.

Lemma main_publishes_merge_witness :
  exists apps tools output,
    merge_registries (local_files upgrade_registry)
      (fs (main (E := calm) (sample_args upgrade_registry false) sample_state).1 Working)
      "v2" None
    = Ok (true, apps, tools, Some output)
    /\ remote (main (E := calm) (sample_args upgrade_registry false) sample_state).1
         "s3://registry/garden/v2/apps.json"
       = output "apps.json".
Proof.
  assert (Hr : (main (E := calm) (sample_args upgrade_registry false) sample_state).2
               = Ok tt) by (vm_compute; reflexivity).
  pose proof (surjective_pairing
                (main (E := calm) (sample_args upgrade_registry false) sample_state))
    as Hmain.
  rewrite Hr in Hmain.
  destruct (main_publishes_merge (E := calm) (sample_args upgrade_registry false)
              "registry" sample_state _ (fun _ _ _ => eq_refl)
              ltac:(vm_compute; reflexivity) Hmain)
    as (apps & tools & output & Hm & Hout).
  exists apps, tools, output. split; [exact Hm|].
  exact (Hout "apps.json" ltac:(vm_compute; discriminate)).
Defined.

Lemma remove_dry_run_only_reads_witness :
  (RegistryRemove.main (E := calm) (removal_args "app" true) false sample_state).2 <> Ok tt
  /\ calls (RegistryRemove.main (E := calm) (removal_args "app" true) false sample_state).1
     = [S3_sync_down "s3://registry/garden/v2/" Scratch]
  /\ exit_code
       (RegistryRemove.main (E := calm) (removal_args "app" true) false sample_state).2
     = 0.
Proof.
  destruct (remove_dry_run_only_reads (E := calm) (removal_args "app" true) false
              sample_state _ _ eq_refl (surjective_pairing _))
    as (Hnot & _ & Hcalls & Hexit).
  split; [exact Hnot|].
  split; [exact (proj1 (Hcalls "registry" ltac:(vm_compute; reflexivity)))|].
  apply (Hexit "registry" [v2_entry "app" "1.0.0" ">=0.8.0"] []).
  - vm_compute. reflexivity.
  - reflexivity.
  - vm_compute. reflexivity.
  - vm_compute. reflexivity.
  - exists (v2_entry "app" "1.0.0" ">=0.8.0"). split; [left | reflexivity].
Defined.

Lemma remove_declined_uploads_nothing_witness :
  Forall (fun c => uploads_output c = false)
    (calls (RegistryRemove.main (E := calm) (removal_args "app" false) false
              sample_state).1)
  /\ (RegistryRemove.main (E := calm) (removal_args "app" false) false sample_state).2
     <> Ok tt.
Proof.
  exact (remove_declined_uploads_nothing (E := calm) (removal_args "app" false)
           sample_state _ _ (Forall_nil_2 _) (surjective_pairing _)).
Defined.

Lemma remove_publishes_remaining_witness :
  remote (RegistryRemove.main (E := calm) (removal_args "app" false) true sample_state).1
    "s3://registry/garden/v2/apps.json"
  = Some (JsonArray []).
Proof.
  assert (Hr : (RegistryRemove.main (E := calm) (removal_args "app" false) true
                  sample_state).2 = Ok tt) by (vm_compute; reflexivity).
  pose proof (surjective_pairing
                (RegistryRemove.main (E := calm) (removal_args "app" false) true
                   sample_state)) as Hmain.
  rewrite Hr in Hmain.
  destruct (remove_publishes_remaining (E := calm) (removal_args "app" false) true
              "registry" sample_state _ (fun _ _ _ => eq_refl)
              ltac:(vm_compute; reflexivity) Hmain)
    as (_ & apps & tools & Ha & _ & _ & Hout).
  vm_compute in Ha. injection Ha as <-.
  etransitivity;
    [exact (Hout "apps.json" ltac:(vm_compute; discriminate)) | vm_compute; reflexivity].
Defined.
